(** * gpuart: the bounding-volumes hierarchy and its compiled form

    A shallow embedding of [core.h]/[core.cpp] (primitives and their
    encoders/decoders) and of [bvh.h]/[bvh.cpp] (tree construction by
    [Subdivide], flattening by [CompileFrom]), followed by the properties
    of the wire format and of the tree that the specification states.

    Conventions.
    - [float] is IEEE-754 binary32 and [double] binary64, both carried by
      the Standard Library's executable [spec_float] with the precision
      written out at every operation.
    - [uint32_t]/[unsigned] values are [Z] with the wrap-around [u32]
      written where the source computes modulo 2^32.
    - [std::vector] is [list]; indices ([size_t]) are [nat].
    - A [Primitive*] is a [Handle]; the pointed-to objects live in a heap
      [deref] that the builder only reads. *)

From Stdlib Require Import ZArith List Bool Lia Permutation String.
From Stdlib Require Import Floats.SpecFloat.
From stdpp Require Import base tactics option list.

Local Open Scope Z_scope.

(** ** Scalars *)

Definition float := spec_float.
Definition double := spec_float.

Module F32.
Definition prec : Z := 24.
Definition emax : Z := 128.
Definition add : float -> float -> float := SFadd prec emax.
Definition sub : float -> float -> float := SFsub prec emax.
End F32.

Module F64.
Definition prec : Z := 53.
Definition emax : Z := 1024.
Definition add : double -> double -> double := SFadd prec emax.
Definition mul : double -> double -> double := SFmul prec emax.
(** The implicit promotion of a [float] operand; it is exact, the
    mantissa is only re-aligned to 53 bits. *)
Definition of_float (f : float) : double :=
  match f with
  | S754_finite s m e => binary_round prec emax s m e
  | _ => f
  end.
(** The literal [0.5]. *)
Definition half : double := S754_finite false 4503599627370496 (-53).
End F64.

(** C++ comparison operators on floating-point values; every comparison
    with a NaN operand is false. *)
Definition flt (a b : spec_float) : bool := SFltb a b.
Definition fle (a b : spec_float) : bool := SFleb a b.
Definition fgt (a b : spec_float) : bool :=
  match SFcompare a b with Some Gt => true | _ => false end.
Definition fge (a b : spec_float) : bool :=
  match SFcompare a b with Some (Gt | Eq) => true | _ => false end.
Definition feq (a b : spec_float) : bool := SFeqb a b.

Definition is_nan (a : spec_float) : bool :=
  match a with S754_nan => true | _ => false end.

(** [std::min]/[std::max] as in <algorithm>: [(b < a) ? b : a] and
    [(a < b) ? b : a]. *)
Definition std_min (a b : float) : float := if flt b a then b else a.
Definition std_max (a b : float) : float := if flt a b then b else a.

(** [#define RGBA_PAD 0.0f], [#define RGBA_ELEMS 4] *)
Definition RGBA_PAD : float := S754_zero false.
Definition RGBA_ELEMS : Z := 4.

(** The literals [99.0e+29f] and [9e+19f], rounded to binary32. *)
Definition f_99e29 : float := S754_finite false 16378176 79.
Definition f_9e19 : float := S754_finite false 10231815 43.

Definition u32 (z : Z) : Z := z mod 2 ^ 32.

(** ** Primitives ([core.h], [core.cpp]) *)

Module Vec3f.
Record t := mk { x : float; y : float; z : float }.
End Vec3f.
Abbreviation Vec3f := Vec3f.t.

(** [enum Primitive_t] *)
Inductive Primitive_t := SPHERE | DISC | TRIANGLE | CONE.

Definition Primitive_t_value (t : Primitive_t) : Z :=
  match t with SPHERE => 0 | DISC => 1 | TRIANGLE => 2 | CONE => 3 end.

(** The data members of the four derived classes. *)
Inductive Shape :=
| Sphere (Center : Vec3f) (Radius : float)
| Disc (Center Normal : Vec3f) (Radius : float)
| Triangle (Vert0 Vert1 Vert2 : Vec3f)
| Cone (Center1 Center2 : Vec3f) (Radius1 Radius2 : float)
       (UnitAxis : Vec3f) (AxisLen WidthCoeff CosB DotAxC1 : float).

(** A constructed [Primitive]: the bounding box of the base class and the
    members of the derived class. *)
Record Primitive := mkPrimitive {
  Xmin : float; Xmax : float;
  Ymin : float; Ymax : float;
  Zmin : float; Zmax : float;
  shape : Shape
}.

Definition GetXmin := Xmin.
Definition GetXmax := Xmax.
Definition GetYmin := Ymin.
Definition GetYmax := Ymax.
Definition GetZmin := Zmin.
Definition GetZmax := Zmax.

Definition GetType (p : Primitive) : Primitive_t :=
  match shape p with
  | Sphere _ _ => SPHERE
  | Disc _ _ _ => DISC
  | Triangle _ _ _ => TRIANGLE
  | Cone _ _ _ _ _ _ _ _ _ => CONE
  end.

(** [Sphere::Sphere(center, radius)] with [Sphere::CalcBoundingBox]. *)
Definition Sphere_new (center : Vec3f) (radius : float) : Primitive :=
  {| Xmin := F32.sub (Vec3f.x center) radius;
     Xmax := F32.add (Vec3f.x center) radius;
     Ymin := F32.sub (Vec3f.y center) radius;
     Ymax := F32.add (Vec3f.y center) radius;
     Zmin := F32.sub (Vec3f.z center) radius;
     Zmax := F32.add (Vec3f.z center) radius;
     shape := Sphere center radius |}.

(** [Disc::Disc(center, normal, radius)] with [Disc::CalcBoundingBox]. *)
Definition Disc_new (center normal : Vec3f) (radius : float) : Primitive :=
  {| Xmin := F32.sub (Vec3f.x center) radius;
     Xmax := F32.add (Vec3f.x center) radius;
     Ymin := F32.sub (Vec3f.y center) radius;
     Ymax := F32.add (Vec3f.y center) radius;
     Zmin := F32.sub (Vec3f.z center) radius;
     Zmax := F32.add (Vec3f.z center) radius;
     shape := Disc center normal radius |}.

(** [Triangle::CalcBoundingBox]: a running minimum and maximum over the
    three vertices, started at [9e+19f] and [-9e+19f]. *)
Definition tri_lo (acc v : float) : float := if flt v acc then v else acc.
Definition tri_hi (acc v : float) : float := if fgt v acc then v else acc.

Definition Triangle_new (v0 v1 v2 : Vec3f) : Primitive :=
  let lo f := tri_lo (tri_lo (tri_lo f_9e19 (f v0)) (f v1)) (f v2) in
  let hi f := tri_hi (tri_hi (tri_hi (SFopp f_9e19) (f v0)) (f v1)) (f v2) in
  {| Xmin := lo Vec3f.x; Xmax := hi Vec3f.x;
     Ymin := lo Vec3f.y; Ymax := hi Vec3f.y;
     Zmin := lo Vec3f.z; Zmax := hi Vec3f.z;
     shape := Triangle v0 v1 v2 |}.

(** The bounding box computed at the end of [Cone::Cone]; the derived
    members ([UnitAxis], [AxisLen], ...) are taken as constructed. *)
Definition Cone_box (c1 c2 : Vec3f) (r1 r2 : float) (s : Shape) : Primitive :=
  {| Xmin := std_min (F32.sub (Vec3f.x c1) r1) (F32.sub (Vec3f.x c2) r2);
     Xmax := std_max (F32.add (Vec3f.x c1) r1) (F32.add (Vec3f.x c2) r2);
     Ymin := std_min (F32.sub (Vec3f.y c1) r1) (F32.sub (Vec3f.y c2) r2);
     Ymax := std_max (F32.add (Vec3f.y c1) r1) (F32.add (Vec3f.y c2) r2);
     Zmin := std_min (F32.sub (Vec3f.z c1) r1) (F32.sub (Vec3f.z c2) r2);
     Zmax := std_max (F32.add (Vec3f.z c1) r1) (F32.add (Vec3f.z c2) r2);
     shape := s |}.

(** ** The arithmetic of [Cone::Cone] ([core.cpp], [math_types.h]) *)

Definition fmul (a b : float) : float := SFmul F32.prec F32.emax a b.
Definition fdiv (a b : float) : float := SFdiv F32.prec F32.emax a b.
Definition dsub (a b : double) : double := SFsub F64.prec F64.emax a b.
Definition ddiv (a b : double) : double := SFdiv F64.prec F64.emax a b.
Definition dsqrt (a : double) : double := SFsqrt F64.prec F64.emax a.

(** The conversion [(float)d] of a [double]: rounding to nearest. *)
Definition float_of_double (d : double) : float :=
  match d with
  | S754_finite s m e => binary_round F32.prec F32.emax s m e
  | _ => d
  end.

(** The literals [1] (converted to [double]) and [1.0e-7]. *)
Definition d_1 : double := S754_finite false 4503599627370496 (-52).
Definition d_1e_7 : double := S754_finite false 7555786372591432 (-76).

(** [Vec3<double>] with the operations [Cone::Cone] uses. *)
Module Vec3d.
Record t := mk { x : double; y : double; z : double }.
(** [Vec3(const Vec3<float> &v)] *)
Definition of_Vec3f (v : Vec3f) : t :=
  mk (F64.of_float (Vec3f.x v)) (F64.of_float (Vec3f.y v)) (F64.of_float (Vec3f.z v)).
(** [Vec3<float>(const Vec3<double> &v)] *)
Definition to_Vec3f (v : t) : Vec3f :=
  Vec3f.mk (float_of_double (x v)) (float_of_double (y v)) (float_of_double (z v)).
(** [operator -(v, w)], through [operator -=] *)
Definition sub (v w : t) : t :=
  mk (dsub (x v) (x w)) (dsub (y v) (y w)) (dsub (z v) (z w)).
(** [sqrlength()]: [x*x + y*y + z*z] *)
Definition sqrlength (v : t) : double :=
  F64.add (F64.add (F64.mul (x v) (x v)) (F64.mul (y v) (y v))) (F64.mul (z v) (z v)).
(** [length()] *)
Definition length (v : t) : double := dsqrt (sqrlength v).
(** [operator /(v, a)], through [operator /=]: a multiplication by
    [1/a]. *)
Definition div (v : t) (a : double) : t :=
  let a_inv := ddiv d_1 a in
  mk (F64.mul (x v) a_inv) (F64.mul (y v) a_inv) (F64.mul (z v) a_inv).
(** The dot product [operator *(v, w)] *)
Definition dot (v w : t) : double :=
  F64.add (F64.add (F64.mul (x v) (x w)) (F64.mul (y v) (y w))) (F64.mul (z v) (z w)).
End Vec3d.

(** [Cone::Cone(center1, center2, radius1, radius2)]: the derived members
    and then the bounding box. *)
Definition Cone_new (center1 center2 : Vec3f) (radius1 radius2 : float) : Primitive :=
  let vc1 := Vec3d.of_Vec3f center1 in
  let vc2 := Vec3d.of_Vec3f center2 in
  let AxisLen := float_of_double (Vec3d.length (Vec3d.sub vc2 vc1)) in
  let vd := Vec3d.div (Vec3d.sub vc2 vc1) (F64.of_float AxisLen) in
  let UnitAxis := Vec3d.to_Vec3f vd in
  let WidthCoeff := fdiv (F32.sub radius2 radius1) AxisLen in
  let CosB :=
    if flt (F64.of_float (SFabs (F32.sub radius1 radius2))) d_1e_7
    then S754_zero false
    else if fgt radius1 radius2
    then
      let h := fdiv (fmul radius1 AxisLen) (F32.sub radius1 radius2) in
      float_of_double
        (ddiv (F64.of_float radius1)
              (dsqrt (F64.add (F64.mul (F64.of_float h) (F64.of_float h))
                              (F64.mul (F64.of_float radius1) (F64.of_float radius1)))))
    else
      let h := fdiv (fmul radius2 AxisLen) (F32.sub radius2 radius1) in
      float_of_double
        (ddiv (F64.of_float (SFopp radius2))
              (dsqrt (F64.add (F64.mul (F64.of_float h) (F64.of_float h))
                              (F64.mul (F64.of_float radius2) (F64.of_float radius2))))) in
  let DotAxC1 := float_of_double (Vec3d.dot vd vc1) in
  Cone_box center1 center2 radius1 radius2
           (Cone center1 center2 radius1 radius2 UnitAxis AxisLen WidthCoeff CosB DotAxC1).

(** ** The buffer

    [Primitive::Data] is [std::vector<GLfloat>].  A slot holds either a
    float or, through [reinterpret_cast], the 32 bits of a [uint32_t];
    which one is decided by the writer, so the slot carries it. *)
Inductive Slot :=
| SlotF (v : float)
| SlotU (bits : Z).

Abbreviation Data := (list Slot).

(** [PushVector] *)
Definition PushVector (data : Data) (v : Vec3f) : Data :=
  data ++ [SlotF (Vec3f.x v)] ++ [SlotF (Vec3f.y v)] ++ [SlotF (Vec3f.z v)].

Definition push_back (data : Data) (s : Slot) : Data := data ++ [s].

(** [Sphere::StoreDataIntoBVH], [Disc::StoreDataIntoBVH],
    [Triangle::StoreDataIntoBVH], [Cone::StoreDataIntoBVH], selected by
    virtual dispatch. *)
Definition StoreDataIntoBVH (s : Shape) (data : Data) : Data :=
  match s with
  | Sphere Center Radius =>
      let data := push_back data (SlotF (Vec3f.x Center)) in
      let data := push_back data (SlotF (Vec3f.y Center)) in
      let data := push_back data (SlotF (Vec3f.z Center)) in
      push_back data (SlotF Radius)
  | Disc Center Normal Radius =>
      let data := push_back data (SlotF (Vec3f.x Center)) in
      let data := push_back data (SlotF (Vec3f.y Center)) in
      let data := push_back data (SlotF (Vec3f.z Center)) in
      let data := push_back data (SlotF Radius) in
      let data := push_back data (SlotF (Vec3f.x Normal)) in
      let data := push_back data (SlotF (Vec3f.y Normal)) in
      let data := push_back data (SlotF (Vec3f.z Normal)) in
      push_back data (SlotF RGBA_PAD)
  | Triangle Vert0 Vert1 Vert2 =>
      fold_left
        (fun data v =>
           let data := push_back data (SlotF (Vec3f.x v)) in
           let data := push_back data (SlotF (Vec3f.y v)) in
           let data := push_back data (SlotF (Vec3f.z v)) in
           push_back data (SlotF RGBA_PAD))
        [Vert0; Vert1; Vert2] data
  | Cone Center1 Center2 Radius1 Radius2 UnitAxis AxisLen WidthCoeff CosB DotAxC1 =>
      let data := PushVector data Center1 in
      let data := push_back data (SlotF Radius1) in
      let data := PushVector data Center2 in
      let data := push_back data (SlotF Radius2) in
      let data := PushVector data UnitAxis in
      let data := push_back data (SlotF AxisLen) in
      let data := push_back data (SlotF WidthCoeff) in
      let data := push_back data (SlotF CosB) in
      let data := push_back data (SlotF DotAxC1) in
      push_back data (SlotF RGBA_PAD)
  end.

(** [Primitive::StoreIntoBVH]: the type-tag quad, then the payload. *)
Definition StoreIntoBVH (p : Primitive) (data : Data) : Data :=
  let ptype := Primitive_t_value (GetType p) in
  let data := push_back data (SlotU ptype) in
  let data := push_back data (SlotF RGBA_PAD) in
  let data := push_back data (SlotF RGBA_PAD) in
  let data := push_back data (SlotF RGBA_PAD) in
  StoreDataIntoBVH (shape p) data.

(** ** Decoders ([PrintBVH])

    A decoder advances an iterator [it] over the buffer and writes to an
    output stream [os].  Both are threaded through a small state monad;
    dereferencing the iterator at or past [end()] has no defined result
    and is [None]. *)
Inductive Token :=
| Txt (s : string)       (* a string literal *)
| Num (v : Slot)         (* a [GLfloat] read from the buffer *)
| UInt (n : Z)           (* an unsigned integer *)
| Endl.                  (* [std::endl] *)

Record Cursor := mkCursor { it : nat; os : list Token }.

Definition Printer (A : Type) : Type := Data -> Cursor -> option (A * Cursor).

#[global] Instance Printer_ret : MRet Printer :=
  fun A a _ c => Some (a, c).
#[global] Instance Printer_bind : MBind Printer :=
  fun A B f m data c =>
    match m data c with
    | Some (a, c') => f a data c'
    | None => None
    end.

(** [*it++] *)
Definition deref_incr : Printer Slot :=
  fun data c =>
    match data !! it c with
    | Some v => Some (v, {| it := S (it c); os := os c |})
    | None => None
    end.

(** [it++], [it += n] *)
Definition advance (n : nat) : Printer unit :=
  fun _ c => Some (tt, {| it := (it c + n)%nat; os := os c |}).

(** [os << "..."] and [os << value] *)
Definition put (s : string) : Printer unit :=
  fun _ c => Some (tt, {| it := it c; os := os c ++ [Txt s] |}).
Definition put_value (v : Slot) : Printer unit :=
  fun _ c => Some (tt, {| it := it c; os := os c ++ [Num v] |}).

(** [os << *it++] and [os << s << *it++] *)
Definition next_value : Printer unit :=
  v ← deref_incr; put_value v.
Definition put_next (s : string) : Printer unit :=
  put s;; next_value.

Definition Sphere_PrintBVH : Printer unit :=
  put_next "{ (";;        (* Center.x *)
  put_next ", ";;         (* Center.y *)
  put_next ", ";;         (* Center.z *)
  put_next "), ";; put " }".   (* Radius *)

Definition Disc_PrintBVH : Printer unit :=
  put_next "{ (";;        (* Center.x *)
  put_next ", ";;         (* Center.y *)
  put_next ", ";;         (* Center.z *)
  put_next "), ";;        (* Radius *)
  put_next ", (";;        (* Normal.x *)
  put_next ", ";;         (* Normal.y *)
  put_next ", ";; put ") }";;  (* Normal.z *)
  advance 1.              (* skip RGBA padding *)

Definition Triangle_PrintBVH_vertex (i : Z) : Printer unit :=
  put_next "(";;
  put_next ", ";;
  put_next ", ";; put ")";;
  (if i <? 2 then put ", " else mret tt);;
  advance 1.              (* skip RGBA padding *)

Definition Triangle_PrintBVH : Printer unit :=
  put "{ ";;
  Triangle_PrintBVH_vertex 0;;
  Triangle_PrintBVH_vertex 1;;
  Triangle_PrintBVH_vertex 2;;
  put " }".

Definition Cone_PrintBVH : Printer unit :=
  put "{ ";;
  (* Center1 *)
  put_next "(";; put_next ", ";; put_next ", ";; put "), ";;
  advance 1;;             (* skip RGBA padding *)
  (* Center2 *)
  put_next "(";; put_next ", ";; put_next ", ";; put "), ";;
  advance 1;;             (* skip RGBA padding *)
  (* UnitAxis *)
  put_next "(";; put_next ", ";; put_next ", ";; put "), ";;
  advance 1;;             (* skip RGBA padding *)
  next_value;; put ", ";;   (* Radius1 *)
  next_value;; put ", ";;   (* Radius2 *)
  next_value;; put ", ";;   (* AxisLen *)
  next_value;; put ", ";;   (* A *)
  next_value;; put ", ";;   (* CosB *)
  next_value;;              (* DotAxC1 *)
  advance 2;;             (* skip RGBA padding *)
  put " }".

(** The static [PrintBVH] a caller selects from the decoded type tag. *)
Definition PrintBVH (t : Primitive_t) : Printer unit :=
  match t with
  | SPHERE => Sphere_PrintBVH
  | DISC => Disc_PrintBVH
  | TRIANGLE => Triangle_PrintBVH
  | CONE => Cone_PrintBVH
  end.

(** Number of slots a decoder consumed when started at [start]. *)
Definition consumed (t : Primitive_t) (data : Data) (start : nat) : option nat :=
  match PrintBVH t data {| it := start; os := [] |} with
  | Some (_, c) => Some (it c - start)%nat
  | None => None
  end.

(** ** The tree ([bvh.h]) *)

(** A [Primitive*]. *)
Definition Handle := nat.

(** [struct BoundingBox]; a [std::unique_ptr] child is [None] when null. *)
#[local] Set Warnings "-register-all".
Inductive BoundingBox := mkBoundingBox {
  xmin : float; xmax : float;
  ymin : float; ymax : float;
  zmin : float; zmax : float;
  lower : option BoundingBox;
  higher : option BoundingBox;
  primitives : list Handle
}.

Definition LEAF : Z := Z.shiftl 1 31.
Definition IS_LOWER : Z := Z.shiftl 1 30.
Definition IS_ROOT : Z := Z.shiftl 1 29.
Definition FLAGS_MASK : Z := Z.lor (Z.lor LEAF IS_LOWER) IS_ROOT.

(** [class BoundingVolumesHierarchy]: its only member. *)
Record BoundingVolumesHierarchy := mkBVH { Root : option BoundingBox }.

(** [std::sort(first, last, comp)] on a range of handles.  The library
    promises a reordering of the range and nothing about ties, so every
    function that permutes its input is accepted as an implementation. *)
Class StdSort := {
  std_sort : (Handle -> Handle -> bool) -> list Handle -> list Handle;
  std_sort_Permutation : forall comp l, Permutation (std_sort comp l) l
}.

(** The elements with indices in [[from, to)]. *)
Definition range {A} (v : list A) (from to : nat) : list A :=
  take (to - from) (drop from v).

(** The running bounds [xminall .. zmaxall] of [Subdivide]. *)
Record Extent := mkExtent {
  xminall : float; xmaxall : float;
  yminall : float; ymaxall : float;
  zminall : float; zmaxall : float
}.

Definition Extent_init : Extent :=
  {| xminall := f_99e29; xmaxall := SFopp f_99e29;
     yminall := f_99e29; ymaxall := SFopp f_99e29;
     zminall := f_99e29; zmaxall := SFopp f_99e29 |}.

Inductive Axis := AxisX | AxisY | AxisZ.

Definition GetMin (a : Axis) (p : Primitive) : float :=
  match a with AxisX => GetXmin p | AxisY => GetYmin p | AxisZ => GetZmin p end.
Definition GetMax (a : Axis) (p : Primitive) : float :=
  match a with AxisX => GetXmax p | AxisY => GetYmax p | AxisZ => GetZmax p end.

Section Builder.
(** The heap of primitives behind the handles. *)
Variable deref : Handle -> Primitive.
Context {sorter : StdSort}.

(** One iteration of the loop over [[from, to)]. *)
Definition Extent_step (all : Extent) (h : Handle) : Extent :=
  let xmin := GetXmin (deref h) in let xmax := GetXmax (deref h) in
  let ymin := GetYmin (deref h) in let ymax := GetYmax (deref h) in
  let zmin := GetZmin (deref h) in let zmax := GetZmax (deref h) in
  {| xminall := if flt xmin (xminall all) then xmin else xminall all;
     xmaxall := if fgt xmax (xmaxall all) then xmax else xmaxall all;
     yminall := if flt ymin (yminall all) then ymin else yminall all;
     ymaxall := if fgt ymax (ymaxall all) then ymax else ymaxall all;
     zminall := if flt zmin (zminall all) then zmin else zminall all;
     zmaxall := if fgt zmax (zmaxall all) then zmax else zmaxall all |}.

(** The comparator handed to [std::sort]:
    [(p1->GetMin() + p1->GetMax())*0.5 < (p2->GetMin() + p2->GetMax())*0.5];
    the sum is a [float], the product with the literal a [double]. *)
Definition center_less (a : Axis) (p1 p2 : Handle) : bool :=
  flt (F64.mul (F64.of_float (F32.add (GetMin a (deref p1)) (GetMax a (deref p1)))) F64.half)
      (F64.mul (F64.of_float (F32.add (GetMin a (deref p2)) (GetMax a (deref p2)))) F64.half).

(** The second conjunct of the [while] condition:
    [0.5 * (p->GetMin() + p->GetMax()) <= minall + 0.5*range]. *)
Definition not_above_middle (a : Axis) (minall rng : float) (h : Handle) : bool :=
  fle (F64.mul F64.half (F64.of_float (F32.add (GetMin a (deref h)) (GetMax a (deref h)))))
      (F64.add (F64.of_float minall) (F64.mul F64.half (F64.of_float rng))).

(** The [while] loop; [rest] are the elements from [subdivisionIndex]
    up to [to], so [subdivisionIndex < to] is [rest <> []]. *)
Fixpoint scan (a : Axis) (minall rng : float) (rest : list Handle)
         (subdivisionIndex : nat) : nat :=
  match rest with
  | [] => subdivisionIndex
  | h :: rest =>
      if not_above_middle a minall rng h
      then scan a minall rng rest (S subdivisionIndex)
      else subdivisionIndex
  end.

(** One of the three branches: sort [[from, to)] in place by center
    along [a], then find the first element above the middle. *)
Definition split_along (a : Axis) (minall rng : float)
           (primitives : list Handle) (from to : nat) : list Handle * nat :=
  let sorted := std_sort (center_less a) (range primitives from to) in
  let primitives := take from primitives ++ sorted ++ drop to primitives in
  (primitives, scan a minall rng (range primitives from to) from).

(** The [if / else if / else if] chain over the three axes.  When no
    condition holds (a NaN among the spans) nothing is sorted and
    [subdivisionIndex] stays at [from]. *)
Definition sort_and_scan (all : Extent) (primitives : list Handle) (from to : nat)
  : list Handle * nat :=
  let xrange := F32.sub (xmaxall all) (xminall all) in
  let yrange := F32.sub (ymaxall all) (yminall all) in
  let zrange := F32.sub (zmaxall all) (zminall all) in
  if fge xrange yrange && fge xrange zrange
  then split_along AxisX (xminall all) xrange primitives from to
  else if fge yrange xrange && fge yrange zrange
  then split_along AxisY (yminall all) yrange primitives from to
  else if fge zrange xrange && fge zrange yrange
  then split_along AxisZ (zminall all) zrange primitives from to
  else (primitives, from).

(** The guard against a dominating bounding box:
    [if (to - from > 2) { if (i == from) i++; else if (i == to) i--; }]. *)
Definition avoid_degenerate (from to subdivisionIndex : nat) : nat :=
  if (2 <? to - from)%nat then
    if (subdivisionIndex =? from)%nat then S subdivisionIndex
    else if (subdivisionIndex =? to)%nat then Nat.pred subdivisionIndex
    else subdivisionIndex
  else subdivisionIndex.

(** [Subdivide].  The node is returned instead of being filled in through
    the pointer (the callers always pass a fresh, non-null node), and the
    vector is returned with it.  [to - from] never wraps: every call has
    [from <= to].  [fuel] bounds the recursion depth of the model only; it
    takes part in no test. *)
Fixpoint Subdivide (fuel : nat) (primitives : list Handle) (from to : nat)
         (currentLevel maxNumLevels minPrimitivesPerNode : Z)
  : option (BoundingBox * list Handle) :=
  match fuel with
  | O => None
  | S fuel =>
      let all := fold_left Extent_step (range primitives from to) Extent_init in
      let node lower higher prims :=
        {| xmin := xminall all; xmax := xmaxall all;
           ymin := yminall all; ymax := ymaxall all;
           zmin := zminall all; zmax := zmaxall all;
           lower := lower; higher := higher; primitives := prims |} in
      if (Z.of_nat (to - from) <=? minPrimitivesPerNode)
         || (currentLevel =? u32 (maxNumLevels - 1))
      then Some (node None None (range primitives from to), primitives)
      else
        let '(primitives, subdivisionIndex) := sort_and_scan all primitives from to in
        let subdivisionIndex := avoid_degenerate from to subdivisionIndex in
        match Subdivide fuel primitives from subdivisionIndex
                        (u32 (currentLevel + 1)) maxNumLevels minPrimitivesPerNode with
        | None => None
        | Some (lo, primitives) =>
            match Subdivide fuel primitives subdivisionIndex to
                            (u32 (currentLevel + 1)) maxNumLevels minPrimitivesPerNode with
            | None => None
            | Some (hi, primitives) =>
                Some (node (Some lo) (Some hi) [], primitives)
            end
        end
  end.

(** Calls left before [currentLevel == maxNumLevels-1] must hold, in
    32-bit arithmetic. *)
Definition levels_left (currentLevel maxNumLevels : Z) : nat :=
  S (Z.to_nat (u32 (maxNumLevels - 1 - currentLevel))).

(** The constructor
    [BoundingVolumesHierarchy(primitives, maxNumLevels, minPrimitivesPerNode)];
    the second component is the caller's vector afterwards. *)
Definition BVH_new (primitives : list Handle)
           (maxNumLevels minPrimitivesPerNode : Z)
  : option (BoundingVolumesHierarchy * list Handle) :=
  match Subdivide (levels_left 0 maxNumLevels) primitives 0 (length primitives)
                  0 maxNumLevels minPrimitivesPerNode with
  | Some (root, primitives) => Some ({| Root := Some root |}, primitives)
  | None => None
  end.

(** ** The compiler ([CompileFrom], [Compile]) *)

Inductive Outcome :=
| Done (compiledTree : Data)
| NullDereference        (* a null [lower], [higher] or [Root] dereferenced *)
| AssertionFailed.       (* [assert(compiledTree.size() <= 1<<31)] *)

(** [PushElements] *)
Definition PushElements (vec : Data) (l : list float) : Data :=
  fold_left (fun vec elem => push_back vec (SlotF elem)) l vec.

(** [CompileFrom].  [&node == Root.get()] compares addresses; every node
    is a distinct heap object owned by its parent, so the test holds in
    the call made by [Compile] and in no recursive call, and [isRoot]
    carries exactly that. *)
Fixpoint CompileFrom (node : BoundingBox) (compiledTree : Data)
         (parentAddr : Z) (isLower isRoot : bool) : Outcome :=
  match node with
  | mkBoundingBox n_xmin n_xmax n_ymin n_ymax n_zmin n_zmax n_lower n_higher n_primitives =>
      let nodeAddr := u32 (Z.of_nat (length compiledTree) / RGBA_ELEMS) in
      let compiledTree :=
        PushElements compiledTree [ n_xmin; n_ymin; n_zmin; RGBA_PAD;
                                    n_xmax; n_ymax; n_zmax; RGBA_PAD ] in
      let flags := if isLower then IS_LOWER else 0 in
      let flags := if isRoot then Z.lor flags IS_ROOT else flags in
      match n_primitives with
      | [] =>
          if negb (Z.of_nat (length compiledTree) <=? Z.shiftl 1 31)
          then AssertionFailed
          else
            let compiledTree := push_back compiledTree (SlotU flags) in
            let lowerAddrLoc := u32 (Z.of_nat (length compiledTree)) in
            let compiledTree := push_back compiledTree (SlotF (S754_zero false)) in
            let higherAddrLoc := u32 (Z.of_nat (length compiledTree)) in
            let compiledTree := push_back compiledTree (SlotF (S754_zero false)) in
            let compiledTree := push_back compiledTree (SlotU parentAddr) in
            let lowerAddr := u32 (Z.of_nat (length compiledTree) / RGBA_ELEMS) in
            let compiledTree := <[Z.to_nat lowerAddrLoc := SlotU lowerAddr]> compiledTree in
            match n_lower with
            | None => NullDereference
            | Some lo =>
                match CompileFrom lo compiledTree nodeAddr true false with
                | Done compiledTree =>
                    let higherAddr := u32 (Z.of_nat (length compiledTree) / RGBA_ELEMS) in
                    let compiledTree :=
                      <[Z.to_nat higherAddrLoc := SlotU higherAddr]> compiledTree in
                    match n_higher with
                    | None => NullDereference
                    | Some hi => CompileFrom hi compiledTree nodeAddr false false
                    end
                | failure => failure
                end
            end
      | _ :: _ =>
          let flags := Z.lor flags LEAF in
          let flags :=
            Z.lor flags (Z.land (u32 (Z.of_nat (length n_primitives)))
                                (u32 (Z.lnot FLAGS_MASK))) in
          let compiledTree := push_back compiledTree (SlotU flags) in
          let compiledTree := PushElements compiledTree [ RGBA_PAD; RGBA_PAD ] in
          let compiledTree := push_back compiledTree (SlotU parentAddr) in
          Done (fold_left (fun compiledTree p => StoreIntoBVH (deref p) compiledTree)
                          n_primitives compiledTree)
      end
  end.

(** [Compile]: [CompileFrom] on the dereferenced [Root], with
    [parentAddr = 0] and [isLower = false]. *)
Definition Compile (bvh : BoundingVolumesHierarchy) (compiledTree : Data) : Outcome :=
  match Root bvh with
  | None => NullDereference
  | Some root => CompileFrom root compiledTree 0 false true
  end.

End Builder.

(** ** The caller ([Renderer::SetPrimitives]) *)

Section Renderer.
Variable deref : Handle -> Primitive.
Context {sorter : StdSort}.

(** [SetPrimitives], up to the point where the compiled buffer is handed
    to OpenGL: the tree is built with [maxNumLevels = 1024] and
    [minPrimitivesPerNode = 2] and compiled into an empty buffer.  The
    result is the tree, the caller's vector afterwards and the outcome of
    the compilation. *)
Definition SetPrimitives (primitives : list Handle)
  : option (BoundingVolumesHierarchy * list Handle * Outcome) :=
  match BVH_new deref primitives 1024 2 with
  | Some (tree, primitives) => Some (tree, primitives, Compile deref tree [])
  | None => None
  end.

End Renderer.

(** ** The printer ([BoundingVolumesHierarchy::Print]) *)

(** The 32 bits of a binary32 value (a NaN as the quiet NaN of an empty
    payload). *)
Definition bits_of_float (v : float) : Z :=
  match v with
  | S754_zero s => if s then 2 ^ 31 else 0
  | S754_infinity s => (if s then 2 ^ 31 else 0) + 2139095040
  | S754_nan => 2143289344
  | S754_finite s m e =>
      (if s then 2 ^ 31 else 0)
      + (if Z.pos m <? 2 ^ 23 then Z.pos m else (e + 150) * 2 ^ 23 + (Z.pos m - 2 ^ 23))
  end.

(** [*reinterpret_cast<const uint32_t*>(&slot)] *)
Definition as_uint32 (s : Slot) : Z :=
  match s with SlotU bits => bits | SlotF v => bits_of_float v end.

(** [pos - compiledTree.begin()] *)
Definition position : Printer nat := fun _ c => Some (it c, c).

Definition put_uint (n : Z) : Printer unit :=
  fun _ c => Some (tt, {| it := it c; os := os c ++ [UInt n] |}).
Definition put_endl : Printer unit :=
  fun _ c => Some (tt, {| it := it c; os := os c ++ [Endl] |}).

(** [*reinterpret_cast<const uint32_t*>(&*pos++)] *)
Definition next_uint32 : Printer Z := v ← deref_incr; mret (as_uint32 v).

(** [if (b) ...] without an [else] *)
Definition when (b : bool) (m : Printer unit) : Printer unit :=
  if b then m else mret tt.

(** [flags & mask] as a condition *)
Definition has (flags mask : Z) : bool := negb (Z.land flags mask =? 0).

(** The body of the [for] loop over the primitives of a leaf; a type
    tag outside the enumeration matches no [case]. *)
Definition Print_primitive : Printer unit :=
  ptype ← next_uint32;
  advance 3;;            (* skip RGBA padding *)
  (if ptype =? Primitive_t_value SPHERE then put "sphere ";; Sphere_PrintBVH
   else if ptype =? Primitive_t_value DISC then put "disc ";; Disc_PrintBVH
   else if ptype =? Primitive_t_value TRIANGLE then put "triangle ";; Triangle_PrintBVH
   else if ptype =? Primitive_t_value CONE then put "cone ";; Cone_PrintBVH
   else mret tt);;
  put ", ".

(** [for (size_t i = 0; i < numPrimitives; i++)].  Every iteration reads
    a slot, so [fuel], the length of the buffer, is not exhausted before
    a read fails. *)
Fixpoint Print_primitives (fuel : nat) (i numPrimitives : Z) : Printer unit :=
  if i <? numPrimitives then
    match fuel with
    | O => fun _ _ => None
    | S fuel => Print_primitive;; Print_primitives fuel (i + 1) numPrimitives
    end
  else mret tt.

(** The body of the [while] loop: one node record. *)
Definition Print_node : Printer unit :=
  pos ← position;
  put "Node at ";; put_uint (Z.of_nat pos / RGBA_ELEMS);;
  put ": [";; next_value;; put "; ";;   (* xmin *)
  next_value;; put "; ";;               (* ymin *)
  next_value;; put "]<->[";;            (* zmin *)
  advance 1;;                           (* skip RGBA padding *)
  next_value;; put "; ";;               (* xmax *)
  next_value;; put "; ";;               (* ymax *)
  next_value;; put "], ";;              (* zmax *)
  advance 1;;                           (* skip RGBA padding *)
  flags ← next_uint32;
  when (has flags IS_LOWER) (put "IS_LOWER ");;
  when (has flags IS_ROOT) (when (has flags IS_LOWER) (put "| ");; put "ROOT ");;
  if has flags LEAF then
    when (has flags (Z.lor IS_LOWER IS_ROOT)) (put "| ");;
    put "LEAF, ";;
    advance 2;;                         (* skip unused lo/hi children addresses *)
    parentAddr ← next_uint32;
    put "parent at ";; put_uint parentAddr;; put ", ";;
    let numPrimitives := Z.land flags (u32 (Z.lnot FLAGS_MASK)) in
    put_uint numPrimitives;;
    put (if numPrimitives =? 1 then " primitive: " else " primitives: ");;
    data ← (fun data c => Some (data, c));
    Print_primitives (length data) 0 numPrimitives;;
    put_endl
  else
    lowerAddr ← next_uint32;
    put "lo_child at ";; put_uint lowerAddr;; put ", ";;
    higherAddr ← next_uint32;
    put "hi_child at ";; put_uint higherAddr;; put ", ";;
    parentAddr ← next_uint32;
    put "parent at ";; put_uint parentAddr;; put_endl.

(** [while (pos != compiledTree.end())]; every iteration reads a slot. *)
Fixpoint Print_nodes (fuel : nat) : Printer unit :=
  fun data c =>
    if (it c =? length data)%nat then Some (tt, c)
    else
      match fuel with
      | O => None
      | S fuel => (Print_node;; Print_nodes fuel) data c
      end.

(** [Print]: the stream it has written, or [None] when it reads outside
    the buffer. *)
Definition Print (compiledTree : Data) : option (list Token) :=
  match Print_nodes (length compiledTree) compiledTree {| it := 0; os := [] |} with
  | Some (_, c) => Some (os c)
  | None => None
  end.

(** [Print_node] with the two things it takes from its surroundings made
    arguments: the position [pos] of the record and the length [fuel] of
    the buffer. *)
Definition Print_node_body (pos fuel : nat) : Printer unit :=
  put "Node at ";; put_uint (Z.of_nat pos / RGBA_ELEMS);;
  put ": [";; next_value;; put "; ";;   (* xmin *)
  next_value;; put "; ";;               (* ymin *)
  next_value;; put "]<->[";;            (* zmin *)
  advance 1;;                           (* skip RGBA padding *)
  next_value;; put "; ";;               (* xmax *)
  next_value;; put "; ";;               (* ymax *)
  next_value;; put "], ";;              (* zmax *)
  advance 1;;                           (* skip RGBA padding *)
  flags ← next_uint32;
  when (has flags IS_LOWER) (put "IS_LOWER ");;
  when (has flags IS_ROOT) (when (has flags IS_LOWER) (put "| ");; put "ROOT ");;
  if has flags LEAF then
    when (has flags (Z.lor IS_LOWER IS_ROOT)) (put "| ");;
    put "LEAF, ";;
    advance 2;;                         (* skip unused lo/hi children addresses *)
    parentAddr ← next_uint32;
    put "parent at ";; put_uint parentAddr;; put ", ";;
    let numPrimitives := Z.land flags (u32 (Z.lnot FLAGS_MASK)) in
    put_uint numPrimitives;;
    put (if numPrimitives =? 1 then " primitive: " else " primitives: ");;
    Print_primitives fuel 0 numPrimitives;;
    put_endl
  else
    lowerAddr ← next_uint32;
    put "lo_child at ";; put_uint lowerAddr;; put ", ";;
    higherAddr ← next_uint32;
    put "hi_child at ";; put_uint higherAddr;; put ", ";;
    parentAddr ← next_uint32;
    put "parent at ";; put_uint parentAddr;; put_endl.

(** ** A reference [std::sort]

    Insertion sort, which is what libstdc++ runs on ranges as short as
    those of the scenes below: each value is moved left past the elements
    it compares less than.  [before] holds the part already sorted, last
    element first. *)
Fixpoint linear_insert (comp : Handle -> Handle -> bool) (val : Handle)
         (before : list Handle) : list Handle :=
  match before with
  | [] => [val]
  | prev :: before' =>
      if comp val prev then prev :: linear_insert comp val before' else val :: before
  end.

Definition insertion_sort (comp : Handle -> Handle -> bool) (l : list Handle)
  : list Handle :=
  rev (fold_left (fun before val => linear_insert comp val before) l []).

#[global, refine] Instance insertion_StdSort : StdSort :=
  {| std_sort := insertion_sort |}.
Proof.
  intros comp l. unfold insertion_sort. rewrite <- Permutation_rev.
  assert (Hins : forall x k, Permutation (linear_insert comp x k) (x :: k)).
  { intros x k. induction k as [|y k IH]; simpl; [reflexivity|].
    destruct (comp x y); [|reflexivity].
    rewrite IH. apply perm_swap. }
  enough (forall acc,
             Permutation (fold_left (fun before val => linear_insert comp val before) l acc)
                         (acc ++ l)) as H by apply (H []).
  induction l as [|x l IH]; intros acc; simpl.
  - rewrite app_nil_r. reflexivity.
  - rewrite IH, Hins. apply Permutation_middle.
Defined.

(** ** Observations on trees *)

(** Levels of the tree below and including [n]. *)
Fixpoint depth (n : BoundingBox) : nat :=
  match n with
  | mkBoundingBox _ _ _ _ _ _ lo hi _ =>
      S (Nat.max (match lo with Some c => depth c | None => 0 end)
                 (match hi with Some c => depth c | None => 0 end))
  end.

(** All nodes, in preorder. *)
Fixpoint nodes (n : BoundingBox) : list BoundingBox :=
  match n with
  | mkBoundingBox _ _ _ _ _ _ lo hi _ =>
      n :: (match lo with Some c => nodes c | None => [] end)
        ++ (match hi with Some c => nodes c | None => [] end)
  end.

(** The primitive lists of the childless nodes, left to right. *)
Fixpoint leaves (n : BoundingBox) : list (list Handle) :=
  match n with
  | mkBoundingBox _ _ _ _ _ _ None None ps => [ps]
  | mkBoundingBox _ _ _ _ _ _ lo hi _ =>
      (match lo with Some c => leaves c | None => [] end)
        ++ (match hi with Some c => leaves c | None => [] end)
  end.

Definition childless (n : BoundingBox) : bool :=
  match lower n, higher n with None, None => true | _, _ => false end.

(** The two kinds of node of the data model. *)
Definition is_leaf (n : BoundingBox) : bool :=
  match lower n, higher n, primitives n with
  | None, None, _ :: _ => true
  | _, _, _ => false
  end.
Definition is_internal (n : BoundingBox) : bool :=
  match lower n, higher n, primitives n with
  | Some _, Some _, [] => true
  | _, _, _ => false
  end.

(** "Either a leaf or internal, never both, never neither". *)
Definition well_formed_node (n : BoundingBox) : bool :=
  xorb (is_leaf n) (is_internal n).

Definition every_node (P : BoundingBox -> Prop) (n : BoundingBox) : Prop :=
  Forall P (nodes n).

(** Node [n] sits at level [k] of a tree built with [maxNumLevels]: no
    node lies below level [maxNumLevels - 1], a node on that level has no
    children, and children are one level further down. *)
Fixpoint at_level (maxNumLevels : Z) (k : Z) (n : BoundingBox) : Prop :=
  match n with
  | mkBoundingBox _ _ _ _ _ _ lo hi _ =>
      k <= maxNumLevels - 1 /\
      (k = maxNumLevels - 1 -> lo = None /\ hi = None) /\
      (match lo with Some c => at_level maxNumLevels (k + 1) c | None => True end) /\
      (match hi with Some c => at_level maxNumLevels (k + 1) c | None => True end)
  end.

(** Box [c] lies inside box [n]. *)
Definition box_inside (c n : BoundingBox) : Prop :=
  fle (xmin n) (xmin c) = true /\ fle (xmax c) (xmax n) = true /\
  fle (ymin n) (ymin c) = true /\ fle (ymax c) (ymax n) = true /\
  fle (zmin n) (zmin c) = true /\ fle (zmax c) (zmax n) = true.

(** The box of primitive [p] lies inside box [n]. *)
Definition primitive_inside (p : Primitive) (n : BoundingBox) : Prop :=
  fle (xmin n) (Xmin p) = true /\ fle (Xmax p) (xmax n) = true /\
  fle (ymin n) (Ymin p) = true /\ fle (Ymax p) (ymax n) = true /\
  fle (zmin n) (Zmin p) = true /\ fle (Zmax p) (zmax n) = true.

(** [lo] is the least of the values [f p] over a list: a lower bound that
    one element attains; likewise the greatest. *)
Definition least_of (f : Primitive -> float) (ps : list Primitive) (lo : float) : Prop :=
  (forall p, In p ps -> fle lo (f p) = true) /\ (exists p, In p ps /\ feq lo (f p) = true).
Definition greatest_of (f : Primitive -> float) (ps : list Primitive) (hi : float) : Prop :=
  (forall p, In p ps -> fle (f p) hi = true) /\ (exists p, In p ps /\ feq hi (f p) = true).

(** The box of [n] is the union of the boxes of the primitives [ps]. *)
Definition box_is_union (ps : list Primitive) (n : BoundingBox) : Prop :=
  least_of Xmin ps (xmin n) /\ greatest_of Xmax ps (xmax n) /\
  least_of Ymin ps (ymin n) /\ greatest_of Ymax ps (ymax n) /\
  least_of Zmin ps (zmin n) /\ greatest_of Zmax ps (zmax n).

(** On each axis some primitive begins at or below the sentinel
    [99.0e+29f] from which [Subdivide] starts its running minimum, and
    some primitive ends at or above [-99.0e+29f], from which it starts
    its running maximum. *)
Definition reaches_sentinels (ps : list Primitive) : Prop :=
  (exists p, In p ps /\ fle (Xmin p) f_99e29 = true) /\
  (exists p, In p ps /\ fle (SFopp f_99e29) (Xmax p) = true) /\
  (exists p, In p ps /\ fle (Ymin p) f_99e29 = true) /\
  (exists p, In p ps /\ fle (SFopp f_99e29) (Ymax p) = true) /\
  (exists p, In p ps /\ fle (Zmin p) f_99e29 = true) /\
  (exists p, In p ps /\ fle (SFopp f_99e29) (Zmax p) = true).

(** The running minimum and maximum of the loop over a range, for one
    coordinate [f] of the primitives. *)
Definition run_min (f : Handle -> float) (l : list Handle) (acc : float) : float :=
  fold_left (fun acc h => if flt (f h) acc then f h else acc) l acc.
Definition run_max (f : Handle -> float) (l : list Handle) (acc : float) : float :=
  fold_left (fun acc h => if fgt (f h) acc then f h else acc) l acc.

Section Construction.
Variable deref : Handle -> Primitive.

(** [n] is a tree over exactly the handles [l], in this order from left
    to right, and each box was computed over those handles. *)
Fixpoint built_over (n : BoundingBox) (l : list Handle) : Prop :=
  match n with
  | mkBoundingBox a b c d e f lo hi ps =>
      (exists l0, Permutation l0 l /\
                  mkExtent a b c d e f = fold_left (Extent_step deref) l0 Extent_init) /\
      match lo, hi with
      | None, None => ps = l
      | Some nl, Some nh =>
          ps = [] /\ exists l1 l2, l = l1 ++ l2 /\ built_over nl l1 /\ built_over nh l2
      | _, _ => False
      end
  end.

(** The box of [n] contains the boxes of its children and, when [n] has
    no children, the boxes of the primitives it stores. *)
Definition contains_below (n : BoundingBox) : Prop :=
  (forall c, lower n = Some c \/ higher n = Some c -> box_inside c n) /\
  (childless n = true ->
   forall h, In h (primitives n) -> primitive_inside (deref h) n).

End Construction.

(** Number of primitives in the leaves below and including [n]. *)
Definition count (n : BoundingBox) : nat := length (concat (leaves n)).

(** The rule by which [Subdivide] decides between a leaf and a split,
    for a node [n] on level [k] of a tree whose last level is
    [lastLevel]: a node without children holds at most
    [minPrimitivesPerNode] primitives or sits on the last level; a node
    with children sits above the last level, has more than
    [minPrimitivesPerNode] primitives below it and, when these are more
    than two, some below each child. *)
Fixpoint split_rule (lastLevel minPrimitivesPerNode : Z) (k : Z) (n : BoundingBox)
  : Prop :=
  match n with
  | mkBoundingBox _ _ _ _ _ _ lo hi ps =>
      match lo, hi with
      | None, None =>
          Z.of_nat (length ps) <= minPrimitivesPerNode \/ k = lastLevel
      | Some l, Some h =>
          minPrimitivesPerNode < Z.of_nat (count l + count h) /\
          k < lastLevel /\
          ((2 < count l + count h)%nat -> (0 < count l)%nat /\ (0 < count h)%nat) /\
          split_rule lastLevel minPrimitivesPerNode (k + 1) l /\
          split_rule lastLevel minPrimitivesPerNode (k + 1) h
      | _, _ => False
      end
  end.

(** ** Observations on primitives *)

(** All six box coordinates of [p] are numbers or infinities, not NaN. *)
Definition box_defined (p : Primitive) : Prop :=
  is_nan (Xmin p) = false /\ is_nan (Xmax p) = false /\
  is_nan (Ymin p) = false /\ is_nan (Ymax p) = false /\
  is_nan (Zmin p) = false /\ is_nan (Zmax p) = false.

(** The box of [p] lies inside the box of [q]. *)
Definition box_within (p q : Primitive) : Prop :=
  fle (Xmin q) (Xmin p) = true /\ fle (Xmax p) (Xmax q) = true /\
  fle (Ymin q) (Ymin p) = true /\ fle (Ymax p) (Ymax q) = true /\
  fle (Zmin q) (Zmin p) = true /\ fle (Zmax p) (Zmax q) = true.

(** [lo] and [hi] are the least and the greatest of the values [f v]
    over the vertices [vs]. *)
Definition spans (f : Vec3f -> float) (vs : list Vec3f) (lo hi : float) : Prop :=
  (forall v, In v vs -> fle lo (f v) = true /\ fle (f v) hi = true) /\
  (exists v, In v vs /\ feq lo (f v) = true) /\
  (exists v, In v vs /\ feq hi (f v) = true).

(** A coordinate between the start values [-9e+19f] and [9e+19f] of
    [Triangle::CalcBoundingBox]. *)
Definition within_9e19 (c : float) : Prop :=
  fle (SFopp f_9e19) c = true /\ fle c f_9e19 = true.

(** A finite number: neither an infinity nor a NaN. *)
Definition is_number (a : spec_float) : bool :=
  match a with S754_zero _ | S754_finite _ _ _ => true | _ => false end.

(** What [std::sort] requires of its comparator on the elements it is
    given: a strict weak ordering - irreflexive, transitive, and with a
    transitive relation "neither is less than the other". *)
Definition strict_weak_order_on {A} (l : list A) (comp : A -> A -> bool) : Prop :=
  (forall x, In x l -> comp x x = false) /\
  (forall x y z, In x l -> In y l -> In z l ->
     comp x y = true -> comp y z = true -> comp x z = true) /\
  (forall x y z, In x l -> In y l -> In z l ->
     comp x y = false -> comp y x = false ->
     comp y z = false -> comp z y = false ->
     comp x z = false /\ comp z x = false).

(** The value the comparator of [Subdivide] computes for a primitive:
    [(p->GetMin() + p->GetMax())*0.5]. *)
Definition center (deref : Handle -> Primitive) (a : Axis) (h : Handle) : double :=
  F64.mul (F64.of_float (F32.add (GetMin a (deref h)) (GetMax a (deref h)))) F64.half.

(** Coordinate [g] of the vertex with index [h] of a triangle. *)
Definition vertex_coordinate (g : Vec3f -> float) (v0 v1 v2 : Vec3f) (h : Handle) : float :=
  g (nth h [v0; v1; v2] v0).

(** ** Observations on compiled buffers *)

Definition box_quads (n : BoundingBox) : Data :=
  [ SlotF (xmin n); SlotF (ymin n); SlotF (zmin n); SlotF RGBA_PAD;
    SlotF (xmax n); SlotF (ymax n); SlotF (zmax n); SlotF RGBA_PAD ].

(** The record of node [n] begins at slot [start] of [buf]. *)
Definition record_at (buf : Data) (start : nat) (n : BoundingBox) : Prop :=
  take 8 (drop start buf) = box_quads n.

Record NodeRecord := mkNodeRecord {
  rec_start : nat;            (* first slot of the record *)
  rec_node : BoundingBox;
  rec_isLower : bool;         (* the node is its parent's lower child *)
  rec_isRoot : bool
}.

(** Every node that [CompileFrom] treats as internal (no primitives) has
    both children. *)
Fixpoint compilable (n : BoundingBox) : Prop :=
  match n with
  | mkBoundingBox _ _ _ _ _ _ lo hi ps =>
      match ps with
      | [] =>
          match lo, hi with
          | Some l, Some h => compilable l /\ compilable h
          | _, _ => False
          end
      | _ :: _ => True
      end
  end.

(** The values a decoder has written to the stream, in order. *)
Definition printed (c : Cursor) : list Slot :=
  flat_map (fun t => match t with Num v => [v] | _ => [] end) (os c).

Section Layout.
Variable deref : Handle -> Primitive.

(** Slots taken by the subtree of [n] in a buffer: three quads for the
    node, then the primitives of a leaf or the two subtrees. *)
Fixpoint slots (n : BoundingBox) : nat :=
  match n with
  | mkBoundingBox _ _ _ _ _ _ lo hi ps =>
      12 + match ps with
           | [] => (match lo with Some c => slots c | None => 0 end)
                   + (match hi with Some c => slots c | None => 0 end)
           | _ :: _ => length (flat_map (fun h => StoreIntoBVH (deref h) []) ps)
           end
  end%nat.

(** The flags word of a node. *)
Definition node_flags (n : BoundingBox) (isLower isRoot : bool) : Z :=
  let flags := if isLower then IS_LOWER else 0 in
  let flags := if isRoot then Z.lor flags IS_ROOT else flags in
  match primitives n with
  | [] => flags
  | _ :: _ =>
      Z.lor (Z.lor flags LEAF)
            (Z.land (u32 (Z.of_nat (length (primitives n)))) (u32 (Z.lnot FLAGS_MASK)))
  end.

(** What [CompileFrom] appends for [n] to a buffer of [start] slots, laid
    out in two passes: sizes first, then the records with the addresses
    already in place. *)
Fixpoint emit (n : BoundingBox) (start : nat) (parentAddr : Z) (isLower isRoot : bool)
  : Data :=
  match n with
  | mkBoundingBox _ _ _ _ _ _ lo hi ps =>
      let nodeAddr := u32 (Z.of_nat start / RGBA_ELEMS) in
      match ps with
      | [] =>
          let lo_start := (start + 12)%nat in
          let lo_part :=
            match lo with Some c => emit c lo_start nodeAddr true false | None => [] end in
          let hi_start := (lo_start + length lo_part)%nat in
          let hi_part :=
            match hi with Some c => emit c hi_start nodeAddr false false | None => [] end in
          box_quads n
            ++ [ SlotU (node_flags n isLower isRoot);
                 SlotU (u32 (Z.of_nat lo_start / RGBA_ELEMS));
                 SlotU (u32 (Z.of_nat hi_start / RGBA_ELEMS));
                 SlotU parentAddr ]
            ++ lo_part ++ hi_part
      | _ :: _ =>
          box_quads n
            ++ [ SlotU (node_flags n isLower isRoot);
                 SlotF RGBA_PAD; SlotF RGBA_PAD; SlotU parentAddr ]
            ++ flat_map (fun h => StoreIntoBVH (deref h) []) ps
      end
  end.

(** The node records of the subtree of [n] compiled at slot [start], in
    the order of emission. *)
Fixpoint records (n : BoundingBox) (start : nat) (isLower isRoot : bool)
  : list NodeRecord :=
  match n with
  | mkBoundingBox _ _ _ _ _ _ lo hi ps =>
      mkNodeRecord start n isLower isRoot ::
      match ps, lo, hi with
      | [], Some l, Some h =>
          records l (start + 12) true false
            ++ records h (start + 12 + slots l) false false
      | _, _, _ => []
      end
  end.

(** The info quad of a record carries the flags the format prescribes. *)
Definition flags_ok (buf : Data) (r : NodeRecord) : Prop :=
  exists flags,
    buf !! (rec_start r + 8)%nat = Some (SlotU flags) /\
    0 <= flags < 2 ^ 32 /\
    Z.testbit flags 31 = childless (rec_node r) /\
    Z.testbit flags 30 = rec_isLower r /\
    Z.testbit flags 29 = rec_isRoot r /\
    Z.land flags (2 ^ 29 - 1) =
      if childless (rec_node r)
      then Z.of_nat (length (primitives (rec_node r))) mod 2 ^ 29
      else 0.

(** The subtree of [n] is recorded in [buf] from slot [start] on, [start]
    is a whole number of quads, the parent field holds the quad index of
    the record that begins at slot [parent], and the child fields of an
    internal node hold the quad indices at which the records of its two
    subtrees begin. *)
Fixpoint addresses_ok (buf : Data) (n : BoundingBox) (start : nat) (parent : option nat)
  : Prop :=
  match n with
  | mkBoundingBox _ _ _ _ _ _ lo hi ps =>
      record_at buf start n /\
      (start mod 4 = 0)%nat /\
      (forall parent_start, parent = Some parent_start ->
         buf !! (start + 11)%nat = Some (SlotU (Z.of_nat parent_start / 4))) /\
      match ps with
      | [] =>
          match lo, hi with
          | Some l, Some h =>
              let lower_start := (start + 12)%nat in
              let higher_start := (lower_start + slots l)%nat in
              buf !! (start + 9)%nat = Some (SlotU (Z.of_nat lower_start / 4)) /\
              buf !! (start + 10)%nat = Some (SlotU (Z.of_nat higher_start / 4)) /\
              addresses_ok buf l lower_start (Some start) /\
              addresses_ok buf h higher_start (Some start)
          | _, _ => False
          end
      | _ :: _ => True
      end
  end.

End Layout.

(** Quads a primitive takes in a buffer: the type-tag quad and the
    payload. *)
Definition record_quads (t : Primitive_t) : nat :=
  match t with SPHERE => 2 | DISC => 3 | TRIANGLE => 4 | CONE => 5 end.

(** The record of a leaf is complete: its two child fields are padding,
    and its primitives follow the three quads of the node, each as
    [StoreIntoBVH] stores it, in the order of the leaf. *)
Definition leaf_record_ok (deref : Handle -> Primitive) (buf : Data) (r : NodeRecord)
  : Prop :=
  primitives (rec_node r) <> [] ->
  buf !! (rec_start r + 9)%nat = Some (SlotF RGBA_PAD) /\
  buf !! (rec_start r + 10)%nat = Some (SlotF RGBA_PAD) /\
  let payload := flat_map (fun h => StoreIntoBVH (deref h) []) (primitives (rec_node r)) in
  take (length payload) (drop (rec_start r + 12) buf) = payload.

(** ** What [Print] is to write for a tree *)

Definition render_value (v : float) : Token := Num (SlotF v).

Definition render_Vec3f (v : Vec3f) : list Token :=
  [render_value (Vec3f.x v); Txt ", "; render_value (Vec3f.y v); Txt ", ";
   render_value (Vec3f.z v)].

(** A primitive of a leaf: its kind, its fields in braces, a comma.  A
    cone is left out: its decoder does not follow its record. *)
Definition render_primitive (p : Primitive) : list Token :=
  match shape p with
  | Sphere Center Radius =>
      [Txt "sphere "; Txt "{ ("] ++ render_Vec3f Center
        ++ [Txt "), "; render_value Radius; Txt " }"; Txt ", "]
  | Disc Center Normal Radius =>
      [Txt "disc "; Txt "{ ("] ++ render_Vec3f Center
        ++ [Txt "), "; render_value Radius; Txt ", ("] ++ render_Vec3f Normal
        ++ [Txt ") }"; Txt ", "]
  | Triangle Vert0 Vert1 Vert2 =>
      [Txt "triangle "; Txt "{ "; Txt "("] ++ render_Vec3f Vert0
        ++ [Txt ")"; Txt ", "; Txt "("] ++ render_Vec3f Vert1
        ++ [Txt ")"; Txt ", "; Txt "("] ++ render_Vec3f Vert2
        ++ [Txt ")"; Txt " }"; Txt ", "]
  | Cone _ _ _ _ _ _ _ _ _ => []
  end.

(** The names of the flags that are set, separated by bars. *)
Definition render_flags (isLower isRoot leaf : bool) : list Token :=
  (if isLower then [Txt "IS_LOWER "] else [])
    ++ (if isRoot then (if isLower then [Txt "| "] else []) ++ [Txt "ROOT "] else [])
    ++ (if leaf then (if isLower || isRoot then [Txt "| "] else []) ++ [Txt "LEAF, "]
        else []).

(** The quad index of a record and the two corners of the box. *)
Definition render_box (pos : nat) (n : BoundingBox) : list Token :=
  [Txt "Node at "; UInt (Z.of_nat pos / RGBA_ELEMS);
   Txt ": ["; render_value (xmin n); Txt "; "; render_value (ymin n); Txt "; ";
   render_value (zmin n); Txt "]<->[";
   render_value (xmax n); Txt "; "; render_value (ymax n); Txt "; ";
   render_value (zmax n); Txt "], "].

Section Rendering.
Variable deref : Handle -> Primitive.

(** The nodes in the order of their records, each with the quad index of
    its record, its box and its flags, then the quad indices of its
    children and of its parent or, for a leaf, the quad index of its
    parent and its primitives.  The arguments are those of [emit]. *)
Fixpoint render (n : BoundingBox) (start : nat) (parentAddr : Z) (isLower isRoot : bool)
  : list Token :=
  match n with
  | mkBoundingBox _ _ _ _ _ _ lo hi ps =>
      let nodeAddr := u32 (Z.of_nat start / RGBA_ELEMS) in
      match ps with
      | [] =>
          let lo_start := (start + 12)%nat in
          let hi_start :=
            (lo_start + match lo with Some c => slots deref c | None => 0 end)%nat in
          render_box start n ++ render_flags isLower isRoot false
            ++ [Txt "lo_child at "; UInt (u32 (Z.of_nat lo_start / RGBA_ELEMS)); Txt ", ";
                Txt "hi_child at "; UInt (u32 (Z.of_nat hi_start / RGBA_ELEMS)); Txt ", ";
                Txt "parent at "; UInt parentAddr; Endl]
            ++ match lo with Some c => render c lo_start nodeAddr true false | None => [] end
            ++ match hi with Some c => render c hi_start nodeAddr false false | None => [] end
      | _ :: _ =>
          render_box start n ++ render_flags isLower isRoot true
            ++ [Txt "parent at "; UInt parentAddr; Txt ", ";
                UInt (Z.of_nat (length ps));
                Txt (if Z.of_nat (length ps) =? 1 then " primitive: " else " primitives: ")]
            ++ flat_map (fun h => render_primitive (deref h)) ps
            ++ [Endl]
      end
  end.

(** What [Print] needs of a node to follow its record: a number of
    primitives that fits the count field, and no cone among them. *)
Definition decodable (n : BoundingBox) : Prop :=
  Z.of_nat (length (primitives n)) < 2 ^ 29 /\
  Forall (fun h => GetType (deref h) <> CONE) (primitives n).

End Rendering.

(** A decoder that reads relative to its position: a run that succeeds on
    a buffer succeeds in the same way wherever the buffer is embedded in a
    longer one, having moved the iterator as far and written the same. *)
Definition framed {A} (m : Printer A) : Prop :=
  forall d i o a c,
    m d {| it := i; os := o |} = Some (a, c) ->
    exists n out,
      c = {| it := i + n; os := o ++ out |} /\
      forall pre post o',
        m (pre ++ d ++ post) {| it := length pre + i; os := o' |}
        = Some (a, {| it := length pre + i + n; os := o' ++ out |}).

(** ** Scenes

    Concrete inputs on which the statements above are exercised.  Handles
    are indices into a list of constructed primitives. *)

(** An integer literal as a [float]. *)
Definition float_of_Z (i : Z) : float :=
  binary_normalize F32.prec F32.emax i 0 false.

Definition unit_sphere_at (cx : Z) : Primitive :=
  Sphere_new (Vec3f.mk (float_of_Z cx) (float_of_Z 0) (float_of_Z 0)) (float_of_Z 1).

Definition heap_of (objects : list Primitive) (h : Handle) : Primitive :=
  nth h objects (unit_sphere_at 0).

Definition vec (vx vy vz : Z) : Vec3f :=
  Vec3f.mk (float_of_Z vx) (float_of_Z vy) (float_of_Z vz).

(** [Cone(Vec3f(cx,0,0), Vec3f(cx,0,1), 1, 1)]: the axis is the unit
    vector along z, of length 1; the radii are equal, so the width
    coefficient and the cosine of the base angle are 0; the axis is
    orthogonal to the first center, so their dot product is 0. *)
Definition upright_cone_at (cx : Z) : Primitive :=
  Cone_box (vec cx 0 0) (vec cx 0 1) (float_of_Z 1) (float_of_Z 1)
           (Cone (vec cx 0 0) (vec cx 0 1) (float_of_Z 1) (float_of_Z 1)
                 (vec 0 0 1) (float_of_Z 1) (float_of_Z 0) (float_of_Z 0) (float_of_Z 0)).

(** One primitive of each kind, in a row along x. *)
Definition row_heap : Handle -> Primitive :=
  heap_of [ unit_sphere_at 0;
            Disc_new (vec 10 0 0) (vec 0 0 1) (float_of_Z 1);
            Triangle_new (vec 19 0 0) (vec 21 0 0) (vec 20 1 0);
            upright_cone_at 30 ].

(** The row without the cone, and the buffer [SetPrimitives] makes of
    it. *)
Definition plain_heap : Handle -> Primitive :=
  heap_of [ unit_sphere_at 0;
            Disc_new (vec 10 0 0) (vec 0 0 1) (float_of_Z 1);
            Triangle_new (vec 19 0 0) (vec 21 0 0) (vec 20 1 0) ].
Definition plain_compiled : Data :=
  match BVH_new plain_heap [0; 1; 2]%nat 1024 2 with
  | Some (bvh, _) =>
      match Compile plain_heap bvh [] with
      | Done compiledTree => compiledTree
      | _ => []
      end
  | None => []
  end.

(** The quad indices [Print] has announced with "Node at". *)
Fixpoint node_addresses (out : list Token) : list Z :=
  match out with
  | [] => []
  | t :: rest =>
      match t, rest with
      | Txt s, UInt n :: _ =>
          if String.eqb s "Node at " then n :: node_addresses rest
          else node_addresses rest
      | _, _ => node_addresses rest
      end
  end.

(** Three coincident unit spheres. *)
Definition coincident_heap : Handle -> Primitive :=
  heap_of [unit_sphere_at 0; unit_sphere_at 0; unit_sphere_at 0].

(** One unit sphere centred at x = [1e31f], beyond the sentinel
    [99.0e+29f]. *)
Definition f_1e31 : float := S754_finite false 16543612 79.
Definition far_sphere : Primitive :=
  Sphere_new (Vec3f.mk f_1e31 (float_of_Z 0) (float_of_Z 0)) (float_of_Z 1).
Definition far_heap : Handle -> Primitive := heap_of [far_sphere].

(** The far sphere beside two unit spheres near the origin. *)
Definition mixed_heap : Handle -> Primitive :=
  heap_of [far_sphere; unit_sphere_at 0; unit_sphere_at 10].

(** A sphere of infinite radius centred at x = +infinity: its [Xmin] is
    infinity minus infinity, a NaN. *)
Definition lost_sphere : Primitive :=
  Sphere_new (Vec3f.mk (S754_infinity false) (float_of_Z 0) (float_of_Z 0))
             (S754_infinity false).
Definition lost_heap : Handle -> Primitive := heap_of [lost_sphere].

(** The tree and the buffer [SetPrimitives] makes of the row. *)
Definition row_bvh : BoundingVolumesHierarchy :=
  match BVH_new row_heap [3; 1; 0; 2]%nat 1024 2 with
  | Some (bvh, _) => bvh
  | None => mkBVH None
  end.
Definition row_compiled : Data :=
  match Compile row_heap row_bvh [] with
  | Done compiledTree => compiledTree
  | _ => []
  end.

(** A second compilation, appended to the buffer of the first. *)
Definition row_compiled_twice : Data :=
  match Compile row_heap row_bvh row_compiled with
  | Done compiledTree => compiledTree
  | _ => []
  end.

(** The tree [SetPrimitives] makes of the row without the cone. *)
Definition plain_bvh : BoundingVolumesHierarchy :=
  match BVH_new plain_heap [0; 1; 2]%nat 1024 2 with
  | Some (bvh, _) => bvh
  | None => mkBVH None
  end.

(** The scene of [InitBox] ([scenes.cpp]).  The literals [0.3f], [0.5f],
    [0.35f], [0.2f] and [-0.7f] rounded to binary32; the [double] literal
    [-0.7] of the cone's first center converts to the same value as
    [-0.7f]. *)
Definition f_0_3 : float := S754_finite false 10066330 (-25).
Definition f_0_5 : float := S754_finite false 8388608 (-24).
Definition f_0_35 : float := S754_finite false 11744051 (-25).
Definition f_0_2 : float := S754_finite false 13421773 (-26).
Definition f_m0_7 : float := S754_finite true 11744051 (-24).

Definition InitBox : list Primitive :=
  [ Sphere_new (Vec3f.mk (float_of_Z 0) (float_of_Z 0) f_0_3) f_0_3;
    Disc_new (vec 0 0 0) (vec 0 0 1) (float_of_Z 6);
    Triangle_new (vec 1 (-1) 0) (vec 1 1 0) (vec 1 1 1);
    Triangle_new (vec 1 (-1) 0) (vec 1 1 1) (vec 1 (-1) 1);
    Cone_new (Vec3f.mk f_0_5 f_m0_7 (float_of_Z 0)) (Vec3f.mk f_0_5 f_m0_7 f_0_35)
             f_0_2 f_0_2;
    Triangle_new (vec 1 1 0) (vec 1 1 1) (vec (-1) 1 1);
    Triangle_new (vec (-1) 1 1) (vec (-1) 1 0) (vec 1 1 0);
    Triangle_new (vec (-1) (-1) 0) (vec (-1) 1 0) (vec (-1) 1 1);
    Triangle_new (vec (-1) (-1) 0) (vec (-1) 1 1) (vec (-1) (-1) 1) ].

Definition InitBox_heap : Handle -> Primitive := heap_of InitBox.

(** The buffer [SetPrimitives] makes of it. *)
Definition InitBox_compiled : Data :=
  match SetPrimitives InitBox_heap (seq 0 9) with
  | Some (_, _, Done compiledTree) => compiledTree
  | _ => []
  end.

(** * Properties *)

(** ** Floating-point comparisons *)

Ltac cmp_cases :=
  repeat match goal with
  | |- context [Z.compare ?a ?b] => destruct (Z.compare_spec a b)
  | H : context [Z.compare ?a ?b] |- _ => destruct (Z.compare_spec a b)
  | |- context [Pos.compare_cont Eq ?a ?b] =>
      change (Pos.compare_cont Eq a b) with (Pos.compare a b);
      destruct (Pos.compare_spec a b)
  | H : context [Pos.compare_cont Eq ?a ?b] |- _ =>
      change (Pos.compare_cont Eq a b) with (Pos.compare a b) in H;
      destruct (Pos.compare_spec a b)
  end.

Ltac float_cases a := destruct a as [[]|[]| |[] ? ?].

Ltac float_order :=
  unfold flt, fle, fgt, fge, feq, SFltb, SFleb, SFeqb, SFcompare, is_nan in *;
  simpl in *; try congruence;
  cmp_cases; simpl in *; subst; try congruence; try lia.

Lemma fgt_flt a b : fgt a b = flt b a.
Proof. float_cases a; float_cases b; float_order. Qed.

Lemma flt_irrefl a : flt a a = false.
Proof. float_cases a; float_order. Qed.

Lemma flt_trans a b c : flt a b = true -> flt b c = true -> flt a c = true.
Proof. float_cases a; float_cases b; float_cases c; intros; float_order. Qed.

Lemma fle_of_not_flt a b :
  is_nan a = false -> is_nan b = false -> flt a b = false -> fle b a = true.
Proof. float_cases a; float_cases b; intros; float_order. Qed.

Lemma feq_of_fle_not_flt a b : fle a b = true -> flt a b = false -> feq b a = true.
Proof. float_cases a; float_cases b; intros; float_order. Qed.

Lemma feq_refl a : is_nan a = false -> feq a a = true.
Proof. float_cases a; intros; float_order. Qed.

Lemma fle_not_nan_l a b : fle a b = true -> is_nan a = false.
Proof. float_cases a; float_cases b; intros; float_order. Qed.

Lemma fle_not_nan_r a b : fle a b = true -> is_nan b = false.
Proof. float_cases a; float_cases b; intros; float_order. Qed.

Lemma flt_not_nan_l a b : flt a b = true -> is_nan a = false.
Proof. float_cases a; float_cases b; intros; float_order. Qed.

Lemma flt_not_nan_r a b : flt a b = true -> is_nan b = false.
Proof. float_cases a; float_cases b; intros; float_order. Qed.

Lemma feq_sym a b : feq a b = true -> feq b a = true.
Proof. float_cases a; float_cases b; intros; float_order. Qed.

Lemma feq_of_fle_not_flt_r a b : fle a b = true -> flt a b = false -> feq a b = true.
Proof. intros. apply feq_sym, feq_of_fle_not_flt; assumption. Qed.

(** ** Running minimum and maximum *)

Section Bounds.
Variable f : Handle -> float.

Lemma run_min_cons h l acc :
  run_min f (h :: l) acc = run_min f l (if flt (f h) acc then f h else acc).
Proof. reflexivity. Qed.

Lemma run_max_cons h l acc :
  run_max f (h :: l) acc = run_max f l (if fgt (f h) acc then f h else acc).
Proof. reflexivity. Qed.

Lemma run_min_below l : forall acc x,
  flt x (run_min f l acc) = true -> flt x acc = true.
Proof.
  induction l as [|h l IH]; intros acc x Hx; [exact Hx|].
  rewrite run_min_cons in Hx. apply IH in Hx.
  destruct (flt (f h) acc) eqn:E; [|exact Hx].
  eapply flt_trans; eassumption.
Qed.

Lemma run_min_bound l : forall acc h,
  In h l -> flt (f h) (run_min f l acc) = false.
Proof.
  induction l as [|h0 l IH]; intros acc h Hin; [destruct Hin|].
  rewrite run_min_cons. destruct Hin as [->|Hin]; [|apply IH, Hin].
  destruct (flt (f h) (run_min f l (if flt (f h) acc then f h else acc))) eqn:E; [|reflexivity].
  apply run_min_below in E. destruct (flt (f h) acc) eqn:E'; [|congruence].
  rewrite flt_irrefl in E. discriminate.
Qed.

Lemma run_min_cases l : forall acc,
  run_min f l acc = acc \/ exists h, In h l /\ run_min f l acc = f h.
Proof.
  induction l as [|h0 l IH]; intros acc; [left; reflexivity|].
  rewrite run_min_cons.
  destruct (IH (if flt (f h0) acc then f h0 else acc)) as [E|(h & Hin & E)].
  - rewrite E.
    destruct (flt (f h0) acc); [right; exists h0; simpl; auto|left; reflexivity].
  - right. exists h. simpl; auto.
Qed.

Lemma run_min_not_nan l : forall acc,
  is_nan acc = false -> is_nan (run_min f l acc) = false.
Proof.
  induction l as [|h l IH]; intros acc Hacc; [exact Hacc|].
  rewrite run_min_cons. apply IH. destruct (flt (f h) acc) eqn:E; [|exact Hacc].
  eapply flt_not_nan_l, E.
Qed.

Lemma run_min_le_init l : forall acc,
  is_nan acc = false -> fle (run_min f l acc) acc = true.
Proof.
  intros acc Hacc. apply fle_of_not_flt; [exact Hacc|apply run_min_not_nan, Hacc|].
  destruct (flt acc (run_min f l acc)) eqn:E; [|reflexivity].
  apply run_min_below in E. rewrite flt_irrefl in E. discriminate.
Qed.

Lemma run_max_above l : forall acc x,
  flt (run_max f l acc) x = true -> flt acc x = true.
Proof.
  induction l as [|h l IH]; intros acc x Hx; [exact Hx|].
  rewrite run_max_cons in Hx. apply IH in Hx. rewrite fgt_flt in Hx.
  destruct (flt acc (f h)) eqn:E; [|exact Hx].
  eapply flt_trans; eassumption.
Qed.

Lemma run_max_bound l : forall acc h,
  In h l -> flt (run_max f l acc) (f h) = false.
Proof.
  induction l as [|h0 l IH]; intros acc h Hin; [destruct Hin|].
  rewrite run_max_cons. destruct Hin as [->|Hin]; [|apply IH, Hin].
  destruct (flt (run_max f l (if fgt (f h) acc then f h else acc)) (f h)) eqn:E; [|reflexivity].
  apply run_max_above in E. rewrite fgt_flt in E.
  destruct (flt acc (f h)) eqn:E'; [|congruence].
  rewrite flt_irrefl in E. discriminate.
Qed.

Lemma run_max_cases l : forall acc,
  run_max f l acc = acc \/ exists h, In h l /\ run_max f l acc = f h.
Proof.
  induction l as [|h0 l IH]; intros acc; [left; reflexivity|].
  rewrite run_max_cons.
  destruct (IH (if fgt (f h0) acc then f h0 else acc)) as [E|(h & Hin & E)].
  - rewrite E.
    destruct (fgt (f h0) acc); [right; exists h0; simpl; auto|left; reflexivity].
  - right. exists h. simpl; auto.
Qed.

Lemma run_max_not_nan l : forall acc,
  is_nan acc = false -> is_nan (run_max f l acc) = false.
Proof.
  induction l as [|h l IH]; intros acc Hacc; [exact Hacc|].
  rewrite run_max_cons. apply IH. rewrite fgt_flt.
  destruct (flt acc (f h)) eqn:E; [|exact Hacc].
  eapply flt_not_nan_r, E.
Qed.

Lemma run_max_ge_init l : forall acc,
  is_nan acc = false -> fle acc (run_max f l acc) = true.
Proof.
  intros acc Hacc. apply fle_of_not_flt; [apply run_max_not_nan, Hacc|exact Hacc|].
  destruct (flt (run_max f l acc) acc) eqn:E; [|reflexivity].
  apply run_max_above in E. rewrite flt_irrefl in E. discriminate.
Qed.

End Bounds.

(** ** Induction over trees *)

Lemma BoundingBox_tree_ind (P : BoundingBox -> Prop) :
  (forall a b c d e f lo hi ps,
      (forall n, lo = Some n -> P n) ->
      (forall n, hi = Some n -> P n) ->
      P (mkBoundingBox a b c d e f lo hi ps)) ->
  forall n, P n.
Proof.
  intros step. fix IH 1. intros [a b c d e f lo hi ps].
  apply step.
  - intros n Hn. destruct lo as [l|]; [|discriminate].
    injection Hn as <-. apply IH.
  - intros n Hn. destruct hi as [h|]; [|discriminate].
    injection Hn as <-. apply IH.
Qed.

(** ** Ranges of a vector *)

Lemma range_frame {A} (pre mid post : list A) :
  range (pre ++ mid ++ post) (length pre) (length pre + length mid) = mid.
Proof.
  unfold range. rewrite drop_app_length.
  replace (length pre + length mid - length pre)%nat with (length mid) by lia.
  apply take_app_length.
Qed.

Lemma take_frame {A} (pre rest : list A) : take (length pre) (pre ++ rest) = pre.
Proof. apply take_app_length. Qed.

Lemma drop_frame {A} (pre mid post : list A) :
  drop (length pre + length mid) (pre ++ mid ++ post) = post.
Proof.
  rewrite app_assoc, <- length_app. apply drop_app_length.
Qed.

Lemma avoid_degenerate_bounds from to i :
  (from <= i <= to)%nat ->
  (from <= avoid_degenerate from to i <= to)%nat /\
  ((2 < to - from)%nat -> (from < avoid_degenerate from to i < to)%nat).
Proof.
  intros Hi. unfold avoid_degenerate.
  destruct (Nat.ltb_spec 2 (to - from)); [|lia].
  destruct (Nat.eqb_spec i from); [lia|].
  destruct (Nat.eqb_spec i to); lia.
Qed.

Section BuilderFacts.
Variable deref : Handle -> Primitive.
Context {sorter : StdSort}.

Lemma Extent_fold l : forall e,
  fold_left (Extent_step deref) l e =
  {| xminall := run_min (fun h => GetXmin (deref h)) l (xminall e);
     xmaxall := run_max (fun h => GetXmax (deref h)) l (xmaxall e);
     yminall := run_min (fun h => GetYmin (deref h)) l (yminall e);
     ymaxall := run_max (fun h => GetYmax (deref h)) l (ymaxall e);
     zminall := run_min (fun h => GetZmin (deref h)) l (zminall e);
     zmaxall := run_max (fun h => GetZmax (deref h)) l (zmaxall e) |}.
Proof.
  induction l as [|h l IH]; intros e; [destruct e; reflexivity|].
  simpl. rewrite IH. reflexivity.
Qed.

Lemma scan_bounds a m r rest : forall i,
  exists k, (k <= length rest)%nat /\ scan deref a m r rest i = (i + k)%nat.
Proof.
  induction rest as [|h rest IH]; intros i; simpl.
  - exists 0%nat. lia.
  - destruct (not_above_middle deref a m r h).
    + destruct (IH (S i)) as (k & Hk & ->). exists (S k). lia.
    + exists 0%nat. lia.
Qed.

Lemma split_along_frame a m r pre mid post :
  exists mid' k,
    split_along deref a m r (pre ++ mid ++ post) (length pre) (length pre + length mid)
    = (pre ++ mid' ++ post, (length pre + k)%nat)
    /\ Permutation mid' mid /\ (k <= length mid)%nat.
Proof.
  unfold split_along. rewrite range_frame, take_frame, drop_frame.
  set (sorted := std_sort (center_less deref a) mid).
  assert (Hperm : Permutation sorted mid) by apply std_sort_Permutation.
  assert (Hlen : length sorted = length mid) by (apply Permutation_length, Hperm).
  rewrite <- Hlen, range_frame.
  destruct (scan_bounds a m r sorted (length pre)) as (k & Hk & ->).
  exists sorted, k. split; [reflexivity|]. split; [exact Hperm|lia].
Qed.

Lemma sort_and_scan_frame all pre mid post :
  exists mid' k,
    sort_and_scan deref all (pre ++ mid ++ post) (length pre) (length pre + length mid)
    = (pre ++ mid' ++ post, (length pre + k)%nat)
    /\ Permutation mid' mid /\ (k <= length mid)%nat.
Proof.
  unfold sort_and_scan.
  repeat match goal with
         | |- context [if ?c then _ else _] => destruct c
         end; try apply split_along_frame.
  exists mid, 0%nat. rewrite Nat.add_0_r. split; [reflexivity|].
  split; [reflexivity|lia].
Qed.

Lemma Subdivide_unfold fuel primitives from to currentLevel maxNumLevels minPrimitivesPerNode :
  Subdivide deref (S fuel) primitives from to currentLevel maxNumLevels minPrimitivesPerNode =
  let all := fold_left (Extent_step deref) (range primitives from to) Extent_init in
  let node lower higher prims :=
    {| xmin := xminall all; xmax := xmaxall all;
       ymin := yminall all; ymax := ymaxall all;
       zmin := zminall all; zmax := zmaxall all;
       lower := lower; higher := higher; primitives := prims |} in
  if (Z.of_nat (to - from) <=? minPrimitivesPerNode)
     || (currentLevel =? u32 (maxNumLevels - 1))
  then Some (node None None (range primitives from to), primitives)
  else
    let '(primitives, subdivisionIndex) := sort_and_scan deref all primitives from to in
    let subdivisionIndex := avoid_degenerate from to subdivisionIndex in
    match Subdivide deref fuel primitives from subdivisionIndex
                    (u32 (currentLevel + 1)) maxNumLevels minPrimitivesPerNode with
    | None => None
    | Some (lo, primitives) =>
        match Subdivide deref fuel primitives subdivisionIndex to
                        (u32 (currentLevel + 1)) maxNumLevels minPrimitivesPerNode with
        | None => None
        | Some (hi, primitives) =>
            Some (node (Some lo) (Some hi) [], primitives)
        end
    end.
Proof. reflexivity. Qed.

Lemma Subdivide_frame maxNumLevels minPrimitivesPerNode fuel :
  forall pre mid post currentLevel node v',
    Subdivide deref fuel (pre ++ mid ++ post) (length pre) (length pre + length mid)
              currentLevel maxNumLevels minPrimitivesPerNode = Some (node, v') ->
    exists mid',
      v' = pre ++ mid' ++ post /\ Permutation mid' mid /\ built_over deref node mid' /\
      (2 <= minPrimitivesPerNode -> mid <> [] ->
       every_node (fun n => well_formed_node n = true) node).
Proof.
  induction fuel as [|fuel IH]; intros pre mid post cur node v' H; [discriminate|].
  rewrite Subdivide_unfold in H. cbv zeta in H.
  rewrite range_frame in H.
  destruct ((Z.of_nat _ <=? _) || _) eqn:Htest in H.
  - injection H as <- <-. exists mid. split; [reflexivity|]. split; [reflexivity|].
    split.
    + simpl. split; [|reflexivity].
      exists mid. split; [reflexivity|].
      destruct (fold_left (Extent_step deref) mid Extent_init); reflexivity.
    + intros _ Hne. constructor; [|constructor].
      destruct mid; [congruence|reflexivity].
  - apply orb_false_iff in Htest. destruct Htest as [Hsize _].
    apply Z.leb_gt in Hsize.
    destruct (sort_and_scan_frame (fold_left (Extent_step deref) mid Extent_init) pre mid post)
      as (s & k & Hs & Hperm & Hk).
    rewrite Hs in H.
    assert (Hlen : length s = length mid) by (apply Permutation_length, Hperm).
    destruct (avoid_degenerate_bounds (length pre) (length pre + length mid) (length pre + k))
      as [Hb Hstrict]; [lia|].
    set (i := avoid_degenerate (length pre) (length pre + length mid) (length pre + k)) in *.
    set (A := take (i - length pre) s). set (B := drop (i - length pre) s).
    assert (HA : length A = (i - length pre)%nat) by (unfold A; rewrite length_take; lia).
    assert (Hsplit : s = A ++ B) by (unfold A, B; symmetry; apply take_drop).
    assert (HB : length B = (length pre + length mid - i)%nat)
      by (unfold B; rewrite length_drop; lia).
    replace i with (length pre + length A)%nat in H by lia.
    rewrite Hsplit, <- (app_assoc A B post) in H.
    destruct (Subdivide deref fuel (pre ++ A ++ B ++ post) _ _ _ _ _) as [[lo v2]|] eqn:Hlo in H;
      [|discriminate].
    apply IH in Hlo. destruct Hlo as (A' & -> & HpA & HbA & HwA).
    assert (HlenA : length A' = length A) by (apply Permutation_length, HpA).
    rewrite (app_assoc pre A' (B ++ post)) in H.
    replace (length pre + length A)%nat with (length (pre ++ A')) in H
      by (rewrite length_app; lia).
    replace (length pre + length mid)%nat with (length (pre ++ A') + length B)%nat in H
      by (rewrite length_app; lia).
    destruct (Subdivide deref fuel ((pre ++ A') ++ B ++ post) _ _ _ _ _) as [[hi v3]|] eqn:Hhi in H;
      [|discriminate].
    apply IH in Hhi. destruct Hhi as (B' & -> & HpB & HbB & HwB).
    injection H as <- <-.
    exists (A' ++ B'). split; [rewrite <- !app_assoc; reflexivity|].
    split; [rewrite Hsplit in Hperm; rewrite HpA, HpB; exact Hperm|].
    split.
    + simpl. split.
      * exists mid. split.
        -- rewrite HpA, HpB, <- Hsplit. symmetry. exact Hperm.
        -- destruct (fold_left (Extent_step deref) mid Extent_init); reflexivity.
      * split; [reflexivity|]. exists A', B'. auto.
    + intros Hmin _.
      assert (Hin : (length pre < i < length pre + length mid)%nat) by (apply Hstrict; lia).
      unfold every_node. cbn [nodes]. constructor; [reflexivity|].
      apply Forall_app. split.
      * apply HwA; [exact Hmin|]. intros ->. simpl in HA. lia.
      * apply HwB; [exact Hmin|]. intros ->. simpl in HB. lia.
Qed.

End BuilderFacts.

(** ** Levels and termination *)

Ltac u32_arith :=
  unfold u32 in *; change (2 ^ 32) with 4294967296 in *;
  Z.div_mod_to_equations; lia.

Lemma levels_left_next currentLevel maxNumLevels :
  0 <= currentLevel < 2 ^ 32 ->
  (currentLevel =? u32 (maxNumLevels - 1)) = false ->
  0 <= u32 (currentLevel + 1) < 2 ^ 32 /\
  levels_left currentLevel maxNumLevels = S (levels_left (u32 (currentLevel + 1)) maxNumLevels).
Proof.
  intros Hc Hne. apply Z.eqb_neq in Hne. unfold levels_left.
  split; [u32_arith|]. f_equal.
  rewrite <- Z2Nat.inj_succ by u32_arith. f_equal. u32_arith.
Qed.

Section Termination.
Variable deref : Handle -> Primitive.
Context {sorter : StdSort}.
Variables maxNumLevels minPrimitivesPerNode : Z.

Lemma Subdivide_total fuel : forall v from to currentLevel,
  0 <= currentLevel < 2 ^ 32 ->
  (levels_left currentLevel maxNumLevels <= fuel)%nat ->
  exists r, Subdivide deref fuel v from to currentLevel maxNumLevels minPrimitivesPerNode = Some r.
Proof.
  induction fuel as [|fuel IH]; intros v from to cur Hc Hfuel;
    [unfold levels_left in Hfuel; lia|].
  rewrite Subdivide_unfold. cbv zeta.
  destruct (Z.of_nat (to - from) <=? minPrimitivesPerNode); simpl; [eauto|].
  destruct (cur =? u32 (maxNumLevels - 1)) eqn:E; [eauto|].
  destruct (levels_left_next cur maxNumLevels Hc E) as [Hc' Hl].
  destruct (sort_and_scan deref _ v from to) as [v1 i].
  destruct (IH v1 from (avoid_degenerate from to i) _ Hc') as [[lo v2] ->]; [lia|].
  destruct (IH v2 (avoid_degenerate from to i) to _ Hc') as [[hi v3] ->]; [lia|].
  eauto.
Qed.

Lemma Subdivide_fuel_mono fuel : forall fuel' v from to currentLevel r,
  Subdivide deref fuel v from to currentLevel maxNumLevels minPrimitivesPerNode = Some r ->
  (fuel <= fuel')%nat ->
  Subdivide deref fuel' v from to currentLevel maxNumLevels minPrimitivesPerNode = Some r.
Proof.
  induction fuel as [|fuel IH]; intros fuel' v from to cur r H Hle; [discriminate|].
  destruct fuel' as [|fuel']; [lia|].
  rewrite Subdivide_unfold in *. cbv zeta in *.
  destruct (_ || _); [exact H|].
  destruct (sort_and_scan deref _ v from to) as [v1 i].
  destruct (Subdivide deref fuel v1 _ _ _ _ _) as [[lo v2]|] eqn:Hlo; [|discriminate].
  rewrite (IH fuel' _ _ _ _ _ Hlo) by lia.
  destruct (Subdivide deref fuel v2 _ _ _ _ _) as [[hi v3]|] eqn:Hhi; [|discriminate].
  rewrite (IH fuel' _ _ _ _ _ Hhi) by lia.
  exact H.
Qed.

Lemma Subdivide_at_level fuel : forall v from to currentLevel node v',
  1 <= maxNumLevels <= 2 ^ 32 ->
  0 <= currentLevel <= maxNumLevels - 1 ->
  Subdivide deref fuel v from to currentLevel maxNumLevels minPrimitivesPerNode
  = Some (node, v') ->
  at_level maxNumLevels currentLevel node.
Proof.
  induction fuel as [|fuel IH]; intros v from to cur node v' Hm Hc H; [discriminate|].
  rewrite Subdivide_unfold in H. cbv zeta in H.
  destruct (Z.of_nat (to - from) <=? minPrimitivesPerNode); simpl in H.
  { injection H as <- <-. simpl. repeat split; auto; lia. }
  destruct (cur =? u32 (maxNumLevels - 1)) eqn:E.
  { injection H as <- <-. simpl. repeat split; auto; lia. }
  apply Z.eqb_neq in E.
  assert (Hne : cur <> maxNumLevels - 1) by (intros ->; apply E; u32_arith).
  assert (Hnext : u32 (cur + 1) = cur + 1) by u32_arith.
  rewrite Hnext in H.
  destruct (sort_and_scan deref _ v from to) as [v1 i].
  destruct (Subdivide deref fuel v1 _ _ _ _ _) as [[lo v2]|] eqn:Hlo; [|discriminate].
  destruct (Subdivide deref fuel v2 _ _ _ _ _) as [[hi v3]|] eqn:Hhi; [|discriminate].
  injection H as <- <-. simpl.
  split; [lia|]. split; [intros; lia|].
  split; eapply IH; eauto; lia.
Qed.

End Termination.

Lemma at_level_depth maxNumLevels : forall n k,
  at_level maxNumLevels k n -> (depth n <= Z.to_nat (maxNumLevels - k))%nat.
Proof.
  induction n as [a b c d e f lo hi ps IHlo IHhi] using BoundingBox_tree_ind.
  intros k (Hk & _ & Hlo & Hhi). simpl.
  assert (Hl : (match lo with Some c => depth c | None => 0 end
                <= Z.to_nat (maxNumLevels - (k + 1)))%nat).
  { destruct lo as [l|]; [|lia]. apply (IHlo l eq_refl), Hlo. }
  assert (Hh : (match hi with Some c => depth c | None => 0 end
                <= Z.to_nat (maxNumLevels - (k + 1)))%nat).
  { destruct hi as [h|]; [|lia]. apply (IHhi h eq_refl), Hhi. }
  lia.
Qed.

(** ** Leaves *)

Section LeafFacts.
Variable deref : Handle -> Primitive.

Lemma built_over_leaves : forall n l, built_over deref n l -> concat (leaves n) = l.
Proof.
  induction n as [a b c d e f lo hi ps IHlo IHhi] using BoundingBox_tree_ind.
  intros l [_ H]. destruct lo as [nl|], hi as [nh|]; simpl in *; try contradiction.
  - destruct H as (_ & l1 & l2 & -> & H1 & H2).
    rewrite concat_app, (IHlo nl eq_refl l1 H1), (IHhi nh eq_refl l2 H2). reflexivity.
  - subst. apply app_nil_r.
Qed.

(** In a built tree only childless nodes hold primitives. *)
Lemma built_over_primitives : forall n l,
  built_over deref n l ->
  every_node (fun m => primitives m <> [] -> childless m = true) n.
Proof.
  induction n as [a b c d e f lo hi ps IHlo IHhi] using BoundingBox_tree_ind.
  intros l [_ H]. unfold every_node. simpl.
  destruct lo as [nl|], hi as [nh|]; simpl in *; try contradiction.
  - destruct H as (-> & l1 & l2 & -> & H1 & H2).
    constructor; [intros Hne; exfalso; apply Hne; reflexivity|].
    apply Forall_app. split; [eapply (IHlo nl eq_refl); eauto|eapply (IHhi nh eq_refl); eauto].
  - constructor; [reflexivity|constructor].
Qed.

End LeafFacts.

Lemma concat_lookup_In {A} (ls : list (list A)) (x : A) :
  In x (concat ls) -> exists i l, ls !! i = Some l /\ In x l.
Proof.
  induction ls as [|l ls IH]; simpl; [contradiction|].
  intros H. apply in_app_or in H. destruct H as [H|H].
  - exists 0%nat, l. auto.
  - destruct (IH H) as (i & l' & Hi & Hin). exists (S i), l'. auto.
Qed.

Lemma lookup_In_concat {A} (ls : list (list A)) i l (x : A) :
  ls !! i = Some l -> In x l -> In x (concat ls).
Proof.
  revert i. induction ls as [|l0 ls IH]; intros [|i] Hi Hin; simpl in *; try discriminate.
  - injection Hi as ->. apply in_or_app. auto.
  - apply in_or_app. right. eapply IH; eauto.
Qed.

Lemma concat_NoDup_unique {A} (ls : list (list A)) :
  List.NoDup (concat ls) ->
  forall i j a b (x : A),
    ls !! i = Some a -> ls !! j = Some b -> In x a -> In x b -> i = j.
Proof.
  induction ls as [|l ls IH]; intros Hnd i j a b x Hi Hj Ha Hb; [destruct i; discriminate|].
  simpl in Hnd. apply NoDup_ListNoDup, NoDup_app in Hnd. destruct Hnd as (_ & Hdisj & Hnd).
  destruct i as [|i], j as [|j]; simpl in *; trivial.
  - injection Hi as ->. exfalso. apply (Hdisj x); apply list_elem_of_In; auto.
    eapply lookup_In_concat; eauto.
  - injection Hj as ->. exfalso. apply (Hdisj x); apply list_elem_of_In; auto.
    eapply lookup_In_concat; eauto.
  - f_equal. eapply IH; eauto. apply NoDup_ListNoDup, Hnd.
Qed.

(** ** The constructor *)

Section Constructor.
Variable deref : Handle -> Primitive.
Context {sorter : StdSort}.

Lemma zero_is_level : 0 <= 0 < 2 ^ 32.
Proof. change (2 ^ 32) with 4294967296. lia. Qed.

(** The constructor always returns; its tree is built over the final
    contents of the vector, which are a reordering of the initial ones. *)
Lemma BVH_new_built primitives maxNumLevels minPrimitivesPerNode :
  exists root primitives',
    BVH_new deref primitives maxNumLevels minPrimitivesPerNode
    = Some (mkBVH (Some root), primitives')
    /\ Permutation primitives' primitives
    /\ built_over deref root primitives'.
Proof.
  unfold BVH_new.
  destruct (Subdivide_total deref maxNumLevels minPrimitivesPerNode
              (levels_left 0 maxNumLevels) primitives 0%nat (length primitives) 0
              zero_is_level (le_n _)) as [[root v'] H].
  rewrite H. exists root, v'. split; [reflexivity|].
  pose proof (Subdivide_frame deref maxNumLevels minPrimitivesPerNode
                (levels_left 0 maxNumLevels) [] primitives [] 0 root v') as F.
  simpl in F. rewrite app_nil_r in F.
  destruct (F H) as (mid' & -> & Hperm & Hbuilt & _).
  rewrite app_nil_r. auto.
Qed.

(** With [minPrimitivesPerNode >= 2] and a non-empty input no range is
    ever empty, and every node of the tree is a leaf or an internal
    node. *)
Lemma BVH_new_well_formed primitives maxNumLevels minPrimitivesPerNode :
  2 <= minPrimitivesPerNode ->
  primitives <> [] ->
  exists root primitives',
    BVH_new deref primitives maxNumLevels minPrimitivesPerNode
    = Some (mkBVH (Some root), primitives')
    /\ every_node (fun n => well_formed_node n = true) root.
Proof.
  intros Hmin Hne. unfold BVH_new.
  destruct (Subdivide_total deref maxNumLevels minPrimitivesPerNode
              (levels_left 0 maxNumLevels) primitives 0%nat (length primitives) 0
              zero_is_level (le_n _)) as [[root v'] H].
  rewrite H. exists root, v'. split; [reflexivity|].
  pose proof (Subdivide_frame deref maxNumLevels minPrimitivesPerNode
                (levels_left 0 maxNumLevels) [] primitives [] 0 root v') as F.
  simpl in F. rewrite app_nil_r in F.
  destruct (F H) as (mid' & _ & _ & _ & Hwf). auto.
Qed.

(** C9. Construction leaves in the caller's vector exactly the handles it
    held before, each as often as before: the vector is permuted, nothing
    is inserted, removed or duplicated. *)
Theorem BVH_new_permutes_primitives primitives maxNumLevels minPrimitivesPerNode :
  exists bvh primitives',
    BVH_new deref primitives maxNumLevels minPrimitivesPerNode = Some (bvh, primitives')
    /\ Permutation primitives' primitives.
Proof.
  destruct (BVH_new_built primitives maxNumLevels minPrimitivesPerNode)
    as (root & v' & H & Hperm & _).
  eauto.
Qed.

(** C6. In the tree the constructor builds, the lengths of the leaves'
    primitive lists add up to the number of input primitives, the leaves
    together hold the input handles (each as often as the input does),
    and when the input handles are pairwise distinct every one of them
    lies in exactly one leaf. *)
Theorem BVH_new_leaf_conservation primitives maxNumLevels minPrimitivesPerNode :
  exists root primitives',
    BVH_new deref primitives maxNumLevels minPrimitivesPerNode
    = Some (mkBVH (Some root), primitives')
    /\ list_sum (map (@length Handle) (leaves root)) = length primitives
    /\ Permutation (concat (leaves root)) primitives
    /\ (List.NoDup primitives ->
        forall h, In h primitives ->
          exists i, (exists l, leaves root !! i = Some l /\ In h l)
                    /\ forall j l', leaves root !! j = Some l' -> In h l' -> j = i).
Proof.
  destruct (BVH_new_built primitives maxNumLevels minPrimitivesPerNode)
    as (root & v' & H & Hperm & Hbuilt).
  exists root, v'. split; [exact H|].
  pose proof (built_over_leaves deref root v' Hbuilt) as Hleaves.
  split; [rewrite <- length_concat, Hleaves; apply Permutation_length, Hperm|].
  split; [rewrite Hleaves; exact Hperm|].
  intros Hnd h Hin.
  assert (Hnd' : List.NoDup (concat (leaves root))).
  { rewrite Hleaves. eapply Permutation_NoDup; [symmetry; exact Hperm|exact Hnd]. }
  assert (Hin' : In h (concat (leaves root))).
  { rewrite Hleaves. eapply Permutation_in; [symmetry; exact Hperm|exact Hin]. }
  destruct (concat_lookup_In _ _ Hin') as (i & l & Hi & Hl).
  exists i. split; [eauto|].
  intros j l' Hj Hl'. eapply concat_NoDup_unique; eauto.
Qed.

(** C7. For [maxNumLevels >= 1], [minPrimitivesPerNode >= 1] and a
    non-empty input, [Subdivide] returns, with any recursion budget of at
    least [maxNumLevels] calls; in its tree the root is on level 0, every
    child one level below its parent, no node below level
    [maxNumLevels - 1] and every node on that level a leaf, so the tree is
    at most [maxNumLevels] levels deep. *)
Theorem Subdivide_terminates primitives maxNumLevels minPrimitivesPerNode :
  1 <= maxNumLevels < 2 ^ 32 ->
  1 <= minPrimitivesPerNode ->
  primitives <> [] ->
  exists root primitives',
    (forall fuel, (Z.to_nat maxNumLevels <= fuel)%nat ->
       Subdivide deref fuel primitives 0 (length primitives) 0
                 maxNumLevels minPrimitivesPerNode = Some (root, primitives'))
    /\ BVH_new deref primitives maxNumLevels minPrimitivesPerNode
       = Some (mkBVH (Some root), primitives')
    /\ at_level maxNumLevels 0 root
    /\ (depth root <= Z.to_nat maxNumLevels)%nat.
Proof.
  intros Hmax _ _.
  assert (Hfuel : levels_left 0 maxNumLevels = Z.to_nat maxNumLevels).
  { unfold levels_left. rewrite <- Z2Nat.inj_succ by u32_arith. f_equal. u32_arith. }
  destruct (Subdivide_total deref maxNumLevels minPrimitivesPerNode
              (levels_left 0 maxNumLevels) primitives 0%nat (length primitives) 0
              zero_is_level (le_n _)) as [[root v'] H].
  exists root, v'.
  assert (Hlevel : at_level maxNumLevels 0 root).
  { eapply Subdivide_at_level; [| |exact H]; lia. }
  split; [|split; [|split]].
  - intros fuel Hle. eapply Subdivide_fuel_mono; [exact H|lia].
  - unfold BVH_new. rewrite H. reflexivity.
  - exact Hlevel.
  - apply at_level_depth in Hlevel. rewrite Z.sub_0_r in Hlevel. exact Hlevel.
Qed.

(** On an empty vector [Subdivide] stops at once and fills in a node with
    no children and no primitives. *)
Lemma BVH_new_nil maxNumLevels minPrimitivesPerNode :
  0 <= minPrimitivesPerNode ->
  exists root,
    BVH_new deref [] maxNumLevels minPrimitivesPerNode = Some (mkBVH (Some root), [])
    /\ lower root = None /\ higher root = None /\ primitives root = [].
Proof.
  intros Hmin. unfold BVH_new, levels_left. rewrite Subdivide_unfold. cbv zeta.
  simpl length. simpl Nat.sub.
  replace (Z.of_nat 0 <=? minPrimitivesPerNode) with true by (symmetry; apply Z.leb_le; lia).
  simpl. eexists. split; [reflexivity|]. repeat split.
Qed.

(** C3, at the failing input. For an empty input vector the constructor
    returns a root with no children and no primitives, which is neither a
    leaf nor an internal node. *)
Theorem BVH_new_empty_input_root maxNumLevels minPrimitivesPerNode :
  0 <= minPrimitivesPerNode ->
  exists root,
    BVH_new deref [] maxNumLevels minPrimitivesPerNode = Some (mkBVH (Some root), [])
    /\ is_leaf root = false /\ is_internal root = false
    /\ well_formed_node root = false.
Proof.
  intros Hmin.
  destruct (BVH_new_nil maxNumLevels minPrimitivesPerNode Hmin)
    as (root & Hnew & Hlo & Hhi & Hps).
  exists root. split; [exact Hnew|].
  unfold well_formed_node, is_leaf, is_internal. rewrite Hlo, Hhi, Hps.
  repeat split.
Qed.

End Constructor.

(** ** Boxes *)

Lemma sentinel_not_nan : is_nan f_99e29 = false /\ is_nan (SFopp f_99e29) = false.
Proof. split; reflexivity. Qed.

Section BoundFacts.
Variable f : Handle -> float.

Lemma run_min_le_elem l s h :
  is_nan s = false -> is_nan (f h) = false -> In h l ->
  fle (run_min f l s) (f h) = true.
Proof.
  intros Hs Hh Hin. apply fle_of_not_flt; [exact Hh|apply run_min_not_nan, Hs|].
  apply run_min_bound, Hin.
Qed.

Lemma run_max_ge_elem l s h :
  is_nan s = false -> is_nan (f h) = false -> In h l ->
  fle (f h) (run_max f l s) = true.
Proof.
  intros Hs Hh Hin. apply fle_of_not_flt; [apply run_max_not_nan, Hs|exact Hh|].
  apply run_max_bound, Hin.
Qed.

Lemma run_min_subset l0 l1 s :
  is_nan s = false -> (forall h, In h l1 -> In h l0) ->
  fle (run_min f l0 s) (run_min f l1 s) = true.
Proof.
  intros Hs Hsub. destruct (run_min_cases f l1 s) as [->|(h & Hin & E)].
  - apply run_min_le_init, Hs.
  - pose proof (run_min_not_nan f l1 s Hs) as Hn. rewrite E in *.
    apply run_min_le_elem; auto.
Qed.

Lemma run_max_subset l0 l1 s :
  is_nan s = false -> (forall h, In h l1 -> In h l0) ->
  fle (run_max f l1 s) (run_max f l0 s) = true.
Proof.
  intros Hs Hsub. destruct (run_max_cases f l1 s) as [->|(h & Hin & E)].
  - apply run_max_ge_init, Hs.
  - pose proof (run_max_not_nan f l1 s Hs) as Hn. rewrite E in *.
    apply run_max_ge_elem; auto.
Qed.

Lemma run_min_attained l s :
  l <> [] -> (forall h, In h l -> fle (f h) s = true) ->
  exists h, In h l /\ feq (run_min f l s) (f h) = true.
Proof.
  intros Hne Hle. destruct (run_min_cases f l s) as [E|(h & Hin & E)].
  - destruct l as [|h l]; [congruence|]. exists h. split; [left; reflexivity|].
    rewrite E. apply feq_of_fle_not_flt; [apply Hle; left; reflexivity|].
    rewrite <- E. apply run_min_bound. left; reflexivity.
  - exists h. split; [exact Hin|]. rewrite E. apply feq_refl.
    eapply fle_not_nan_l, Hle, Hin.
Qed.

Lemma run_max_attained l s :
  l <> [] -> (forall h, In h l -> fle s (f h) = true) ->
  exists h, In h l /\ feq (run_max f l s) (f h) = true.
Proof.
  intros Hne Hle. destruct (run_max_cases f l s) as [E|(h & Hin & E)].
  - destruct l as [|h l]; [congruence|]. exists h. split; [left; reflexivity|].
    rewrite E. apply feq_of_fle_not_flt_r; [apply Hle; left; reflexivity|].
    rewrite <- E at 1. apply run_max_bound. left; reflexivity.
  - exists h. split; [exact Hin|]. rewrite E. apply feq_refl.
    eapply fle_not_nan_r, Hle, Hin.
Qed.

End BoundFacts.

Section BoxFacts.
Variable deref : Handle -> Primitive.
Context {sorter : StdSort}.

Lemma built_over_box n l :
  built_over deref n l ->
  exists l0, Permutation l0 l /\
    xmin n = run_min (fun h => GetXmin (deref h)) l0 f_99e29 /\
    xmax n = run_max (fun h => GetXmax (deref h)) l0 (SFopp f_99e29) /\
    ymin n = run_min (fun h => GetYmin (deref h)) l0 f_99e29 /\
    ymax n = run_max (fun h => GetYmax (deref h)) l0 (SFopp f_99e29) /\
    zmin n = run_min (fun h => GetZmin (deref h)) l0 f_99e29 /\
    zmax n = run_max (fun h => GetZmax (deref h)) l0 (SFopp f_99e29).
Proof.
  destruct n as [a b c d e g lo hi ps]. intros [(l0 & Hperm & Hbox) _].
  exists l0. split; [exact Hperm|].
  rewrite Extent_fold in Hbox. injection Hbox as -> -> -> -> -> ->.
  repeat split.
Qed.

Lemma built_over_box_inside n l c lc :
  built_over deref n l -> built_over deref c lc ->
  (forall h, In h lc -> In h l) ->
  box_inside c n.
Proof.
  intros Hn Hc Hsub. unfold box_inside.
  destruct (built_over_box n l Hn) as (l0 & Hp & -> & -> & -> & -> & -> & ->).
  destruct (built_over_box c lc Hc) as (l1 & Hp1 & -> & -> & -> & -> & -> & ->).
  assert (Hsub' : forall h, In h l1 -> In h l0).
  { intros h Hh. eapply Permutation_in; [symmetry; exact Hp|].
    apply Hsub. eapply Permutation_in; [exact Hp1|exact Hh]. }
  destruct sentinel_not_nan as [Hs Hs'].
  repeat split; first [apply run_min_subset|apply run_max_subset]; assumption.
Qed.

End BoxFacts.

Section BoxTheorem.
Variable deref : Handle -> Primitive.
Context {sorter : StdSort}.

Lemma least_of_same_elements g ps ps' v :
  (forall p, In p ps <-> In p ps') -> least_of g ps v -> least_of g ps' v.
Proof.
  intros Hiff (A & p & B & C). split.
  - intros q Hq. apply A, Hiff, Hq.
  - exists p. split; [apply Hiff, B|exact C].
Qed.

Lemma greatest_of_same_elements g ps ps' v :
  (forall p, In p ps <-> In p ps') -> greatest_of g ps v -> greatest_of g ps' v.
Proof.
  intros Hiff (A & p & B & C). split.
  - intros q Hq. apply A, Hiff, Hq.
  - exists p. split; [apply Hiff, B|exact C].
Qed.

Lemma box_is_union_same_elements ps ps' n :
  (forall p, In p ps <-> In p ps') -> box_is_union ps n -> box_is_union ps' n.
Proof.
  intros Hiff (H1 & H2 & H3 & H4 & H5 & H6).
  repeat split;
    first [eapply least_of_same_elements; eassumption
          |eapply greatest_of_same_elements; eassumption].
Qed.

End BoxTheorem.

(** ** Encoders append *)

Lemma PushElements_app vec l : PushElements vec l = vec ++ map SlotF l.
Proof.
  unfold PushElements, push_back. revert vec.
  induction l as [|x l IH]; intros vec; simpl; [symmetry; apply app_nil_r|].
  rewrite IH, <- app_assoc. reflexivity.
Qed.

Lemma StoreDataIntoBVH_app s data :
  StoreDataIntoBVH s data = data ++ StoreDataIntoBVH s [].
Proof.
  destruct s; unfold StoreDataIntoBVH, PushVector, push_back; simpl;
    rewrite <- ?app_assoc; reflexivity.
Qed.

Lemma StoreIntoBVH_app p data : StoreIntoBVH p data = data ++ StoreIntoBVH p [].
Proof.
  unfold StoreIntoBVH, push_back.
  rewrite StoreDataIntoBVH_app, (StoreDataIntoBVH_app _ (_ ++ _)).
  simpl. rewrite <- !app_assoc. reflexivity.
Qed.

Lemma StoreDataIntoBVH_length s :
  length (StoreDataIntoBVH s []) =
  match s with
  | Sphere _ _ => 4 | Disc _ _ _ => 8 | Triangle _ _ _ => 12
  | Cone _ _ _ _ _ _ _ _ _ => 16
  end%nat.
Proof. destruct s; reflexivity. Qed.

Lemma StoreIntoBVH_length p :
  length (StoreIntoBVH p []) = (4 + length (StoreDataIntoBVH (shape p) []))%nat.
Proof.
  unfold StoreIntoBVH, push_back. rewrite StoreDataIntoBVH_app.
  rewrite length_app. reflexivity.
Qed.

Lemma mod4_iff k : (k mod 4 = 0)%nat <-> exists q, k = (4 * q)%nat.
Proof. apply Nat.Div0.mod_divides. Qed.

Lemma StoreIntoBVH_quads p : (length (StoreIntoBVH p []) mod 4 = 0)%nat.
Proof.
  rewrite StoreIntoBVH_length, StoreDataIntoBVH_length. destruct (shape p); reflexivity.
Qed.

Section CompilerFacts.
Variable deref : Handle -> Primitive.

Lemma fold_StoreIntoBVH ps : forall data,
  fold_left (fun compiledTree p => StoreIntoBVH (deref p) compiledTree) ps data
  = data ++ flat_map (fun h => StoreIntoBVH (deref h) []) ps.
Proof.
  induction ps as [|p ps IH]; intros data; simpl; [symmetry; apply app_nil_r|].
  rewrite IH, StoreIntoBVH_app, <- app_assoc. reflexivity.
Qed.

Lemma flat_map_StoreIntoBVH_quads ps :
  (length (flat_map (fun h => StoreIntoBVH (deref h) []) ps) mod 4 = 0)%nat.
Proof.
  apply mod4_iff. induction ps as [|p ps [q IH]]; [exists 0%nat; reflexivity|].
  destruct (proj1 (mod4_iff _) (StoreIntoBVH_quads (deref p))) as [q' Hq'].
  exists (q' + q)%nat. simpl. rewrite length_app, IH, Hq'. lia.
Qed.

Lemma slots_quads : forall n, (slots deref n mod 4 = 0)%nat.
Proof.
  intros n. apply mod4_iff.
  induction n as [a b c d e f lo hi ps IHlo IHhi] using BoundingBox_tree_ind.
  simpl. destruct ps as [|p ps].
  - assert (Hl : exists q, match lo with Some c => slots deref c | None => 0%nat end
                           = (4 * q)%nat)
      by (destruct lo; [apply IHlo; reflexivity|exists 0%nat; reflexivity]).
    assert (Hh : exists q, match hi with Some c => slots deref c | None => 0%nat end
                           = (4 * q)%nat)
      by (destruct hi; [apply IHhi; reflexivity|exists 0%nat; reflexivity]).
    destruct Hl as [ql ->], Hh as [qh ->]. exists (3 + ql + qh)%nat. lia.
  - destruct (proj1 (mod4_iff _) (flat_map_StoreIntoBVH_quads (p :: ps))) as [q Hq].
    rewrite Hq. exists (3 + q)%nat. lia.
Qed.

Lemma CompileFrom_unfold a b c d e f lo hi ps compiledTree parentAddr isLower isRoot :
  CompileFrom deref (mkBoundingBox a b c d e f lo hi ps) compiledTree parentAddr isLower isRoot =
  let nodeAddr := u32 (Z.of_nat (length compiledTree) / RGBA_ELEMS) in
  let compiledTree :=
    PushElements compiledTree [ a; c; e; RGBA_PAD; b; d; f; RGBA_PAD ] in
  let flags := if isLower then IS_LOWER else 0 in
  let flags := if isRoot then Z.lor flags IS_ROOT else flags in
  match ps with
  | [] =>
      if negb (Z.of_nat (length compiledTree) <=? Z.shiftl 1 31)
      then AssertionFailed
      else
        let compiledTree := push_back compiledTree (SlotU flags) in
        let lowerAddrLoc := u32 (Z.of_nat (length compiledTree)) in
        let compiledTree := push_back compiledTree (SlotF (S754_zero false)) in
        let higherAddrLoc := u32 (Z.of_nat (length compiledTree)) in
        let compiledTree := push_back compiledTree (SlotF (S754_zero false)) in
        let compiledTree := push_back compiledTree (SlotU parentAddr) in
        let lowerAddr := u32 (Z.of_nat (length compiledTree) / RGBA_ELEMS) in
        let compiledTree := <[Z.to_nat lowerAddrLoc := SlotU lowerAddr]> compiledTree in
        match lo with
        | None => NullDereference
        | Some lo =>
            match CompileFrom deref lo compiledTree nodeAddr true false with
            | Done compiledTree =>
                let higherAddr := u32 (Z.of_nat (length compiledTree) / RGBA_ELEMS) in
                let compiledTree :=
                  <[Z.to_nat higherAddrLoc := SlotU higherAddr]> compiledTree in
                match hi with
                | None => NullDereference
                | Some hi => CompileFrom deref hi compiledTree nodeAddr false false
                end
            | failure => failure
            end
        end
  | _ :: _ =>
      let flags := Z.lor flags LEAF in
      let flags :=
        Z.lor flags (Z.land (u32 (Z.of_nat (length ps))) (u32 (Z.lnot FLAGS_MASK))) in
      let compiledTree := push_back compiledTree (SlotU flags) in
      let compiledTree := PushElements compiledTree [ RGBA_PAD; RGBA_PAD ] in
      let compiledTree := push_back compiledTree (SlotU parentAddr) in
      Done (fold_left (fun compiledTree p => StoreIntoBVH (deref p) compiledTree)
                      ps compiledTree)
  end.
Proof. destruct ps; reflexivity. Qed.

End CompilerFacts.

(** ** What [CompileFrom] appends *)

Lemma backpatch (data hdr tail : Data) (i : nat) v :
  (i < length hdr)%nat ->
  <[(length data + i)%nat := v]> (data ++ hdr ++ tail) = data ++ <[i := v]> hdr ++ tail.
Proof.
  intros Hi. rewrite insert_app_r. f_equal. apply insert_app_l, Hi.
Qed.

Lemma lookup_frame (pre l : Data) (k : nat) : (pre ++ l) !! (length pre + k)%nat = l !! k.
Proof.
  rewrite lookup_app_r by lia. f_equal. lia.
Qed.

Section Emission.
Variable deref : Handle -> Primitive.

(** [CompileFrom] refines the two-pass layout [emit]: whenever it
    returns, it has appended exactly [emit] to the buffer it was given. *)
Lemma CompileFrom_emit : forall n data p il ir data',
  CompileFrom deref n data p il ir = Done data' ->
  data' = data ++ emit deref n (length data) p il ir /\ compilable n.
Proof.
  induction n as [a b c d e f lo hi ps IHlo IHhi] using BoundingBox_tree_ind.
  intros data p il ir data' H.
  rewrite CompileFrom_unfold in H. cbv zeta in H.
  rewrite !PushElements_app in H. unfold push_back in H.
  destruct ps as [|h ps].
  - destruct (Z.of_nat (length (data ++ _)) <=? Z.shiftl 1 31) eqn:Hassert;
      simpl negb in H; cbv iota in H; [|discriminate].
    apply Z.leb_le in Hassert. rewrite length_app in Hassert.
    change (Z.shiftl 1 31) with 2147483648 in Hassert. simpl length in Hassert.
    rewrite <- !app_assoc in H.
    set (flags := if ir then Z.lor (if il then IS_LOWER else 0) IS_ROOT
                  else if il then IS_LOWER else 0) in *.
    rewrite !length_app in H. cbn [length map Nat.add app] in H.
    assert (E9 : Z.to_nat (u32 (Z.of_nat (length data + 9))) = (length data + 9)%nat)
      by (unfold u32; change (2 ^ 32) with 4294967296; rewrite Z.mod_small by lia; lia).
    assert (E10 : Z.to_nat (u32 (Z.of_nat (length data + 10))) = (length data + 10)%nat)
      by (unfold u32; change (2 ^ 32) with 4294967296; rewrite Z.mod_small by lia; lia).
    rewrite E9, E10 in H. clear E9 E10.
    rewrite insert_app_r in H.
    change (<[9%nat:=?v]> [?x0; ?x1; ?x2; ?x3; ?x4; ?x5; ?x6; ?x7; ?x8; ?x9; ?x10; ?x11])
      with [x0; x1; x2; x3; x4; x5; x6; x7; x8; v; x10; x11] in H.
    destruct lo as [l|]; [|discriminate].
    destruct (CompileFrom deref l _ _ _ _) as [c7| |] eqn:Hlo in H; try discriminate.
    apply (IHlo l eq_refl) in Hlo. destruct Hlo as [-> Hcl].
    destruct hi as [h|]; [|discriminate].
    rewrite <- app_assoc in H. rewrite backpatch in H by (simpl; lia).
    change (<[10%nat:=?v]> [?x0; ?x1; ?x2; ?x3; ?x4; ?x5; ?x6; ?x7; ?x8; ?x9; ?x10; ?x11])
      with [x0; x1; x2; x3; x4; x5; x6; x7; x8; x9; v; x11] in H.
    apply (IHhi h eq_refl) in H. destruct H as [-> Hch].
    split; [|simpl; auto].
    rewrite <- !app_assoc. f_equal.
    rewrite !length_app. cbn [length app]. rewrite !Nat.add_assoc.
    cbn [emit box_quads xmin xmax ymin ymax zmin zmax app node_flags primitives].
    reflexivity.
  - injection H as <-. rewrite fold_StoreIntoBVH, StoreIntoBVH_app. split; [|exact I].
    cbn [emit box_quads xmin xmax ymin ymax zmin zmax node_flags primitives flat_map map].
    rewrite <- !app_assoc. reflexivity.
Qed.

Lemma emit_length : forall n start p il ir,
  compilable n -> length (emit deref n start p il ir) = slots deref n.
Proof.
  induction n as [a b c d e f lo hi ps IHlo IHhi] using BoundingBox_tree_ind.
  intros start p il ir Hc. destruct ps as [|h ps].
  - simpl in Hc. destruct lo as [l|], hi as [h|]; try contradiction.
    destruct Hc as [Hl Hh].
    cbn [emit slots]. rewrite !length_app.
    rewrite (IHlo l eq_refl), (IHhi h eq_refl) by assumption. reflexivity.
  - cbn [emit slots]. rewrite !length_app. reflexivity.
Qed.

Lemma emit_addresses : forall n pre post start p il ir parent,
  compilable n ->
  length pre = start ->
  (start mod 4 = 0)%nat ->
  Z.of_nat (start + slots deref n) < 2 ^ 34 ->
  (forall parent_start, parent = Some parent_start -> p = Z.of_nat parent_start / 4) ->
  addresses_ok deref (pre ++ emit deref n start p il ir ++ post) n start parent.
Proof.
  induction n as [a b c d e f lo hi ps IHlo IHhi] using BoundingBox_tree_ind.
  intros pre post start p il ir parent Hc Hlen Hal Hbound Hparent.
  change (2 ^ 34) with 17179869184 in Hbound.
  destruct ps as [|h ps].
  - simpl in Hc. destruct lo as [l|], hi as [h|]; try contradiction.
    destruct Hc as [Hl Hh].
    pose proof (emit_length l (start + 12)
                  (u32 (Z.of_nat start / RGBA_ELEMS)) true false Hl) as Elen.
    cbn [slots] in Hbound.
    cbn [emit addresses_ok box_quads xmin xmax ymin ymax zmin zmax primitives].
    rewrite Elen. subst start.
    set (lo_part := emit deref l _ _ _ _).
    set (hi_part := emit deref h _ _ _ _).
    destruct (proj1 (mod4_iff _) Hal) as [q Hq].
    destruct (proj1 (mod4_iff _) (slots_quads deref l)) as [ql Hql].
    assert (Eaddr : u32 (Z.of_nat (length pre) / RGBA_ELEMS) = Z.of_nat (length pre) / 4).
    { unfold u32, RGBA_ELEMS. change (2 ^ 32) with 4294967296.
      apply Z.mod_small. Z.div_mod_to_equations. lia. }
    split; [|split; [|split; [|split; [|split; [|split]]]]].
    + unfold record_at. rewrite drop_app_length. reflexivity.
    + exact Hal.
    + intros parent_start Hps. rewrite (lookup_frame pre _ 11).
      cbn. rewrite (Hparent _ Hps). reflexivity.
    + rewrite (lookup_frame pre _ 9). cbn. do 2 f_equal.
      unfold u32, RGBA_ELEMS. change (2 ^ 32) with 4294967296.
      apply Z.mod_small. Z.div_mod_to_equations. lia.
    + rewrite (lookup_frame pre _ 10). cbn. do 2 f_equal.
      unfold u32, RGBA_ELEMS. change (2 ^ 32) with 4294967296.
      apply Z.mod_small. Z.div_mod_to_equations. lia.
    + replace (pre ++ _ ++ post)
        with ((pre ++ [SlotF a; SlotF c; SlotF e; SlotF RGBA_PAD;
                       SlotF b; SlotF d; SlotF f; SlotF RGBA_PAD;
                       SlotU (node_flags
                                (mkBoundingBox a b c d e f (Some l) (Some h) []) il ir);
                       SlotU (u32 (Z.of_nat (length pre + 12) / RGBA_ELEMS));
                       SlotU (u32 (Z.of_nat (length pre + 12 + slots deref l) / RGBA_ELEMS));
                       SlotU p])
              ++ lo_part ++ (hi_part ++ post))
        by (rewrite <- !app_assoc; reflexivity).
      apply (IHlo l eq_refl); auto.
      * rewrite length_app. reflexivity.
      * apply mod4_iff. exists (q + 3)%nat. lia.
      * change (2 ^ 34) with 17179869184. lia.
      * intros ? [= <-]. exact Eaddr.
    + replace (pre ++ _ ++ post)
        with ((pre ++ [SlotF a; SlotF c; SlotF e; SlotF RGBA_PAD;
                       SlotF b; SlotF d; SlotF f; SlotF RGBA_PAD;
                       SlotU (node_flags
                                (mkBoundingBox a b c d e f (Some l) (Some h) []) il ir);
                       SlotU (u32 (Z.of_nat (length pre + 12) / RGBA_ELEMS));
                       SlotU (u32 (Z.of_nat (length pre + 12 + slots deref l) / RGBA_ELEMS));
                       SlotU p] ++ lo_part)
              ++ hi_part ++ post)
        by (rewrite <- !app_assoc; reflexivity).
      apply (IHhi h eq_refl); auto.
      * rewrite !length_app. unfold lo_part. rewrite Elen. cbn [length]. lia.
      * apply mod4_iff. exists (q + 3 + ql)%nat. lia.
      * change (2 ^ 34) with 17179869184. lia.
      * intros ? [= <-]. exact Eaddr.
  - cbn [emit addresses_ok box_quads xmin xmax ymin ymax zmin zmax primitives].
    subst start. split; [|split; [|split]].
    + unfold record_at. rewrite drop_app_length. reflexivity.
    + exact Hal.
    + intros parent_start Hps. rewrite (lookup_frame pre _ 11).
      cbn. rewrite (Hparent _ Hps). reflexivity.
    + exact I.
Qed.

End Emission.

(** ** The flags word *)

Lemma lor_range a b n :
  0 < n -> 0 <= a < 2 ^ n -> 0 <= b < 2 ^ n -> 0 <= Z.lor a b < 2 ^ n.
Proof.
  intros Hn Ha Hb. split; [apply Z.lor_nonneg; lia|].
  destruct (Z.eq_dec (Z.lor a b) 0) as [->|Hne]; [lia|].
  assert (0 <= Z.lor a b) by (apply Z.lor_nonneg; lia).
  apply Z.log2_lt_pow2; [lia|].
  rewrite Z.log2_lor by lia.
  apply Z.max_lub_lt.
  - destruct (Z.eq_dec a 0) as [->|]; [simpl; lia|apply Z.log2_lt_pow2; lia].
  - destruct (Z.eq_dec b 0) as [->|]; [simpl; lia|apply Z.log2_lt_pow2; lia].
Qed.

Lemma count_field len :
  0 <= len ->
  Z.land (u32 len) (u32 (Z.lnot FLAGS_MASK)) = len mod 2 ^ 29.
Proof.
  intros Hlen. change (u32 (Z.lnot FLAGS_MASK)) with (Z.ones 29).
  rewrite Z.land_ones by lia. unfold u32.
  change (2 ^ 32) with 4294967296. change (2 ^ 29) with 536870912.
  Z.div_mod_to_equations. lia.
Qed.

Lemma node_flags_bits n isLower isRoot :
  let flags := node_flags n isLower isRoot in
  0 <= flags < 2 ^ 32 /\
  Z.testbit flags 31 = (match primitives n with [] => false | _ :: _ => true end) /\
  Z.testbit flags 30 = isLower /\
  Z.testbit flags 29 = isRoot /\
  Z.land flags (2 ^ 29 - 1) =
    match primitives n with
    | [] => 0
    | _ :: _ => Z.of_nat (length (primitives n)) mod 2 ^ 29
    end.
Proof.
  unfold node_flags. destruct (primitives n) as [|h ps].
  - destruct isLower, isRoot; cbv zeta; repeat split;
      first [reflexivity | vm_compute; congruence].
  - set (len := Z.of_nat (length (h :: ps))).
    assert (Hlen : 0 <= len) by (unfold len; lia).
    cbv zeta. rewrite (count_field len Hlen).
    assert (Hc : 0 <= len mod 2 ^ 29 < 2 ^ 29) by (apply Z.mod_pos_bound; lia).
    assert (Hc32 : 0 <= len mod 2 ^ 29 < 2 ^ 32)
      by (change (2 ^ 32) with 4294967296; change (2 ^ 29) with 536870912 in *; lia).
    assert (Hhigh : forall k, 29 <= k -> Z.testbit (len mod 2 ^ 29) k = false)
      by (intros k Hk; apply Z.mod_pow2_bits_high; lia).
    assert (Hlow : Z.land (len mod 2 ^ 29) (2 ^ 29 - 1) = len mod 2 ^ 29).
    { change (2 ^ 29 - 1) with (Z.ones 29). rewrite Z.land_ones by lia.
      apply Z.mod_small, Hc. }
    split; [|split; [|split; [|split]]].
    + apply lor_range; [lia| |exact Hc32].
      destruct isLower, isRoot; split; first [reflexivity | vm_compute; congruence].
    + rewrite Z.lor_spec, Hhigh by lia. destruct isLower, isRoot; reflexivity.
    + rewrite Z.lor_spec, Hhigh by lia. destruct isLower, isRoot; reflexivity.
    + rewrite Z.lor_spec, Hhigh by lia. destruct isLower, isRoot; reflexivity.
    + rewrite Z.land_lor_distr_l, Hlow.
      destruct isLower, isRoot; reflexivity.
Qed.

Section Records.
Variable deref : Handle -> Primitive.

Lemma records_not_root : forall n start isLower,
  Forall (fun r => rec_isRoot r = false) (records deref n start isLower false).
Proof.
  induction n as [a b c d e f lo hi ps IHlo IHhi] using BoundingBox_tree_ind.
  intros start isLower. cbn [records]. constructor; [reflexivity|].
  destruct ps as [|p ps]; [|constructor].
  destruct lo as [l|]; [|constructor]. destruct hi as [h|]; [|constructor].
  apply Forall_app. split; [apply (IHlo l eq_refl)|apply (IHhi h eq_refl)].
Qed.

Lemma records_nodes : forall n start isLower isRoot,
  compilable n ->
  every_node (fun m => primitives m <> [] -> childless m = true) n ->
  map rec_node (records deref n start isLower isRoot) = nodes n.
Proof.
  induction n as [a b c d e f lo hi ps IHlo IHhi] using BoundingBox_tree_ind.
  intros start isLower isRoot Hc Hn. unfold every_node in Hn. cbn [nodes] in Hn.
  apply Forall_cons in Hn. destruct Hn as [Hhere Hbelow].
  apply Forall_app in Hbelow. destruct Hbelow as [Hlo Hhi].
  cbn [records nodes map]. f_equal.
  destruct ps as [|p ps].
  - simpl in Hc. destruct lo as [l|], hi as [h|]; try contradiction.
    destruct Hc as [Hl Hh]. rewrite map_app.
    rewrite (IHlo l eq_refl), (IHhi h eq_refl) by assumption. reflexivity.
  - assert (Hch : childless (mkBoundingBox a b c d e f lo hi (p :: ps)) = true)
      by (apply Hhere; discriminate).
    unfold childless in Hch. simpl in Hch.
    destruct lo, hi; try discriminate. reflexivity.
Qed.

Lemma emit_flags : forall n pre post start p isLower isRoot,
  compilable n ->
  every_node (fun m => primitives m <> [] -> childless m = true) n ->
  length pre = start ->
  Forall (flags_ok (pre ++ emit deref n start p isLower isRoot ++ post))
         (records deref n start isLower isRoot).
Proof.
  induction n as [a b c d e f lo hi ps IHlo IHhi] using BoundingBox_tree_ind.
  intros pre post start p il ir Hc Hn Hlen. unfold every_node in Hn. cbn [nodes] in Hn.
  apply Forall_cons in Hn. destruct Hn as [Hhere Hbelow].
  apply Forall_app in Hbelow. destruct Hbelow as [Hlo Hhi].
  subst start.
  pose proof (node_flags_bits (mkBoundingBox a b c d e f lo hi ps) il ir) as Hbits.
  cbv zeta in Hbits. cbn [primitives] in Hbits.
  destruct Hbits as (Hrange & H31 & H30 & H29 & Hcount).
  destruct ps as [|h0 ps].
  - simpl in Hc. destruct lo as [l|], hi as [h|]; try contradiction.
    destruct Hc as [Hl Hh].
    pose proof (emit_length deref l (length pre + 12)
                  (u32 (Z.of_nat (length pre) / RGBA_ELEMS)) true false Hl) as Elen.
    cbn [records emit box_quads xmin xmax ymin ymax zmin zmax primitives].
    rewrite Elen.
    set (lo_part := emit deref l _ _ _ _) in *.
    set (hi_part := emit deref h _ _ _ _).
    constructor.
    + exists (node_flags (mkBoundingBox a b c d e f (Some l) (Some h) []) il ir).
      cbn [rec_start rec_node rec_isLower rec_isRoot].
      split; [rewrite (lookup_frame pre _ 8); reflexivity|].
      repeat split; assumption || apply Hrange.
    + apply Forall_app. split.
      * replace (pre ++ _ ++ post)
          with ((pre ++ [SlotF a; SlotF c; SlotF e; SlotF RGBA_PAD;
                         SlotF b; SlotF d; SlotF f; SlotF RGBA_PAD;
                         SlotU (node_flags
                                  (mkBoundingBox a b c d e f (Some l) (Some h) []) il ir);
                         SlotU (u32 (Z.of_nat (length pre + 12) / RGBA_ELEMS));
                         SlotU (u32 (Z.of_nat (length pre + 12 + slots deref l)
                                     / RGBA_ELEMS));
                         SlotU p])
                ++ lo_part ++ (hi_part ++ post))
          by (rewrite <- !app_assoc; reflexivity).
        apply (IHlo l eq_refl); auto. rewrite length_app. reflexivity.
      * replace (pre ++ _ ++ post)
          with ((pre ++ [SlotF a; SlotF c; SlotF e; SlotF RGBA_PAD;
                         SlotF b; SlotF d; SlotF f; SlotF RGBA_PAD;
                         SlotU (node_flags
                                  (mkBoundingBox a b c d e f (Some l) (Some h) []) il ir);
                         SlotU (u32 (Z.of_nat (length pre + 12) / RGBA_ELEMS));
                         SlotU (u32 (Z.of_nat (length pre + 12 + slots deref l)
                                     / RGBA_ELEMS));
                         SlotU p] ++ lo_part)
                ++ hi_part ++ post)
          by (rewrite <- !app_assoc; reflexivity).
        apply (IHhi h eq_refl); auto.
        rewrite !length_app, Elen. cbn [length]. lia.
  - assert (Hch : childless (mkBoundingBox a b c d e f lo hi (h0 :: ps)) = true)
      by (apply Hhere; discriminate).
    cbn [records emit box_quads xmin xmax ymin ymax zmin zmax primitives].
    constructor; [|constructor].
    exists (node_flags (mkBoundingBox a b c d e f lo hi (h0 :: ps)) il ir).
    cbn [rec_start rec_node rec_isLower rec_isRoot]. rewrite Hch.
    split; [rewrite (lookup_frame pre _ 8); reflexivity|].
    repeat split; assumption || apply Hrange.
Qed.

End Records.

(** ** The compiler *)

Section Compiler.
Variable deref : Handle -> Primitive.
Context {sorter : StdSort}.

Lemma Compile_emit bvh data data' :
  Compile deref bvh data = Done data' ->
  exists root,
    Root bvh = Some root /\ compilable root /\
    data' = data ++ emit deref root (length data) 0 false true.
Proof.
  unfold Compile. destruct (Root bvh) as [root|]; [|discriminate].
  intros H. apply CompileFrom_emit in H. destruct H as [-> Hc]. eauto.
Qed.

Lemma records_head n start isLower isRoot :
  exists rest,
    records deref n start isLower isRoot = mkNodeRecord start n isLower isRoot :: rest
    /\ Forall (fun r => rec_isRoot r = false) rest.
Proof.
  destruct n as [a b c d e f lo hi ps]. cbn [records]. eexists. split; [reflexivity|].
  destruct ps as [|p ps]; [|constructor].
  destruct lo as [l|]; [|constructor]. destruct hi as [h|]; [|constructor].
  apply Forall_app. split; apply records_not_root.
Qed.

(** C5. In the buffer a compilation returns, given a buffer of whole
    quads to append to and a result within the range of 32-bit quad
    indices, the record of every node begins on a quad boundary, the
    child fields of every internal node hold the quad indices at which
    the records of its lower and higher subtrees begin, and the parent
    field of every node but the root holds the quad index at which its
    parent's record begins. *)
Theorem Compile_addresses bvh data data' :
  Compile deref bvh data = Done data' ->
  (length data mod 4 = 0)%nat ->
  Z.of_nat (length data') < 2 ^ 34 ->
  exists root,
    Root bvh = Some root /\ addresses_ok deref data' root (length data) None.
Proof.
  intros H Hal Hbound. apply Compile_emit in H. destruct H as (root & Hroot & Hc & ->).
  exists root. split; [exact Hroot|].
  rewrite length_app, emit_length in Hbound by exact Hc.
  rewrite <- (app_nil_r (emit deref root _ _ _ _)).
  apply emit_addresses; auto. discriminate.
Qed.

(** C8. For a tree made by the constructor and a compilation of it that
    returns: the node records of the buffer are those of the nodes of the
    tree, and in the first slot of each record's info quad bit 31 is set
    exactly for a leaf, bit 30 exactly for a lower child, bit 29 exactly
    for the root - the first record and no other - and bits 0-28 hold the
    number of primitives of a leaf and 0 for an internal node. *)
Theorem Compile_flags primitives maxNumLevels minPrimitivesPerNode bvh primitives' data data' :
  BVH_new deref primitives maxNumLevels minPrimitivesPerNode = Some (bvh, primitives') ->
  Compile deref bvh data = Done data' ->
  exists root,
    Root bvh = Some root /\
    map rec_node (records deref root (length data) false true) = nodes root /\
    Forall (flags_ok data') (records deref root (length data) false true) /\
    exists rest,
      records deref root (length data) false true
      = mkNodeRecord (length data) root false true :: rest
      /\ Forall (fun r => rec_isRoot r = false) rest.
Proof.
  intros Hnew H.
  destruct (BVH_new_built deref primitives maxNumLevels minPrimitivesPerNode)
    as (root & v' & Hnew' & _ & Hbuilt).
  rewrite Hnew' in Hnew. injection Hnew as <- <-.
  apply Compile_emit in H. destruct H as (root' & Hroot & Hc & ->).
  simpl in Hroot. injection Hroot as <-.
  pose proof (built_over_primitives deref root v' Hbuilt) as Hprims.
  exists root. split; [reflexivity|].
  split; [apply records_nodes; assumption|].
  split; [|apply records_head].
  rewrite <- (app_nil_r (emit deref root _ _ _ _)).
  apply emit_flags; auto.
Qed.

(** C10. A compilation that returns has only appended: the buffer it was
    given is a prefix of the result, slot for slot, and the record of the
    root begins right behind it, which for a buffer of whole quads is the
    quad whose index is the old length divided by 4. *)
Theorem Compile_appends bvh data data' :
  Compile deref bvh data = Done data' ->
  exists root appended,
    Root bvh = Some root /\
    data' = data ++ appended /\
    take (length data) data' = data /\
    (forall i s, data !! i = Some s -> data' !! i = Some s) /\
    record_at data' (length data) root /\
    ((length data mod 4 = 0)%nat ->
     length data = (4 * (length data / 4))%nat /\
     record_at data' (4 * (length data / 4)) root).
Proof.
  intros H. apply Compile_emit in H. destruct H as (root & Hroot & Hc & ->).
  exists root, (emit deref root (length data) 0 false true).
  split; [exact Hroot|]. split; [reflexivity|].
  split; [apply take_app_length|].
  split; [intros i s Hi; apply lookup_app_l_Some, Hi|].
  assert (Hrec : record_at (data ++ emit deref root (length data) 0 false true)
                           (length data) root).
  { unfold record_at. rewrite drop_app_length.
    destruct root as [a b c d e f lo hi ps]. destruct ps; reflexivity. }
  split; [exact Hrec|].
  intros Hal. destruct (proj1 (mod4_iff _) Hal) as [q Hq].
  assert (E : length data = (4 * (length data / 4))%nat).
  { rewrite Hq. rewrite (Nat.mul_comm 4 q) at 2. rewrite Nat.div_mul by lia. reflexivity. }
  split; [exact E|]. rewrite <- E. exact Hrec.
Qed.

(** On a tree whose nodes are all leaves or internal nodes, and within
    the size the assertion allows, [CompileFrom] returns. *)
Lemma CompileFrom_well_formed : forall n data p isLower isRoot,
  every_node (fun m => well_formed_node m = true) n ->
  Z.of_nat (length data + slots deref n) <= 2 ^ 31 ->
  exists data', CompileFrom deref n data p isLower isRoot = Done data'.
Proof.
  induction n as [a b c d e f lo hi ps IHlo IHhi] using BoundingBox_tree_ind.
  intros data p il ir Hwf Hsize. change (2 ^ 31) with 2147483648 in Hsize.
  unfold every_node in Hwf. cbn [nodes] in Hwf.
  apply Forall_cons in Hwf. destruct Hwf as [Hhere Hbelow].
  apply Forall_app in Hbelow. destruct Hbelow as [Hwlo Hwhi].
  rewrite CompileFrom_unfold. cbv zeta.
  rewrite !PushElements_app. unfold push_back.
  destruct ps as [|h0 ps]; [|eexists; reflexivity].
  destruct lo as [l|], hi as [h|]; try discriminate Hhere.
  cbn [slots] in Hsize.
  replace (Z.of_nat (length (data ++ _)) <=? Z.shiftl 1 31) with true
    by (symmetry; apply Z.leb_le; rewrite length_app;
        change (Z.shiftl 1 31) with 2147483648; simpl length; lia).
  simpl negb. cbv iota.
  match goal with
  | |- context [CompileFrom deref l ?c ?q ?x ?y] =>
      destruct (IHlo l eq_refl c q x y Hwlo) as [c7 Hc7];
        [rewrite length_insert, !length_app; simpl length;
         change (2 ^ 31) with 2147483648; lia|];
        rewrite Hc7;
        apply CompileFrom_emit in Hc7; destruct Hc7 as [Hc7 Hcl];
        apply (f_equal (@length Slot)) in Hc7;
        rewrite length_app, emit_length, length_insert, !length_app in Hc7 by exact Hcl;
        simpl length in Hc7
  end.
  apply (IHhi h eq_refl); [exact Hwhi|].
  rewrite length_insert, Hc7. change (2 ^ 31) with 2147483648. lia.
Qed.

(** What [SetPrimitives] does, on a scene that is not empty and with at
    least two primitives allowed per node: the constructor returns a tree
    and, while the buffer stays within 2^31 slots, [Compile] returns a
    buffer. *)
Lemma build_and_compile_returns primitives maxNumLevels minPrimitivesPerNode :
  2 <= minPrimitivesPerNode ->
  primitives <> [] ->
  exists bvh primitives' root,
    BVH_new deref primitives maxNumLevels minPrimitivesPerNode = Some (bvh, primitives')
    /\ Root bvh = Some root
    /\ (Z.of_nat (slots deref root) <= 2 ^ 31 ->
        exists compiledTree, Compile deref bvh [] = Done compiledTree).
Proof.
  intros Hmin Hne.
  destruct (BVH_new_well_formed deref primitives maxNumLevels minPrimitivesPerNode Hmin Hne)
    as (root & v' & Hnew & Hwf).
  exists (mkBVH (Some root)), v', root. split; [exact Hnew|]. split; [reflexivity|].
  intros Hsize. unfold Compile. cbn [Root].
  apply CompileFrom_well_formed; [exact Hwf|exact Hsize].
Qed.

(** C2, at the failing input. For an empty input vector the constructor
    returns a tree on which [Compile] dereferences the null [lower]
    pointer of the root. *)
Theorem Compile_empty_scene_null_dereference maxNumLevels minPrimitivesPerNode :
  0 <= minPrimitivesPerNode ->
  exists bvh,
    BVH_new deref [] maxNumLevels minPrimitivesPerNode = Some (bvh, [])
    /\ Compile deref bvh [] = NullDereference.
Proof.
  intros Hmin.
  destruct (BVH_new_nil deref maxNumLevels minPrimitivesPerNode Hmin)
    as (root & Hnew & Hlo & Hhi & Hps).
  exists (mkBVH (Some root)). split; [exact Hnew|].
  unfold Compile. cbn [Root]. destruct root as [a b c d e f lo hi ps].
  simpl in Hlo, Hhi, Hps. subst. reflexivity.
Qed.

End Compiler.

(** ** Encoders against decoders *)

(** X2. For a sphere, a disc and a triangle the decoder reads the fields in
    the order the encoder stored them, skips only padding and stops where
    the encoding ends. *)
Lemma PrintBVH_follows_StoreDataIntoBVH s rest :
  match s with
  | Cone _ _ _ _ _ _ _ _ _ => True
  | _ =>
      let t := GetType (mkPrimitive RGBA_PAD RGBA_PAD RGBA_PAD RGBA_PAD RGBA_PAD RGBA_PAD s) in
      consumed t (StoreDataIntoBVH s [] ++ rest) 0
      = Some (length (StoreDataIntoBVH s [])) /\
      exists c,
        PrintBVH t (StoreDataIntoBVH s [] ++ rest) {| it := 0; os := [] |} = Some (tt, c)
        /\ printed c =
           match s with
           | Sphere C R => [SlotF (Vec3f.x C); SlotF (Vec3f.y C); SlotF (Vec3f.z C); SlotF R]
           | Disc C N R =>
               [SlotF (Vec3f.x C); SlotF (Vec3f.y C); SlotF (Vec3f.z C); SlotF R;
                SlotF (Vec3f.x N); SlotF (Vec3f.y N); SlotF (Vec3f.z N)]
           | Triangle V0 V1 V2 =>
               [SlotF (Vec3f.x V0); SlotF (Vec3f.y V0); SlotF (Vec3f.z V0);
                SlotF (Vec3f.x V1); SlotF (Vec3f.y V1); SlotF (Vec3f.z V1);
                SlotF (Vec3f.x V2); SlotF (Vec3f.y V2); SlotF (Vec3f.z V2)]
           | Cone _ _ _ _ _ _ _ _ _ => []
           end
  end.
Proof.
  destruct s; try exact I; cbv zeta;
    (split; [vm_compute; reflexivity|]);
    eexists; split; vm_compute; reflexivity.
Qed.

(** C1, at the failing variant. [Cone::StoreDataIntoBVH] stores 16 slots;
    [Cone::PrintBVH] started on them consumes 20: it skips the three
    slots that hold [Radius1], [Radius2] and [AxisLen] as if they were
    padding, prints [WidthCoeff], [CosB], [DotAxC1] and the final padding
    under the names of other fields, and then reads two slots and skips
    two more behind the end of the cone's record (or runs off the buffer
    when fewer than two slots follow). *)
Theorem Cone_PrintBVH_overruns_StoreDataIntoBVH
        Center1 Center2 Radius1 Radius2 UnitAxis AxisLen WidthCoeff CosB DotAxC1 rest :
  let cone := Cone Center1 Center2 Radius1 Radius2 UnitAxis AxisLen WidthCoeff CosB DotAxC1 in
  length (StoreDataIntoBVH cone []) = 16%nat /\
  match rest with
  | x :: y :: _ =>
      consumed CONE (StoreDataIntoBVH cone [] ++ rest) 0 = Some 20%nat /\
      exists c,
        Cone_PrintBVH (StoreDataIntoBVH cone [] ++ rest) {| it := 0; os := [] |}
        = Some (tt, c)
        /\ printed c =
           [SlotF (Vec3f.x Center1); SlotF (Vec3f.y Center1); SlotF (Vec3f.z Center1);
            SlotF (Vec3f.x Center2); SlotF (Vec3f.y Center2); SlotF (Vec3f.z Center2);
            SlotF (Vec3f.x UnitAxis); SlotF (Vec3f.y UnitAxis); SlotF (Vec3f.z UnitAxis);
            SlotF WidthCoeff; SlotF CosB; SlotF DotAxC1; SlotF RGBA_PAD; x; y]
  | _ =>
      consumed CONE (StoreDataIntoBVH cone [] ++ rest) 0 = None
  end.
Proof.
  split; [reflexivity|].
  destruct rest as [|x [|y rest]]; try (vm_compute; reflexivity).
  split; [vm_compute; reflexivity|].
  eexists. split; vm_compute; reflexivity.
Qed.

(** ** The comparator handed to [std::sort] *)

Lemma fle_trans a b c : fle a b = true -> fle b c = true -> fle a c = true.
Proof. float_cases a; float_cases b; float_cases c; intros; float_order. Qed.

Lemma not_flt_of_fle a b : fle b a = true -> flt a b = false.
Proof. float_cases a; float_cases b; intros; float_order. Qed.

Lemma flt_incomparable_trans a b c :
  is_nan a = false -> is_nan b = false -> is_nan c = false ->
  flt a b = false -> flt b a = false -> flt b c = false -> flt c b = false ->
  flt a c = false /\ flt c a = false.
Proof.
  intros Ha Hb Hc Hab Hba Hbc Hcb.
  apply fle_of_not_flt in Hab, Hba, Hbc, Hcb; try assumption.
  split; apply not_flt_of_fle; eapply fle_trans; eassumption.
Qed.

(** X12. On a range of primitives none of whose centers along the axis -
    computed as the comparator computes them - is a NaN, the comparator
    that [Subdivide] hands to [std::sort] is a strict weak ordering, as
    [std::sort] requires. *)
Theorem center_less_strict_weak_order (deref : Handle -> Primitive) (a : Axis)
        (l : list Handle) :
  (forall h, In h l -> is_nan (center deref a h) = false) ->
  strict_weak_order_on l (center_less deref a).
Proof.
  intros Hn. unfold strict_weak_order_on.
  change (center_less deref a) with (fun p1 p2 => flt (center deref a p1) (center deref a p2)).
  cbv beta. split; [|split].
  - intros x _. apply flt_irrefl.
  - intros x y z _ _ _. apply flt_trans.
  - intros x y z Hx Hy Hz. apply flt_incomparable_trans; auto.
Qed.

(** ** The rule of subdivision *)

Section SplitRule.
Variable deref : Handle -> Primitive.
Context {sorter : StdSort}.
Variables maxNumLevels minPrimitivesPerNode : Z.

Lemma Subdivide_count fuel pre mid post cur node v' :
  Subdivide deref fuel (pre ++ mid ++ post) (length pre) (length pre + length mid)
            cur maxNumLevels minPrimitivesPerNode = Some (node, v') ->
  count node = length mid /\
  exists mid', v' = pre ++ mid' ++ post /\ length mid' = length mid.
Proof.
  intros H. apply Subdivide_frame in H. destruct H as (mid' & -> & Hp & Hb & _).
  apply built_over_leaves in Hb. unfold count. rewrite Hb.
  apply Permutation_length in Hp. eauto.
Qed.

Lemma Subdivide_split fuel : forall pre mid post cur node v',
  0 <= cur <= u32 (maxNumLevels - 1) ->
  Subdivide deref fuel (pre ++ mid ++ post) (length pre) (length pre + length mid)
            cur maxNumLevels minPrimitivesPerNode = Some (node, v') ->
  split_rule (u32 (maxNumLevels - 1)) minPrimitivesPerNode cur node.
Proof.
  induction fuel as [|fuel IH]; intros pre mid post cur node v' Hc H; [discriminate|].
  rewrite Subdivide_unfold in H. cbv zeta in H.
  rewrite range_frame in H.
  replace (length pre + length mid - length pre)%nat with (length mid) in H by lia.
  destruct (Z.of_nat (length mid) <=? minPrimitivesPerNode) eqn:Hsize; simpl in H.
  { injection H as <- <-. simpl. left. apply Z.leb_le, Hsize. }
  destruct (cur =? u32 (maxNumLevels - 1)) eqn:E.
  { injection H as <- <-. simpl. right. apply Z.eqb_eq, E. }
  apply Z.leb_gt in Hsize. apply Z.eqb_neq in E.
  assert (Hnext : u32 (cur + 1) = cur + 1) by u32_arith.
  rewrite Hnext in H.
  assert (Hc' : 0 <= cur + 1 <= u32 (maxNumLevels - 1)) by lia.
  destruct (sort_and_scan_frame deref (fold_left (Extent_step deref) mid Extent_init)
              pre mid post) as (s & k & Hs & Hperm & Hk).
  rewrite Hs in H.
  assert (Hlen : length s = length mid) by (apply Permutation_length, Hperm).
  destruct (avoid_degenerate_bounds (length pre) (length pre + length mid) (length pre + k))
    as [Hb Hstrict]; [lia|].
  set (i := avoid_degenerate (length pre) (length pre + length mid) (length pre + k)) in *.
  set (A := take (i - length pre) s). set (B := drop (i - length pre) s).
  assert (HA : length A = (i - length pre)%nat) by (unfold A; rewrite length_take; lia).
  assert (Hsplit : s = A ++ B) by (unfold A, B; symmetry; apply take_drop).
  assert (HB : length B = (length pre + length mid - i)%nat)
    by (unfold B; rewrite length_drop; lia).
  replace i with (length pre + length A)%nat in H by lia.
  rewrite Hsplit, <- (app_assoc A B post) in H.
  destruct (Subdivide deref fuel (pre ++ A ++ B ++ post) _ _ _ _ _) as [[lo v2]|] eqn:Hlo in H;
    [|discriminate].
  pose proof (IH _ _ _ _ _ _ Hc' Hlo) as Rlo.
  apply Subdivide_count in Hlo. destruct Hlo as (Clo & A' & -> & HlenA).
  rewrite (app_assoc pre A' (B ++ post)) in H.
  replace (length pre + length A)%nat with (length (pre ++ A')) in H
    by (rewrite length_app; lia).
  replace (length pre + length mid)%nat with (length (pre ++ A') + length B)%nat in H
    by (rewrite length_app; lia).
  destruct (Subdivide deref fuel ((pre ++ A') ++ B ++ post) _ _ _ _ _) as [[hi v3]|] eqn:Hhi in H;
    [|discriminate].
  pose proof (IH _ _ _ _ _ _ Hc' Hhi) as Rhi.
  apply Subdivide_count in Hhi. destruct Hhi as (Chi & _).
  injection H as <- <-. simpl. rewrite Clo, Chi.
  split; [lia|]. split; [lia|]. split; [lia|]. split; assumption.
Qed.

End SplitRule.

(** ** Sizes of a built tree *)

Section TreeSize.
Variable deref : Handle -> Primitive.

Lemma built_over_full : forall n l,
  built_over deref n l -> (length (nodes n) + 1 = 2 * length (leaves n))%nat.
Proof.
  induction n as [a b c d e f lo hi ps IHlo IHhi] using BoundingBox_tree_ind.
  intros l [_ H]. destruct lo as [nl|], hi as [nh|]; simpl in *; try contradiction.
  - destruct H as (_ & l1 & l2 & _ & H1 & H2).
    pose proof (IHlo nl eq_refl l1 H1). pose proof (IHhi nh eq_refl l2 H2).
    rewrite !length_app. lia.
  - reflexivity.
Qed.

Lemma built_over_well_formed_sizes : forall n l,
  built_over deref n l ->
  every_node (fun m => well_formed_node m = true) n ->
  (1 <= length (leaves n) <= length l)%nat /\ (depth n <= length l)%nat /\
  Forall (fun ps => ps <> []) (leaves n).
Proof.
  induction n as [a b c d e f lo hi ps IHlo IHhi] using BoundingBox_tree_ind.
  intros l [_ H] Hwf. unfold every_node in Hwf. cbn [nodes] in Hwf.
  apply Forall_cons in Hwf. destruct Hwf as [Hhere Hbelow].
  apply Forall_app in Hbelow. destruct Hbelow as [Hwlo Hwhi].
  destruct lo as [nl|], hi as [nh|]; simpl in *; try contradiction.
  - destruct H as (_ & l1 & l2 & -> & H1 & H2).
    destruct (IHlo nl eq_refl l1 H1 Hwlo) as (A1 & B1 & C1).
    destruct (IHhi nh eq_refl l2 H2 Hwhi) as (A2 & B2 & C2).
    rewrite !length_app. split; [lia|]. split; [lia|]. apply Forall_app. auto.
  - subst ps. destruct l as [|h l]; [discriminate Hhere|].
    simpl. split; [lia|]. split; [lia|]. constructor; [discriminate|constructor].
Qed.

Lemma well_formed_compilable : forall n,
  every_node (fun m => well_formed_node m = true) n -> compilable n.
Proof.
  induction n as [a b c d e f lo hi ps IHlo IHhi] using BoundingBox_tree_ind.
  intros Hwf. unfold every_node in Hwf. cbn [nodes] in Hwf.
  apply Forall_cons in Hwf. destruct Hwf as [Hhere Hbelow].
  apply Forall_app in Hbelow. destruct Hbelow as [Hwlo Hwhi].
  destruct ps as [|p ps]; [|exact I].
  destruct lo as [l|], hi as [h|]; try discriminate Hhere.
  simpl. split; [apply (IHlo l eq_refl), Hwlo|apply (IHhi h eq_refl), Hwhi].
Qed.

End TreeSize.

Section Trees.
Variable deref : Handle -> Primitive.
Context {sorter : StdSort}.

(** X3. The tree of the constructor follows the rule of [Subdivide] at
    every node, the root being on level 0 and the last level being
    [maxNumLevels - 1] in 32-bit arithmetic (level 2^32 - 1 for
    [maxNumLevels = 0]): a node without children holds at most
    [minPrimitivesPerNode] primitives or lies on the last level; a node
    with children lies above that level, has more than
    [minPrimitivesPerNode] primitives below it, and when it has more than
    two below it each child has at least one.  The leaves, from left to
    right, are consecutive pieces of the reordered vector. *)
Theorem BVH_new_split_rule primitives maxNumLevels minPrimitivesPerNode :
  exists root primitives',
    BVH_new deref primitives maxNumLevels minPrimitivesPerNode
    = Some (mkBVH (Some root), primitives')
    /\ split_rule (u32 (maxNumLevels - 1)) minPrimitivesPerNode 0 root
    /\ concat (leaves root) = primitives'
    /\ count root = length primitives.
Proof.
  destruct (BVH_new_built deref primitives maxNumLevels minPrimitivesPerNode)
    as (root & v' & H & Hperm & Hbuilt).
  exists root, v'. split; [exact H|].
  unfold BVH_new in H.
  destruct (Subdivide deref _ primitives _ _ _ _ _) as [[r v]|] eqn:Hs; [|discriminate].
  injection H as <- <-.
  pose proof (Subdivide_split deref maxNumLevels minPrimitivesPerNode
                (levels_left 0 maxNumLevels) [] primitives [] 0 r v) as F.
  simpl in F. rewrite app_nil_r in F.
  split; [apply F; [u32_arith|exact Hs]|].
  pose proof (built_over_leaves deref r v Hbuilt) as Hleaves.
  split; [exact Hleaves|].
  unfold count. rewrite Hleaves. apply Permutation_length, Hperm.
Qed.

(** X4. Built over a non-empty vector with [minPrimitivesPerNode >= 2],
    the tree has only the two kinds of node of the data model: every node
    is a leaf (no children, primitives) or an internal node (two
    children, no primitives), and no leaf is left without primitives. *)
Theorem BVH_new_nonempty_scene_nodes primitives maxNumLevels minPrimitivesPerNode :
  2 <= minPrimitivesPerNode ->
  primitives <> [] ->
  exists root primitives',
    BVH_new deref primitives maxNumLevels minPrimitivesPerNode
    = Some (mkBVH (Some root), primitives')
    /\ every_node (fun n => (is_leaf n = true /\ is_internal n = false)
                            \/ (is_leaf n = false /\ is_internal n = true)) root
    /\ Forall (fun ps => ps <> []) (leaves root).
Proof.
  intros Hmin Hne.
  destruct (BVH_new_built deref primitives maxNumLevels minPrimitivesPerNode)
    as (root & v' & H & Hperm & Hbuilt).
  destruct (BVH_new_well_formed deref primitives maxNumLevels minPrimitivesPerNode Hmin Hne)
    as (root' & v'' & H' & Hwf).
  rewrite H in H'. injection H' as <- <-.
  exists root, v'. split; [exact H|]. split.
  - unfold every_node in *. eapply Forall_impl; [exact Hwf|].
    intros n Hn. unfold well_formed_node in Hn.
    destruct (is_leaf n), (is_internal n); try discriminate; auto.
  - apply (built_over_well_formed_sizes deref root v' Hbuilt Hwf).
Qed.

(** X5. Built over a non-empty vector with [minPrimitivesPerNode >= 2],
    the tree has one node less than twice its leaves, at most as many
    leaves as there are primitives, and at most as many levels. *)
Theorem BVH_new_tree_size primitives maxNumLevels minPrimitivesPerNode :
  2 <= minPrimitivesPerNode ->
  primitives <> [] ->
  exists root primitives',
    BVH_new deref primitives maxNumLevels minPrimitivesPerNode
    = Some (mkBVH (Some root), primitives')
    /\ (length (nodes root) + 1 = 2 * length (leaves root))%nat
    /\ (length (leaves root) <= length primitives)%nat
    /\ (depth root <= length primitives)%nat.
Proof.
  intros Hmin Hne.
  destruct (BVH_new_built deref primitives maxNumLevels minPrimitivesPerNode)
    as (root & v' & H & Hperm & Hbuilt).
  destruct (BVH_new_well_formed deref primitives maxNumLevels minPrimitivesPerNode Hmin Hne)
    as (root' & v'' & H' & Hwf).
  rewrite H in H'. injection H' as <- <-.
  exists root, v'. split; [exact H|].
  destruct (built_over_well_formed_sizes deref root v' Hbuilt Hwf) as (A & B & _).
  rewrite (Permutation_length Hperm) in A, B.
  split; [eapply built_over_full; eauto|]. split; lia.
Qed.

Lemma built_over_holds n l h :
  built_over deref n l -> In h l -> box_defined (deref h) ->
  primitive_inside (deref h) n.
Proof.
  intros Hn Hin (N1 & N2 & N3 & N4 & N5 & N6). unfold primitive_inside.
  destruct (built_over_box deref n l Hn) as (l0 & Hp & -> & -> & -> & -> & -> & ->).
  assert (Hin0 : In h l0) by (eapply Permutation_in; [symmetry; exact Hp|exact Hin]).
  destruct sentinel_not_nan as [Hs Hs'].
  repeat split;
    first [apply (run_min_le_elem (fun h => GetXmin (deref h)))
          |apply (run_max_ge_elem (fun h => GetXmax (deref h)))
          |apply (run_min_le_elem (fun h => GetYmin (deref h)))
          |apply (run_max_ge_elem (fun h => GetYmax (deref h)))
          |apply (run_min_le_elem (fun h => GetZmin (deref h)))
          |apply (run_max_ge_elem (fun h => GetZmax (deref h)))]; assumption.
Qed.

Lemma built_over_contains_defined : forall n l,
  built_over deref n l ->
  (forall h, In h l -> box_defined (deref h)) ->
  every_node (contains_below deref) n.
Proof.
  induction n as [a b c d e g lo hi ps IHlo IHhi] using BoundingBox_tree_ind.
  intros l Hn Hw. unfold every_node. pose proof Hn as [_ H].
  destruct lo as [nl|], hi as [nh|]; try contradiction.
  - destruct H as (-> & l1 & l2 & -> & H1 & H2). simpl nodes.
    constructor.
    + split; [|discriminate]. simpl. intros ch [Hc|Hc]; injection Hc as <-.
      * eapply built_over_box_inside; [exact Hn|exact H1|].
        intros h Hh. apply in_or_app. auto.
      * eapply built_over_box_inside; [exact Hn|exact H2|].
        intros h Hh. apply in_or_app. auto.
    + apply Forall_app. split.
      * eapply (IHlo nl eq_refl); [exact H1|]. intros h Hh. apply Hw, in_or_app. auto.
      * eapply (IHhi nh eq_refl); [exact H2|]. intros h Hh. apply Hw, in_or_app. auto.
  - simpl in H. subst ps. simpl nodes. constructor; [|constructor].
    split; [simpl; intros ch [Hc|Hc]; discriminate|].
    intros _ h Hh. simpl in Hh. eapply built_over_holds; eauto.
Qed.

(** X6. When no box coordinate of an input primitive is a NaN - wherever
    the boxes lie, also beyond the sentinels - every node's box contains
    the boxes of its children and, at a leaf, of its stored primitives,
    and the root box contains the box of every input primitive. *)
Theorem Subdivide_boxes_contain primitives maxNumLevels minPrimitivesPerNode :
  (forall h, In h primitives -> box_defined (deref h)) ->
  exists root primitives',
    BVH_new deref primitives maxNumLevels minPrimitivesPerNode
    = Some (mkBVH (Some root), primitives')
    /\ every_node (contains_below deref) root
    /\ forall h, In h primitives -> primitive_inside (deref h) root.
Proof.
  intros Hw.
  destruct (BVH_new_built deref primitives maxNumLevels minPrimitivesPerNode)
    as (root & v' & H & Hperm & Hbuilt).
  exists root, v'. split; [exact H|].
  assert (Hw' : forall h, In h v' -> box_defined (deref h)).
  { intros h Hh. apply Hw. eapply Permutation_in; [exact Hperm|exact Hh]. }
  split; [eapply built_over_contains_defined; eauto|].
  intros h Hh. eapply built_over_holds; eauto.
  eapply Permutation_in; [symmetry; exact Hperm|exact Hh].
Qed.

End Trees.

(** ** Boxes, exactly *)

Lemma feq_fle a b : feq a b = true -> fle a b = true.
Proof. float_cases a; float_cases b; intros; float_order. Qed.

Section BoundsExactly.
Variable f : Handle -> float.

Lemma run_min_attained_iff l s :
  is_nan s = false ->
  (exists h, In h l /\ feq (run_min f l s) (f h) = true)
  <-> (exists h, In h l /\ fle (f h) s = true).
Proof.
  intros Hs. split.
  - intros (h & Hin & E). exists h. split; [exact Hin|].
    eapply fle_trans; [apply feq_fle, feq_sym, E|apply run_min_le_init, Hs].
  - intros (h & Hin & Hle).
    destruct (run_min_cases f l s) as [E|(h' & Hin' & E)].
    + exists h. split; [exact Hin|]. rewrite E.
      apply feq_of_fle_not_flt; [exact Hle|].
      rewrite <- E. apply run_min_bound, Hin.
    + exists h'. split; [exact Hin'|]. rewrite E. apply feq_refl.
      rewrite <- E. apply run_min_not_nan, Hs.
Qed.

Lemma run_max_attained_iff l s :
  is_nan s = false ->
  (exists h, In h l /\ feq (run_max f l s) (f h) = true)
  <-> (exists h, In h l /\ fle s (f h) = true).
Proof.
  intros Hs. split.
  - intros (h & Hin & E). exists h. split; [exact Hin|].
    eapply fle_trans; [apply run_max_ge_init, Hs|apply feq_fle, E].
  - intros (h & Hin & Hle).
    destruct (run_max_cases f l s) as [E|(h' & Hin' & E)].
    + exists h. split; [exact Hin|]. rewrite E.
      apply feq_of_fle_not_flt_r; [exact Hle|].
      rewrite <- E at 1. apply run_max_bound, Hin.
    + exists h'. split; [exact Hin'|]. rewrite E. apply feq_refl.
      rewrite <- E. apply run_max_not_nan, Hs.
Qed.

End BoundsExactly.

Section BoxesExactly.
Variable deref : Handle -> Primitive.
Context {sorter : StdSort}.

Lemma primitive_inside_defined p n : primitive_inside p n -> box_defined p.
Proof.
  intros (H1 & H2 & H3 & H4 & H5 & H6).
  repeat split;
    first [eapply fle_not_nan_r; eassumption|eapply fle_not_nan_l; eassumption].
Qed.

Lemma box_is_union_defined ps n : box_is_union ps n -> forall p, In p ps -> box_defined p.
Proof.
  intros ([H1 _] & [H2 _] & [H3 _] & [H4 _] & [H5 _] & [H6 _]) p Hp.
  repeat split.
  - eapply fle_not_nan_r, (H1 p Hp).
  - eapply fle_not_nan_l, (H2 p Hp).
  - eapply fle_not_nan_r, (H3 p Hp).
  - eapply fle_not_nan_l, (H4 p Hp).
  - eapply fle_not_nan_r, (H5 p Hp).
  - eapply fle_not_nan_l, (H6 p Hp).
Qed.

Lemma built_over_contained_defined : forall n l,
  built_over deref n l ->
  every_node (contains_below deref) n ->
  forall h, In h l -> box_defined (deref h).
Proof.
  induction n as [a b c d e g lo hi ps IHlo IHhi] using BoundingBox_tree_ind.
  intros l Hn Hall h Hh. unfold every_node in Hall. pose proof Hn as [_ H].
  destruct lo as [nl|], hi as [nh|]; try contradiction.
  - destruct H as (-> & l1 & l2 & -> & H1 & H2). simpl nodes in Hall.
    apply Forall_cons in Hall. destruct Hall as [_ Hall].
    apply Forall_app in Hall. destruct Hall as [Hl Hr].
    apply in_app_or in Hh. destruct Hh as [Hh|Hh].
    + exact (IHlo nl eq_refl l1 H1 Hl h Hh).
    + exact (IHhi nh eq_refl l2 H2 Hr h Hh).
  - simpl in H. subst ps. simpl nodes in Hall.
    apply Forall_cons in Hall. destruct Hall as [[_ Hleaf] _].
    eapply primitive_inside_defined. apply Hleaf; [reflexivity|exact Hh].
Qed.

Lemma built_over_union_iff n l :
  built_over deref n l ->
  (forall h, In h l -> box_defined (deref h)) ->
  box_is_union (map deref l) n <-> reaches_sentinels (map deref l).
Proof.
  intros Hn Hd. unfold box_is_union, reaches_sentinels.
  destruct (built_over_box deref n l Hn) as (l0 & Hp & -> & -> & -> & -> & -> & ->).
  assert (Hin0 : forall h, In h l -> In h l0)
    by (intros h Hh; eapply Permutation_in; [symmetry; exact Hp|exact Hh]).
  assert (Hin1 : forall h, In h l0 -> In h l)
    by (intros h Hh; eapply Permutation_in; [exact Hp|exact Hh]).
  destruct sentinel_not_nan as [Hs Hs'].
  assert (Hex : forall (P : Primitive -> Prop),
             (exists p, In p (map deref l) /\ P p) <-> (exists h, In h l0 /\ P (deref h))).
  { intros P. split.
    - intros (p & Hp' & HP). apply in_map_iff in Hp'. destruct Hp' as (h & <- & Hh).
      exists h. auto.
    - intros (h & Hh & HP). exists (deref h). split; [apply in_map; auto|exact HP]. }
  assert (Hlo : forall g s, is_nan s = false ->
             (forall h, In h l -> is_nan (g (deref h)) = false) ->
             least_of g (map deref l) (run_min (fun h => g (deref h)) l0 s)
             <-> (exists p, In p (map deref l) /\ fle (g p) s = true)).
  { intros g s Hns Hg. unfold least_of.
    rewrite (Hex (fun p => feq (run_min (fun h => g (deref h)) l0 s) (g p) = true)).
    rewrite (Hex (fun p => fle (g p) s = true)).
    rewrite (run_min_attained_iff (fun h => g (deref h)) l0 s Hns).
    split; [intros [_ H]; exact H|]. intros H. split; [|exact H].
    intros p Hp'. apply in_map_iff in Hp'. destruct Hp' as (h & <- & Hh).
    apply (run_min_le_elem (fun h => g (deref h))); auto. }
  assert (Hhi : forall g s, is_nan s = false ->
             (forall h, In h l -> is_nan (g (deref h)) = false) ->
             greatest_of g (map deref l) (run_max (fun h => g (deref h)) l0 s)
             <-> (exists p, In p (map deref l) /\ fle s (g p) = true)).
  { intros g s Hns Hg. unfold greatest_of.
    rewrite (Hex (fun p => feq (run_max (fun h => g (deref h)) l0 s) (g p) = true)).
    rewrite (Hex (fun p => fle s (g p) = true)).
    rewrite (run_max_attained_iff (fun h => g (deref h)) l0 s Hns).
    split; [intros [_ H]; exact H|]. intros H. split; [|exact H].
    intros p Hp'. apply in_map_iff in Hp'. destruct Hp' as (h & <- & Hh).
    apply (run_max_ge_elem (fun h => g (deref h))); auto. }
  change (fun h => GetXmin (deref h)) with (fun h => Xmin (deref h)).
  change (fun h => GetXmax (deref h)) with (fun h => Xmax (deref h)).
  change (fun h => GetYmin (deref h)) with (fun h => Ymin (deref h)).
  change (fun h => GetYmax (deref h)) with (fun h => Ymax (deref h)).
  change (fun h => GetZmin (deref h)) with (fun h => Zmin (deref h)).
  change (fun h => GetZmax (deref h)) with (fun h => Zmax (deref h)).
  rewrite (Hlo Xmin f_99e29 Hs) by (intros h Hh; apply (Hd h Hh)).
  rewrite (Hhi Xmax (SFopp f_99e29) Hs') by (intros h Hh; apply (Hd h Hh)).
  rewrite (Hlo Ymin f_99e29 Hs) by (intros h Hh; apply (Hd h Hh)).
  rewrite (Hhi Ymax (SFopp f_99e29) Hs') by (intros h Hh; apply (Hd h Hh)).
  rewrite (Hlo Zmin f_99e29 Hs) by (intros h Hh; apply (Hd h Hh)).
  rewrite (Hhi Zmax (SFopp f_99e29) Hs') by (intros h Hh; apply (Hd h Hh)).
  reflexivity.
Qed.

Lemma reaches_sentinels_same_elements ps ps' :
  (forall p, In p ps <-> In p ps') -> reaches_sentinels ps -> reaches_sentinels ps'.
Proof.
  intros Hiff (H1 & H2 & H3 & H4 & H5 & H6).
  repeat split;
    match goal with
    | H : exists p, In p ps /\ ?P |- exists q, In q ps' /\ _ =>
        destruct H as (p & Hp & HP); exists p; split; [apply Hiff, Hp|exact HP]
    end.
Qed.

(** C4, amended. For every input, [Subdivide] returns a tree in which
    every node's box contains the boxes of its children and, at a leaf, of
    its stored primitives exactly when no input primitive has a NaN among
    its six box coordinates; and the root box is the union of the boxes of
    all input primitives exactly when, besides, on each axis some primitive
    begins at or below [99.0e+29f] and some primitive ends at or above
    [-99.0e+29f], the values the running bounds start from. *)
Theorem Subdivide_boxes_exactly primitives maxNumLevels minPrimitivesPerNode :
  exists root primitives',
    BVH_new deref primitives maxNumLevels minPrimitivesPerNode
    = Some (mkBVH (Some root), primitives')
    /\ (every_node (contains_below deref) root
        <-> forall h, In h primitives -> box_defined (deref h))
    /\ (box_is_union (map deref primitives) root
        <-> (forall h, In h primitives -> box_defined (deref h))
            /\ reaches_sentinels (map deref primitives)).
Proof.
  destruct (BVH_new_built deref primitives maxNumLevels minPrimitivesPerNode)
    as (root & v' & H & Hperm & Hbuilt).
  exists root, v'. split; [exact H|].
  assert (Hto : forall h, In h primitives -> In h v')
    by (intros h Hh; eapply Permutation_in; [symmetry; exact Hperm|exact Hh]).
  assert (Hfrom : forall h, In h v' -> In h primitives)
    by (intros h Hh; eapply Permutation_in; [exact Hperm|exact Hh]).
  assert (Hsame : forall p, In p (map deref v') <-> In p (map deref primitives)).
  { intros p. split; intros Hp; eapply Permutation_in; try exact Hp;
      apply Permutation_map; [exact Hperm|symmetry; exact Hperm]. }
  split.
  - split.
    + intros Hall h Hh. eapply built_over_contained_defined; eauto.
    + intros Hd. eapply built_over_contains_defined; eauto.
  - split.
    + intros Hu.
      assert (Hd : forall h, In h primitives -> box_defined (deref h)).
      { intros h Hh. eapply box_is_union_defined; [exact Hu|]. apply in_map, Hh. }
      split; [exact Hd|].
      apply (reaches_sentinels_same_elements (map deref v')); [exact Hsame|].
      apply (built_over_union_iff root v' Hbuilt); [auto|].
      apply (box_is_union_same_elements (map deref primitives)); [|exact Hu].
      intros p. symmetry. apply Hsame.
    + intros [Hd Hr].
      apply (box_is_union_same_elements (map deref v')); [exact Hsame|].
      apply (built_over_union_iff root v' Hbuilt); [auto|].
      apply (reaches_sentinels_same_elements (map deref primitives)); [|exact Hr].
      intros p. symmetry. apply Hsame.
Qed.

End BoxesExactly.

(** ** The size of a compiled tree *)

Lemma list_sum_Permutation (l l' : list nat) :
  Permutation l l' -> list_sum l = list_sum l'.
Proof. induction 1; simpl; lia. Qed.

Lemma list_sum_bound {A} (f : A -> nat) (b : nat) (l : list A) :
  (forall x, f x <= b)%nat -> (list_sum (map f l) <= b * length l)%nat.
Proof.
  intros Hf. induction l as [|x l IH]; simpl; [lia|]. specialize (Hf x). lia.
Qed.

Section CompiledSize.
Variable deref : Handle -> Primitive.
Context {sorter : StdSort}.

Lemma StoreIntoBVH_record_quads p :
  length (StoreIntoBVH p []) = (4 * record_quads (GetType p))%nat.
Proof.
  rewrite StoreIntoBVH_length, StoreDataIntoBVH_length. unfold GetType.
  destruct (shape p); reflexivity.
Qed.

Lemma flat_map_StoreIntoBVH_length l :
  length (flat_map (fun h => StoreIntoBVH (deref h) []) l)
  = (4 * list_sum (map (fun h => record_quads (GetType (deref h))) l))%nat.
Proof.
  induction l as [|h l IH]; [reflexivity|].
  simpl. rewrite length_app, IH, StoreIntoBVH_record_quads. lia.
Qed.

Lemma slots_built : forall n l,
  built_over deref n l -> compilable n ->
  slots deref n
  = (4 * (3 * length (nodes n)
          + list_sum (map (fun h => record_quads (GetType (deref h))) l)))%nat.
Proof.
  induction n as [a b c d e f lo hi ps IHlo IHhi] using BoundingBox_tree_ind.
  intros l [_ H] Hc. destruct lo as [nl|], hi as [nh|]; try contradiction.
  - destruct H as (-> & l1 & l2 & -> & H1 & H2). simpl in Hc. destruct Hc as [Hcl Hch].
    cbn [slots nodes length]. rewrite length_app, map_app, list_sum_app.
    rewrite (IHlo nl eq_refl l1 H1 Hcl), (IHhi nh eq_refl l2 H2 Hch). lia.
  - subst ps. destruct l as [|h l]; [contradiction|].
    cbn [slots nodes length app]. rewrite flat_map_StoreIntoBVH_length. lia.
Qed.

(** X7. A compilation of a built tree that returns has appended three
    quads for every node of the tree and, for every input primitive, the
    quads of its kind: two for a sphere, three for a disc, four for a
    triangle, five for a cone. *)
Theorem Compile_size primitives maxNumLevels minPrimitivesPerNode bvh primitives' data data' :
  BVH_new deref primitives maxNumLevels minPrimitivesPerNode = Some (bvh, primitives') ->
  Compile deref bvh data = Done data' ->
  exists root,
    Root bvh = Some root /\
    length data'
    = (length data
       + 4 * (3 * length (nodes root)
              + list_sum (map (fun h => record_quads (GetType (deref h))) primitives)))%nat.
Proof.
  intros Hnew H.
  destruct (BVH_new_built deref primitives maxNumLevels minPrimitivesPerNode)
    as (root & v' & Hnew' & Hperm & Hbuilt).
  rewrite Hnew' in Hnew. injection Hnew as <- <-.
  apply Compile_emit in H. destruct H as (root' & Hroot & Hc & ->).
  simpl in Hroot. injection Hroot as <-.
  exists root. split; [reflexivity|].
  rewrite length_app, emit_length by exact Hc.
  rewrite (slots_built root v' Hbuilt Hc).
  rewrite (list_sum_Permutation _ _
             (Permutation_map (fun h => record_quads (GetType (deref h))) Hperm)).
  reflexivity.
Qed.

(** X8. On a scene that is not empty and has at most 2^31/44 primitives,
    [SetPrimitives] gets a buffer from the compiler - no null pointer is
    dereferenced and the assertion holds - the caller's vector is
    reordered, and the buffer is a whole number of quads, at least 20 and
    at most [44 * n - 12] slots for [n] primitives. *)
Theorem SetPrimitives_returns primitives :
  primitives <> [] ->
  44 * Z.of_nat (length primitives) <= 2 ^ 31 ->
  exists tree primitives' compiledTree,
    SetPrimitives deref primitives = Some (tree, primitives', Done compiledTree)
    /\ Permutation primitives' primitives
    /\ (length compiledTree mod 4 = 0)%nat
    /\ (20 <= length compiledTree <= 44 * length primitives - 12)%nat.
Proof.
  intros Hne Hsize. change (2 ^ 31) with 2147483648 in Hsize.
  destruct (BVH_new_built deref primitives 1024 2) as (root & v' & Hnew & Hperm & Hbuilt).
  assert (Hmin : 2 <= 2) by lia.
  destruct (BVH_new_well_formed deref primitives 1024 2 Hmin Hne)
    as (root' & v'' & Hnew' & Hwf).
  rewrite Hnew in Hnew'. injection Hnew' as <- <-.
  destruct (built_over_well_formed_sizes deref root v' Hbuilt Hwf) as (Hleaves & _ & Hfull).
  pose proof (built_over_full deref root v' Hbuilt) as Hnodes.
  rewrite (Permutation_length Hperm) in Hleaves.
  pose proof (well_formed_compilable root Hwf) as Hcomp.
  pose proof (slots_built root v' Hbuilt Hcomp) as Hslots.
  pose proof (list_sum_bound (fun h => record_quads (GetType (deref h))) 5 v') as Hsum.
  rewrite (Permutation_length Hperm) in Hsum.
  assert (Hq : forall h, (record_quads (GetType (deref h)) <= 5)%nat)
    by (intros h; destruct (GetType (deref h)); simpl; lia).
  specialize (Hsum Hq).
  assert (Hlow : (2 <= list_sum (map (fun h => record_quads (GetType (deref h))) v'))%nat).
  { destruct v' as [|h v']; [apply Permutation_nil in Hperm; congruence|].
    simpl. destruct (GetType (deref h)); simpl; lia. }
  destruct (CompileFrom_well_formed deref root [] 0 false true Hwf) as [compiledTree Hdone].
  { simpl length. change (2 ^ 31) with 2147483648. rewrite Hslots. lia. }
  exists (mkBVH (Some root)), v', compiledTree.
  unfold SetPrimitives. rewrite Hnew. unfold Compile. cbn [Root]. rewrite Hdone.
  split; [reflexivity|]. split; [exact Hperm|].
  apply CompileFrom_emit in Hdone. destruct Hdone as [-> _].
  simpl app. rewrite emit_length by exact Hcomp.
  split; [apply slots_quads|lia].
Qed.

End CompiledSize.

(** ** The records of the leaves *)

Section LeafRecords.
Variable deref : Handle -> Primitive.

Lemma emit_leaf_records : forall n pre post start p isLower isRoot,
  compilable n ->
  length pre = start ->
  Forall (leaf_record_ok deref (pre ++ emit deref n start p isLower isRoot ++ post))
         (records deref n start isLower isRoot).
Proof.
  induction n as [a b c d e f lo hi ps IHlo IHhi] using BoundingBox_tree_ind.
  intros pre post start p il ir Hc Hlen. subst start.
  destruct ps as [|h0 ps].
  - simpl in Hc. destruct lo as [l|], hi as [h|]; try contradiction.
    destruct Hc as [Hl Hh].
    pose proof (emit_length deref l (length pre + 12)
                  (u32 (Z.of_nat (length pre) / RGBA_ELEMS)) true false Hl) as Elen.
    cbn [records emit box_quads xmin xmax ymin ymax zmin zmax primitives].
    rewrite Elen.
    set (lo_part := emit deref l _ _ _ _) in *.
    set (hi_part := emit deref h _ _ _ _).
    constructor.
    + intros Hne. cbn [rec_node primitives] in Hne. congruence.
    + apply Forall_app. split.
      * replace (pre ++ _ ++ post)
          with ((pre ++ [SlotF a; SlotF c; SlotF e; SlotF RGBA_PAD;
                         SlotF b; SlotF d; SlotF f; SlotF RGBA_PAD;
                         SlotU (node_flags
                                  (mkBoundingBox a b c d e f (Some l) (Some h) []) il ir);
                         SlotU (u32 (Z.of_nat (length pre + 12) / RGBA_ELEMS));
                         SlotU (u32 (Z.of_nat (length pre + 12 + slots deref l)
                                     / RGBA_ELEMS));
                         SlotU p])
                ++ lo_part ++ (hi_part ++ post))
          by (rewrite <- !app_assoc; reflexivity).
        apply (IHlo l eq_refl); auto. rewrite length_app. reflexivity.
      * replace (pre ++ _ ++ post)
          with ((pre ++ [SlotF a; SlotF c; SlotF e; SlotF RGBA_PAD;
                         SlotF b; SlotF d; SlotF f; SlotF RGBA_PAD;
                         SlotU (node_flags
                                  (mkBoundingBox a b c d e f (Some l) (Some h) []) il ir);
                         SlotU (u32 (Z.of_nat (length pre + 12) / RGBA_ELEMS));
                         SlotU (u32 (Z.of_nat (length pre + 12 + slots deref l)
                                     / RGBA_ELEMS));
                         SlotU p] ++ lo_part)
                ++ hi_part ++ post)
          by (rewrite <- !app_assoc; reflexivity).
        apply (IHhi h eq_refl); auto.
        rewrite !length_app, Elen. cbn [length]. lia.
  - cbn [records emit box_quads xmin xmax ymin ymax zmin zmax primitives].
    constructor; [|constructor].
    intros _. cbn [rec_start rec_node primitives].
    split; [rewrite (lookup_frame pre _ 9); reflexivity|].
    split; [rewrite (lookup_frame pre _ 10); reflexivity|].
    cbv zeta.
    set (payload := flat_map (fun h => StoreIntoBVH (deref h) []) (h0 :: ps)).
    replace (pre ++ _ ++ post)
      with ((pre ++ [SlotF a; SlotF c; SlotF e; SlotF RGBA_PAD;
                     SlotF b; SlotF d; SlotF f; SlotF RGBA_PAD;
                     SlotU (node_flags (mkBoundingBox a b c d e f lo hi (h0 :: ps)) il ir);
                     SlotF RGBA_PAD; SlotF RGBA_PAD; SlotU p])
            ++ payload ++ post)
      by (rewrite <- !app_assoc; reflexivity).
    replace (length pre + 12)%nat
      with (length (pre ++ [SlotF a; SlotF c; SlotF e; SlotF RGBA_PAD;
                            SlotF b; SlotF d; SlotF f; SlotF RGBA_PAD;
                            SlotU (node_flags (mkBoundingBox a b c d e f lo hi (h0 :: ps))
                                              il ir);
                            SlotF RGBA_PAD; SlotF RGBA_PAD; SlotU p]))
      by (rewrite length_app; reflexivity).
    rewrite drop_app_length. apply take_app_length.
Qed.

(** X13. In a compiled tree the root's parent field is 0, and the record of
    every leaf is complete: its two child fields hold the padding value and
    its primitives follow the node's three quads, each as [StoreIntoBVH]
    stores it, in the order of the leaf. *)
Theorem Compile_leaf_records bvh data data' :
  Compile deref bvh data = Done data' ->
  exists root,
    Root bvh = Some root /\
    data' !! (length data + 11)%nat = Some (SlotU 0) /\
    Forall (leaf_record_ok deref data') (records deref root (length data) false true).
Proof.
  intros H. apply Compile_emit in H. destruct H as (root & Hroot & Hc & ->).
  exists root. split; [exact Hroot|]. split.
  - rewrite lookup_frame. destruct root as [a b c d e f lo hi ps].
    destruct ps; reflexivity.
  - rewrite <- (app_nil_r (emit deref root _ _ _ _)).
    apply emit_leaf_records; auto.
Qed.

End LeafRecords.

(** ** Decoders that read relative to their position *)

Create HintDb framed.

Lemma framed_ret {A} (a : A) : framed (mret a).
Proof.
  intros d i o a' c [= <- <-]. exists 0%nat, [].
  rewrite Nat.add_0_r, app_nil_r. split; [reflexivity|].
  intros. rewrite Nat.add_0_r, app_nil_r. reflexivity.
Qed.

Lemma framed_bind {A B} (m : Printer A) (f : A -> Printer B) :
  framed m -> (forall a, framed (f a)) -> framed (m ≫= f).
Proof.
  intros Hm Hf d i o b c H. unfold mbind, Printer_bind in H |- *.
  destruct (m d _) as [[a c1]|] eqn:E; [|discriminate].
  destruct (Hm _ _ _ _ _ E) as (n1 & out1 & -> & F1).
  destruct (Hf a _ _ _ _ _ H) as (n2 & out2 & -> & F2).
  exists (n1 + n2)%nat, (out1 ++ out2).
  split; [rewrite Nat.add_assoc, app_assoc; reflexivity|].
  intros pre post o'. rewrite F1.
  rewrite <- (Nat.add_assoc (length pre) i n1), F2.
  rewrite !Nat.add_assoc, app_assoc. reflexivity.
Qed.

Lemma framed_deref_incr : framed deref_incr.
Proof.
  intros d i o a c H. unfold deref_incr in *. cbn [it os] in *.
  destruct (d !! i) as [v|] eqn:E; [|discriminate]. injection H as <- <-.
  exists 1%nat, []. rewrite app_nil_r, Nat.add_1_r. split; [reflexivity|].
  intros pre post o'.
  rewrite lookup_app_r by lia.
  replace (length pre + i - length pre)%nat with i by lia.
  rewrite (lookup_app_l_Some _ _ _ _ E).
  rewrite app_nil_r, Nat.add_1_r. reflexivity.
Qed.

Lemma framed_advance k : framed (advance k).
Proof.
  intros d i o a c [= <- <-]. cbn [it os]. exists k, [].
  rewrite app_nil_r. split; [reflexivity|].
  intros. unfold advance. cbn [it os]. rewrite app_nil_r. reflexivity.
Qed.

Lemma framed_output {A} (a : A) (out : list Token) :
  framed (fun _ c => Some (a, {| it := it c; os := os c ++ out |})).
Proof.
  intros d i o a' c [= <- <-]. cbn [it os]. exists 0%nat, out.
  rewrite Nat.add_0_r. split; [reflexivity|].
  intros. cbn [it os]. rewrite Nat.add_0_r. reflexivity.
Qed.

Lemma framed_put s : framed (put s).
Proof. apply (framed_output tt [Txt s]). Qed.

Lemma framed_put_value v : framed (put_value v).
Proof. apply (framed_output tt [Num v]). Qed.

Lemma framed_put_uint n : framed (put_uint n).
Proof. apply (framed_output tt [UInt n]). Qed.

Lemma framed_put_endl : framed put_endl.
Proof. apply (framed_output tt [Endl]). Qed.

Lemma framed_if {A} (b : bool) (m1 m2 : Printer A) :
  framed m1 -> framed m2 -> framed (if b then m1 else m2).
Proof. destruct b; auto. Qed.

Lemma framed_when b m : framed m -> framed (when b m).
Proof. intros. apply framed_if; [assumption|apply framed_ret]. Qed.

#[local] Hint Resolve framed_ret framed_deref_incr framed_advance framed_put
  framed_put_value framed_put_uint framed_put_endl : framed.
#[local] Hint Extern 2 (framed (_ ≫= _)) => apply framed_bind; [|intros] : framed.
#[local] Hint Extern 2 (framed (if _ then _ else _)) => apply framed_if : framed.
#[local] Hint Extern 2 (framed (when _ _)) => apply framed_when : framed.

Lemma framed_next_value : framed next_value.
Proof. unfold next_value. auto with framed. Qed.
#[local] Hint Resolve framed_next_value : framed.

Lemma framed_next_uint32 : framed next_uint32.
Proof. unfold next_uint32. auto with framed. Qed.
#[local] Hint Resolve framed_next_uint32 : framed.

Lemma framed_put_next s : framed (put_next s).
Proof. unfold put_next. auto with framed. Qed.
#[local] Hint Resolve framed_put_next : framed.

Lemma framed_Print_primitive : framed Print_primitive.
Proof.
  unfold Print_primitive, Sphere_PrintBVH, Disc_PrintBVH, Triangle_PrintBVH,
    Triangle_PrintBVH_vertex, Cone_PrintBVH. auto 60 with framed.
Qed.

Lemma framed_Print_primitives fuel : forall i n, framed (Print_primitives fuel i n).
Proof.
  induction fuel as [|fuel IH]; intros i n; cbn [Print_primitives].
  - apply framed_if; [|apply framed_ret]. intros d j o a c H. discriminate.
  - apply framed_if; [|apply framed_ret].
    apply framed_bind; [apply framed_Print_primitive|intros; apply IH].
Qed.
#[local] Hint Resolve framed_Print_primitives : framed.

Lemma framed_Print_node_body pos fuel : framed (Print_node_body pos fuel).
Proof. unfold Print_node_body. auto 80 with framed. Qed.

Lemma framed_run {A} (m : Printer A) d a n out :
  framed m ->
  m d {| it := 0; os := [] |} = Some (a, {| it := n; os := out |}) ->
  forall pre post o,
    m (pre ++ d ++ post) {| it := length pre; os := o |}
    = Some (a, {| it := length pre + n; os := o ++ out |}).
Proof.
  intros Hm H pre post o. destruct (Hm _ _ _ _ _ H) as (n' & out' & [= -> ->] & F).
  specialize (F pre post o). rewrite !Nat.add_0_r in F. exact F.
Qed.

(** ** Running a decoder step by step *)

Lemma bind_ext {A B} (m : Printer A) (f g : A -> Printer B) data c :
  (forall a c', f a data c' = g a data c') -> (m ≫= f) data c = (m ≫= g) data c.
Proof.
  intros H. unfold mbind, Printer_bind. destruct (m data c) as [[a c']|]; [apply H|reflexivity].
Qed.

Lemma run_bind {A B} (m : Printer A) (f : A -> Printer B) data c a c' r :
  m data c = Some (a, c') -> f a data c' = r -> (m ≫= f) data c = r.
Proof. intros H <-. unfold mbind, Printer_bind. rewrite H. reflexivity. Qed.

Ltac run :=
  repeat (eapply run_bind; [reflexivity|cbv beta; cbn [it os app Nat.add as_uint32]]).

Lemma Print_node_unfold data c :
  Print_node data c = Print_node_body (it c) (length data) data c.
Proof.
  unfold Print_node, Print_node_body.
  change ((position ≫= ?f) data c) with (f (it c) data c). cbv beta.
  repeat (apply bind_ext; intros).
  destruct (has _ LEAF); repeat (apply bind_ext; intros); reflexivity.
Qed.

Lemma Print_nodes_step fuel data c c' :
  it c <> length data ->
  Print_node data c = Some (tt, c') ->
  Print_nodes (S fuel) data c = Print_nodes fuel data c'.
Proof.
  intros Hne H. cbn [Print_nodes].
  destruct (Nat.eqb_spec (it c) (length data)); [contradiction|].
  unfold mbind, Printer_bind. rewrite H. reflexivity.
Qed.

(** ** The flags as [Print] tests them *)

Lemma has_lor flags a b : has flags (Z.lor a b) = has flags a || has flags b.
Proof.
  unfold has. rewrite Z.land_lor_distr_r.
  destruct (Z.eqb_spec (Z.land flags a) 0) as [Ea|Ea];
    destruct (Z.eqb_spec (Z.land flags b) 0) as [Eb|Eb]; simpl;
    destruct (Z.eqb_spec (Z.lor (Z.land flags a) (Z.land flags b)) 0) as [E|E];
    try reflexivity; exfalso.
  - apply E. rewrite Ea, Eb. reflexivity.
  - apply Z.lor_eq_0_iff in E. tauto.
  - apply Z.lor_eq_0_iff in E. tauto.
  - apply Z.lor_eq_0_iff in E. tauto.
Qed.

Lemma has_testbit flags k : 0 <= k -> has flags (Z.shiftl 1 k) = Z.testbit flags k.
Proof.
  intros Hk. unfold has. rewrite Z.shiftl_1_l.
  destruct (Z.testbit flags k) eqn:E.
  - destruct (Z.eqb_spec (Z.land flags (2 ^ k)) 0) as [E0|]; [|reflexivity].
    apply (f_equal (fun z => Z.testbit z k)) in E0.
    rewrite Z.land_spec, E, Z.pow2_bits_true, Z.bits_0 in E0 by lia. discriminate.
  - replace (Z.land flags (2 ^ k)) with 0; [reflexivity|].
    symmetry. apply Z.bits_inj'. intros m Hm.
    rewrite Z.land_spec, Z.bits_0, Z.pow2_bits_eqb by lia.
    destruct (Z.eqb_spec k m) as [<-|]; [rewrite E; reflexivity|apply andb_false_r].
Qed.

Lemma node_flags_has n isLower isRoot :
  let flags := node_flags n isLower isRoot in
  has flags LEAF = (match primitives n with [] => false | _ :: _ => true end) /\
  has flags IS_LOWER = isLower /\
  has flags IS_ROOT = isRoot /\
  Z.land flags (u32 (Z.lnot FLAGS_MASK)) =
    match primitives n with
    | [] => 0
    | _ :: _ => Z.of_nat (length (primitives n)) mod 2 ^ 29
    end.
Proof.
  destruct (node_flags_bits n isLower isRoot) as (_ & H31 & H30 & H29 & Hc).
  cbv zeta. unfold LEAF, IS_LOWER, IS_ROOT.
  rewrite !has_testbit by lia. auto.
Qed.

(** ** [Print] on what [CompileFrom] has written *)

Lemma Print_primitive_store p :
  GetType p <> CONE ->
  Print_primitive (StoreIntoBVH p []) {| it := 0; os := [] |}
  = Some (tt, {| it := length (StoreIntoBVH p []); os := render_primitive p |}).
Proof.
  destruct p as [a b c d e f s]. unfold GetType, render_primitive. cbn [shape].
  destruct s as [[] ?|[] [] ?|[] [] []|]; intros H; [reflexivity..|congruence].
Qed.

Lemma Print_node_internal_run pos fuel n flags lowerAddr higherAddr parentAddr :
  has flags LEAF = false ->
  Print_node_body pos fuel
    (box_quads n ++ [SlotU flags; SlotU lowerAddr; SlotU higherAddr; SlotU parentAddr])
    {| it := 0; os := [] |}
  = Some (tt, {| it := 12;
                 os := render_box pos n
                       ++ render_flags (has flags IS_LOWER) (has flags IS_ROOT) false
                       ++ [Txt "lo_child at "; UInt lowerAddr; Txt ", ";
                           Txt "hi_child at "; UInt higherAddr; Txt ", ";
                           Txt "parent at "; UInt parentAddr; Endl] |}).
Proof.
  intros Hleaf. unfold Print_node_body, box_quads. cbn [app]. run.
  destruct (has flags IS_LOWER), (has flags IS_ROOT); run; rewrite Hleaf; run; reflexivity.
Qed.

Section Decoding.
Variable deref : Handle -> Primitive.

Lemma flat_map_StoreIntoBVH_long ps :
  (length ps <= length (flat_map (fun h => StoreIntoBVH (deref h) []) ps))%nat.
Proof.
  induction ps as [|h ps IH]; [reflexivity|].
  simpl. rewrite length_app, StoreIntoBVH_length. lia.
Qed.

Lemma Print_primitives_leaf ps : forall fuel i pre post o,
  Forall (fun h => GetType (deref h) <> CONE) ps ->
  (length ps <= fuel)%nat ->
  Print_primitives fuel i (i + Z.of_nat (length ps))
    (pre ++ flat_map (fun h => StoreIntoBVH (deref h) []) ps ++ post)
    {| it := length pre; os := o |}
  = Some (tt, {| it := length pre
                       + length (flat_map (fun h => StoreIntoBVH (deref h) []) ps);
                 os := o ++ flat_map (fun h => render_primitive (deref h)) ps |}).
Proof.
  induction ps as [|h ps IH]; intros fuel i pre post o Hc Hfuel.
  - simpl. rewrite Z.add_0_r, Nat.add_0_r, app_nil_r.
    destruct fuel; simpl; rewrite Z.ltb_irrefl; reflexivity.
  - apply Forall_cons in Hc. destruct Hc as [Hh Hc].
    destruct fuel as [|fuel]; [simpl in Hfuel; lia|].
    cbn [Print_primitives].
    replace (i <? i + Z.of_nat (length (h :: ps))) with true
      by (symmetry; apply Z.ltb_lt; simpl length; lia).
    cbn [flat_map]. rewrite <- app_assoc.
    unfold mbind at 1, Printer_bind at 1.
    rewrite (framed_run Print_primitive _ _ _ _ framed_Print_primitive
               (Print_primitive_store (deref h) Hh)).
    rewrite app_assoc.
    replace (length pre + length (StoreIntoBVH (deref h) []))%nat
      with (length (pre ++ StoreIntoBVH (deref h) [])) by (rewrite length_app; reflexivity).
    replace (i + Z.of_nat (length (h :: ps))) with ((i + 1) + Z.of_nat (length ps))
      by (simpl length; lia).
    rewrite IH by (auto; simpl in Hfuel; lia).
    rewrite !length_app, <- !app_assoc, Nat.add_assoc. reflexivity.
Qed.

Lemma Print_node_leaf_run pos fuel n flags parentAddr ps :
  has flags LEAF = true ->
  Z.land flags (u32 (Z.lnot FLAGS_MASK)) = Z.of_nat (length ps) ->
  Forall (fun h => GetType (deref h) <> CONE) ps ->
  (length ps <= fuel)%nat ->
  Print_node_body pos fuel
    (box_quads n ++ [SlotU flags; SlotF RGBA_PAD; SlotF RGBA_PAD; SlotU parentAddr]
       ++ flat_map (fun h => StoreIntoBVH (deref h) []) ps)
    {| it := 0; os := [] |}
  = Some (tt, {| it := 12 + length (flat_map (fun h => StoreIntoBVH (deref h) []) ps);
                 os := render_box pos n
                       ++ render_flags (has flags IS_LOWER) (has flags IS_ROOT) true
                       ++ [Txt "parent at "; UInt parentAddr; Txt ", ";
                           UInt (Z.of_nat (length ps));
                           Txt (if Z.of_nat (length ps) =? 1
                                then " primitive: " else " primitives: ")]
                       ++ flat_map (fun h => render_primitive (deref h)) ps
                       ++ [Endl] |}).
Proof.
  intros Hleaf Hcount Hcone Hfuel. unfold Print_node_body, box_quads. cbn [app]. run.
  rewrite has_lor, Hleaf, Hcount.
  destruct (has flags IS_LOWER), (has flags IS_ROOT); cbn [orb]; run.
  all: match goal with
       | |- (Print_primitives _ _ _ ≫= _) _ {| it := _; os := ?o |} = _ =>
           pose proof (Print_primitives_leaf ps fuel 0
                         [SlotF (xmin n); SlotF (ymin n); SlotF (zmin n); SlotF RGBA_PAD;
                          SlotF (xmax n); SlotF (ymax n); SlotF (zmax n); SlotF RGBA_PAD;
                          SlotU flags; SlotF RGBA_PAD; SlotF RGBA_PAD; SlotU parentAddr]
                         [] o Hcone Hfuel) as P
       end;
    rewrite app_nil_r in P; cbn [app length] in P; rewrite Z.add_0_l in P;
    (eapply run_bind; [exact P|]); cbv beta;
    unfold put_endl, render_box, render_flags, render_value; cbn [it os app];
    rewrite <- !app_assoc; reflexivity.
Qed.

Lemma Print_nodes_emit : forall n pre post o start p il ir fuel,
  compilable n ->
  every_node (decodable deref) n ->
  length pre = start ->
  (slots deref n <= fuel)%nat ->
  exists fuel',
    (fuel - slots deref n <= fuel')%nat /\
    Print_nodes fuel (pre ++ emit deref n start p il ir ++ post) {| it := start; os := o |}
    = Print_nodes fuel' (pre ++ emit deref n start p il ir ++ post)
        {| it := start + slots deref n; os := o ++ render deref n start p il ir |}.
Proof.
  induction n as [a b c d e f lo hi ps IHlo IHhi] using BoundingBox_tree_ind.
  intros pre post o start p il ir fuel Hc Hd Hlen Hfuel.
  unfold every_node in Hd. cbn [nodes] in Hd.
  apply Forall_cons in Hd. destruct Hd as [[Hcount Hcone] Hbelow].
  apply Forall_app in Hbelow. destruct Hbelow as [Hdlo Hdhi].
  cbn [primitives] in Hcount, Hcone.
  destruct (node_flags_has (mkBoundingBox a b c d e f lo hi ps) il ir)
    as (Hleaf & Hlower & Hroot & Hnum).
  cbn [primitives] in Hleaf, Hnum.
  subst start.
  destruct ps as [|h0 ps].
  - simpl in Hc. destruct lo as [l|], hi as [h|]; try contradiction.
    destruct Hc as [Hcl Hch].
    pose proof (emit_length deref l (length pre + 12)
                  (u32 (Z.of_nat (length pre) / RGBA_ELEMS)) true false Hcl) as Elen.
    cbn [slots] in Hfuel |- *.
    cbn [emit render]. rewrite Elen.
    set (flags := node_flags (mkBoundingBox a b c d e f (Some l) (Some h) []) il ir) in *.
    set (n := mkBoundingBox a b c d e f (Some l) (Some h) []).
    set (lo_part := emit deref l _ _ _ _) in *.
    set (hi_part := emit deref h _ _ _ _).
    set (hdr := [SlotU flags;
                 SlotU (u32 (Z.of_nat (length pre + 12) / RGBA_ELEMS));
                 SlotU (u32 (Z.of_nat (length pre + 12 + slots deref l) / RGBA_ELEMS));
                 SlotU p]).
    set (info := [Txt "lo_child at ";
                  UInt (u32 (Z.of_nat (length pre + 12) / RGBA_ELEMS));
                  Txt ", "; Txt "hi_child at ";
                  UInt (u32 (Z.of_nat (length pre + 12 + slots deref l) / RGBA_ELEMS));
                  Txt ", "; Txt "parent at "; UInt p; Endl]).
    set (D := pre ++ (box_quads n ++ hdr ++ lo_part ++ hi_part) ++ post).
    assert (ED1 : D = pre ++ (box_quads n ++ hdr) ++ (lo_part ++ hi_part ++ post))
      by (unfold D; rewrite <- !app_assoc; reflexivity).
    assert (ED2 : D = (pre ++ box_quads n ++ hdr) ++ lo_part ++ (hi_part ++ post))
      by (unfold D; rewrite <- !app_assoc; reflexivity).
    assert (ED3 : D = (pre ++ box_quads n ++ hdr ++ lo_part) ++ hi_part ++ post)
      by (unfold D; rewrite <- !app_assoc; reflexivity).
    assert (HlenD : (length pre + 12 <= length D)%nat)
      by (rewrite ED2, !length_app; simpl; lia).
    destruct fuel as [|fuel]; [lia|].
    assert (Hnode : Print_node D {| it := length pre; os := o |}
                    = Some (tt, {| it := length pre + 12;
                                   os := o ++ render_box (length pre) n
                                           ++ render_flags il ir false ++ info |})).
    { rewrite Print_node_unfold. cbn [it]. rewrite ED1 at 2.
      rewrite <- Hlower, <- Hroot.
      apply framed_run; [apply framed_Print_node_body|].
      apply Print_node_internal_run. exact Hleaf. }
    assert (Hne : it {| it := length pre; os := o |} <> length D) by (cbn [it]; lia).
    rewrite (Print_nodes_step fuel D _ _ Hne Hnode).
    destruct (IHlo l eq_refl (pre ++ box_quads n ++ hdr) (hi_part ++ post)
                (o ++ render_box (length pre) n ++ render_flags il ir false ++ info)
                (length pre + 12)%nat (u32 (Z.of_nat (length pre) / RGBA_ELEMS)) true false
                fuel Hcl Hdlo) as (f1 & Hf1 & E1).
    { rewrite !length_app. reflexivity. }
    { lia. }
    fold lo_part in E1. rewrite <- ED2 in E1. rewrite E1.
    destruct (IHhi h eq_refl (pre ++ box_quads n ++ hdr ++ lo_part) post
                ((o ++ render_box (length pre) n ++ render_flags il ir false ++ info)
                   ++ render deref l (length pre + 12)
                        (u32 (Z.of_nat (length pre) / RGBA_ELEMS)) true false)
                (length pre + 12 + slots deref l)%nat
                (u32 (Z.of_nat (length pre) / RGBA_ELEMS)) false false
                f1 Hch Hdhi) as (f2 & Hf2 & E2).
    { rewrite !length_app, Elen. simpl. lia. }
    { lia. }
    fold hi_part in E2. rewrite <- ED3 in E2. rewrite E2.
    exists f2. split; [lia|].
    f_equal. f_equal; [lia|].
    unfold info. rewrite <- !app_assoc. reflexivity.
  - cbn [slots] in Hfuel |- *. cbn [emit render].
    set (flags := node_flags (mkBoundingBox a b c d e f lo hi (h0 :: ps)) il ir) in *.
    set (n := mkBoundingBox a b c d e f lo hi (h0 :: ps)).
    set (payload := flat_map (fun h => StoreIntoBVH (deref h) []) (h0 :: ps)) in *.
    set (D := pre ++ (box_quads n ++ [SlotU flags; SlotF RGBA_PAD; SlotF RGBA_PAD; SlotU p]
                        ++ payload) ++ post).
    assert (HlenD : (length pre + 12 + length payload <= length D)%nat)
      by (unfold D; rewrite !length_app; simpl; lia).
    destruct fuel as [|fuel]; [lia|].
    assert (Hmod : Z.of_nat (length (h0 :: ps)) mod 2 ^ 29 = Z.of_nat (length (h0 :: ps)))
      by (apply Z.mod_small; lia).
    rewrite Hmod in Hnum.
    assert (Hnode : Print_node D {| it := length pre; os := o |}
                    = Some (tt, {| it := length pre + (12 + length payload);
                                   os := o ++ render_box (length pre) n
                                           ++ render_flags il ir true
                                           ++ [Txt "parent at "; UInt p; Txt ", ";
                                               UInt (Z.of_nat (length (h0 :: ps)));
                                               Txt (if Z.of_nat (length (h0 :: ps)) =? 1
                                                    then " primitive: " else " primitives: ")]
                                           ++ flat_map (fun h => render_primitive (deref h))
                                                (h0 :: ps)
                                           ++ [Endl] |})).
    { rewrite Print_node_unfold. cbn [it].
      rewrite <- Hlower, <- Hroot.
      apply framed_run; [apply framed_Print_node_body|].
      apply Print_node_leaf_run; [exact Hleaf|exact Hnum|exact Hcone|].
      pose proof (flat_map_StoreIntoBVH_long (h0 :: ps)) as Hlong.
      fold payload in Hlong. lia. }
    assert (Hne : it {| it := length pre; os := o |} <> length D) by (cbn [it]; lia).
    rewrite (Print_nodes_step fuel D _ _ Hne Hnode).
    exists fuel. split; [lia|]. reflexivity.
Qed.

(** X1. [Print] decodes what [Compile] has written into an empty buffer:
    when no leaf holds a cone or 2^29 primitives or more, it stays inside
    the buffer and writes, record by record in the order of the buffer,
    for every node the quad index of its record, its box, the names of
    its flags and the quad indices of its children and its parent, and
    for every primitive of a leaf its kind and the fields that were
    stored. *)
Theorem Print_follows_Compile bvh compiledTree :
  (forall root, Root bvh = Some root -> every_node (decodable deref) root) ->
  Compile deref bvh [] = Done compiledTree ->
  exists root,
    Root bvh = Some root /\
    Print compiledTree = Some (render deref root 0 0 false true).
Proof.
  intros Hd H. apply Compile_emit in H. destruct H as (root & Hroot & Hc & ->).
  exists root. split; [exact Hroot|]. specialize (Hd root Hroot).
  cbn [app length]. unfold Print.
  set (D := emit deref root 0 0 false true).
  destruct (Print_nodes_emit root [] [] [] 0%nat 0 false true (length D) Hc Hd eq_refl)
    as (fuel' & _ & E).
  { unfold D. rewrite emit_length by exact Hc. reflexivity. }
  cbn [app] in E. rewrite app_nil_r in E. fold D in E. rewrite E.
  assert (Hend : (0 + slots deref root)%nat = length D)
    by (unfold D; rewrite emit_length by exact Hc; reflexivity).
  destruct fuel'; cbn [Print_nodes it]; rewrite Hend, Nat.eqb_refl; reflexivity.
Qed.

End Decoding.

(** ** Bounding boxes of the primitives *)

Lemma fle_of_flt a b : flt a b = true -> fle a b = true.
Proof. float_cases a; float_cases b; intros; float_order. Qed.

Lemma fle_refl a : is_nan a = false -> fle a a = true.
Proof. float_cases a; intros; float_order. Qed.

Lemma std_min_le a b :
  is_nan a = false -> is_nan b = false ->
  fle (std_min a b) a = true /\ fle (std_min a b) b = true.
Proof.
  intros Ha Hb. unfold std_min. destruct (flt b a) eqn:E.
  - split; [apply fle_of_flt, E|apply fle_refl, Hb].
  - split; [apply fle_refl, Ha|apply fle_of_not_flt; assumption].
Qed.

Lemma std_max_ge a b :
  is_nan a = false -> is_nan b = false ->
  fle a (std_max a b) = true /\ fle b (std_max a b) = true.
Proof.
  intros Ha Hb. unfold std_max. destruct (flt a b) eqn:E.
  - split; [apply fle_of_flt, E|apply fle_refl, Hb].
  - split; [apply fle_refl, Ha|apply fle_of_not_flt; assumption].
Qed.

Section TriangleBox.
Variables v0 v1 v2 : Vec3f.
Variable g : Vec3f -> float.

Lemma tri_lo_run :
  tri_lo (tri_lo (tri_lo f_9e19 (g v0)) (g v1)) (g v2)
  = run_min (vertex_coordinate g v0 v1 v2) [0; 1; 2]%nat f_9e19.
Proof. reflexivity. Qed.

Lemma tri_hi_run :
  tri_hi (tri_hi (tri_hi (SFopp f_9e19) (g v0)) (g v1)) (g v2)
  = run_max (vertex_coordinate g v0 v1 v2) [0; 1; 2]%nat (SFopp f_9e19).
Proof. reflexivity. Qed.

Lemma vertex_handle v :
  In v [v0; v1; v2] ->
  exists h, In h [0; 1; 2]%nat /\ vertex_coordinate g v0 v1 v2 h = g v.
Proof.
  intros [<-|[<-|[<-|[]]]]; [exists 0%nat|exists 1%nat|exists 2%nat]; simpl; auto.
Qed.

Lemma handle_vertex h :
  In h [0; 1; 2]%nat ->
  exists v, In v [v0; v1; v2] /\ vertex_coordinate g v0 v1 v2 h = g v.
Proof.
  intros [<-|[<-|[<-|[]]]]; [exists v0|exists v1|exists v2]; simpl; auto.
Qed.

Lemma tri_spans :
  (forall v, In v [v0; v1; v2] -> within_9e19 (g v)) ->
  spans g [v0; v1; v2]
        (tri_lo (tri_lo (tri_lo f_9e19 (g v0)) (g v1)) (g v2))
        (tri_hi (tri_hi (tri_hi (SFopp f_9e19) (g v0)) (g v1)) (g v2)).
Proof.
  intros Hw. rewrite tri_lo_run, tri_hi_run.
  set (f := vertex_coordinate g v0 v1 v2).
  assert (Hs : is_nan f_9e19 = false) by reflexivity.
  assert (Hs' : is_nan (SFopp f_9e19) = false) by reflexivity.
  assert (Hh : forall h, In h [0; 1; 2]%nat -> within_9e19 (f h)).
  { intros h Hin. destruct (handle_vertex h Hin) as (v & Hv & E).
    unfold f. rewrite E. apply Hw, Hv. }
  split; [|split].
  - intros v Hv. destruct (vertex_handle v Hv) as (h & Hin & <-).
    destruct (Hh h Hin) as [Hlo Hhi].
    split; [apply run_min_le_elem|apply run_max_ge_elem]; auto;
      eapply fle_not_nan_l; eassumption.
  - destruct (run_min_attained f [0; 1; 2]%nat f_9e19) as (h & Hin & E); [discriminate| |].
    + intros h Hin. apply (Hh h Hin).
    + destruct (handle_vertex h Hin) as (v & Hv & Ev). exists v.
      unfold f in E. rewrite Ev in E. auto.
  - destruct (run_max_attained f [0; 1; 2]%nat (SFopp f_9e19)) as (h & Hin & E);
      [discriminate| |].
    + intros h Hin. apply (Hh h Hin).
    + destruct (handle_vertex h Hin) as (v & Hv & Ev). exists v.
      unfold f in E. rewrite Ev in E. auto.
Qed.

End TriangleBox.

(** X9. For a triangle whose vertex coordinates lie between [-9e+19] and
    [9e+19], the bounding box computed on construction is that of the
    vertices: along every axis its two bounds enclose the three vertices
    and each is the coordinate of one of them. *)
Theorem Triangle_box_spans_vertices v0 v1 v2 :
  (forall v, In v [v0; v1; v2] ->
     within_9e19 (Vec3f.x v) /\ within_9e19 (Vec3f.y v) /\ within_9e19 (Vec3f.z v)) ->
  let t := Triangle_new v0 v1 v2 in
  spans Vec3f.x [v0; v1; v2] (Xmin t) (Xmax t) /\
  spans Vec3f.y [v0; v1; v2] (Ymin t) (Ymax t) /\
  spans Vec3f.z [v0; v1; v2] (Zmin t) (Zmax t).
Proof.
  intros Hw. cbv zeta. unfold Triangle_new. cbn [Xmin Xmax Ymin Ymax Zmin Zmax].
  split; [|split]; apply tri_spans; intros v Hv; apply (Hw v Hv).
Qed.

(** ** The cone *)

(** X10. The bounding box of a cone contains the boxes of the two spheres
    that have its centers and radii ("as if the cone had hemispherical
    caps"), provided no coordinate of those boxes is a NaN. *)
Theorem Cone_box_contains_caps center1 center2 radius1 radius2 :
  box_defined (Sphere_new center1 radius1) ->
  box_defined (Sphere_new center2 radius2) ->
  let cone := Cone_new center1 center2 radius1 radius2 in
  box_within (Sphere_new center1 radius1) cone /\
  box_within (Sphere_new center2 radius2) cone.
Proof.
  intros (A1 & A2 & A3 & A4 & A5 & A6) (B1 & B2 & B3 & B4 & B5 & B6).
  cbv zeta. unfold box_within, Cone_new, Cone_box, Sphere_new in *.
  cbn [Xmin Xmax Ymin Ymax Zmin Zmax] in *.
  repeat split;
    first [apply std_min_le|apply std_max_ge]; assumption.
Qed.

Lemma dsub_diag a : is_number a = true -> dsub a a = S754_zero false.
Proof.
  destruct a as [[]|[]| |s m e]; try discriminate; intros _; try reflexivity.
  unfold dsub, SFsub. cbv zeta. rewrite Z.sub_diag. reflexivity.
Qed.

(** X11. A cone constructed with its two centers at the same point, of
    finite coordinates, has [AxisLen = 0], and the division by it leaves
    NaN in all three components of [UnitAxis] and in [DotAxC1]; the
    constructor has no guard against it. *)
Theorem Cone_coincident_centers center radius1 radius2 :
  is_number (F64.of_float (Vec3f.x center)) = true ->
  is_number (F64.of_float (Vec3f.y center)) = true ->
  is_number (F64.of_float (Vec3f.z center)) = true ->
  exists WidthCoeff CosB,
    shape (Cone_new center center radius1 radius2)
    = Cone center center radius1 radius2
           (Vec3f.mk S754_nan S754_nan S754_nan) (S754_zero false)
           WidthCoeff CosB S754_nan.
Proof.
  intros Hx Hy Hz. unfold Cone_new, Cone_box. cbn [shape].
  unfold Vec3d.sub, Vec3d.of_Vec3f. cbn [Vec3d.x Vec3d.y Vec3d.z].
  rewrite !dsub_diag by assumption.
  eexists. eexists. reflexivity.
Qed.

(** ** The scenes, checked *)

Example row_is_built :
  BVH_new row_heap [3; 1; 0; 2]%nat 1024 2 = Some (row_bvh, [0; 1; 2; 3]%nat).
Proof. vm_compute. reflexivity. Qed.

Example row_is_compiled : Compile row_heap row_bvh [] = Done row_compiled.
Proof. vm_compute. reflexivity. Qed.

Example row_compiled_length : length row_compiled = 92%nat.
Proof. vm_compute. reflexivity. Qed.

Example row_is_compiled_twice :
  Compile row_heap row_bvh row_compiled = Done row_compiled_twice.
Proof. vm_compute. reflexivity. Qed.

Example row_compiled_twice_length : length row_compiled_twice = 184%nat.
Proof. vm_compute. reflexivity. Qed.

(** Without a cone [Print] walks the whole buffer and finds the three
    node records where [CompileFrom] put them. *)
Example Print_plain_scene :
  exists out,
    Print plain_compiled = Some out /\ node_addresses out = [0; 3; 11].
Proof. eexists. split; vm_compute; reflexivity. Qed.

(** With the cone, [Print] leaves the buffer: [Cone::PrintBVH] reads
    behind the cone's record, which is the last of the buffer. *)
Example Print_row_scene_overruns : Print row_compiled = None.
Proof. vm_compute. reflexivity. Qed.

(** Two coincident spheres with [minPrimitivesPerNode = 1]: the split
    index lands on [to], the guard is skipped for a range of two, and the
    higher child is built over an empty range; [Compile] then dereferences
    that child's null [lower] pointer. *)
Example coincident_pair_null_dereference :
  exists bvh,
    BVH_new coincident_heap [0; 1]%nat 2 1 = Some (bvh, [0; 1]%nat)
    /\ (exists root hi, Root bvh = Some root /\ higher root = Some hi
                        /\ well_formed_node hi = false)
    /\ Compile coincident_heap bvh [] = NullDereference.
Proof.
  eexists. split; [vm_compute; reflexivity|].
  split; [|vm_compute; reflexivity].
  eexists. eexists. split; [reflexivity|]. split; [reflexivity|].
  vm_compute. reflexivity.
Qed.

(** C4, counterexample. For the single sphere centred at x = 1e31 with
    radius 1, the root box starts at the sentinel 99.0e+29, below the
    sphere's own [Xmin]: the root box is not the union of the input
    boxes. *)
Lemma far_sphere_root_box_not_union :
  exists root primitives',
    BVH_new far_heap [0%nat] 1024 2 = Some (mkBVH (Some root), primitives')
    /\ xmin root = f_99e29
    /\ flt (xmin root) (Xmin far_sphere) = true
    /\ ~ box_is_union (map far_heap [0%nat]) root.
Proof.
  eexists. eexists. split; [vm_compute; reflexivity|].
  split; [reflexivity|]. split; [vm_compute; reflexivity|].
  intros ((_ & p & Hin & Heq) & _).
  destruct Hin as [<-|[]]. vm_compute in Heq. discriminate.
Qed.

(** The sphere of [lost_heap] has a NaN for [Xmin]: the running minimum
    keeps the sentinel, and no comparison places that sphere inside the
    leaf that stores it. *)
Example lost_sphere_not_contained :
  exists root primitives',
    BVH_new lost_heap [0%nat] 1024 2 = Some (mkBVH (Some root), primitives')
    /\ is_nan (Xmin lost_sphere) = true
    /\ xmin root = f_99e29
    /\ ~ every_node (contains_below lost_heap) root.
Proof.
  eexists. eexists. split; [vm_compute; reflexivity|].
  split; [reflexivity|]. split; [reflexivity|].
  intros Hall. apply Forall_cons in Hall. destruct Hall as [[_ Hleaf] _].
  destruct (Hleaf eq_refl 0%nat) as [E _]; [left; reflexivity|].
  vm_compute in E. discriminate.
Qed.

(** The far sphere beside two unit spheres: the root splits, the far
    sphere alone goes to the higher child. *)
Example mixed_is_built :
  exists root lo hi,
    BVH_new mixed_heap [0; 1; 2]%nat 1024 2 = Some (mkBVH (Some root), [1; 2; 0]%nat)
    /\ lower root = Some lo /\ higher root = Some hi
    /\ primitives lo = [1; 2]%nat /\ primitives hi = [0%nat].
Proof. do 3 eexists. split; [vm_compute; reflexivity|]. repeat split. Qed.

(** In that scene one sphere lies beyond the sentinel, yet every box
    contains what is below it and the root box is the union. *)
Lemma Subdivide_boxes_exactly_witness :
  exists root primitives',
    BVH_new mixed_heap [0; 1; 2]%nat 1024 2 = Some (mkBVH (Some root), primitives')
    /\ every_node (contains_below mixed_heap) root
    /\ box_is_union (map mixed_heap [0; 1; 2]%nat) root.
Proof.
  destruct (Subdivide_boxes_exactly mixed_heap [0; 1; 2]%nat 1024 2)
    as (root & v' & H & [_ Hc] & [_ Hu]).
  assert (Hd : forall h, In h [0; 1; 2]%nat -> box_defined (mixed_heap h)).
  { intros h [<-|[<-|[<-|[]]]]; vm_compute; repeat split. }
  exists root, v'. split; [exact H|]. split; [exact (Hc Hd)|].
  apply Hu. split; [exact Hd|].
  repeat split;
    first [exists (mixed_heap 0%nat); split; [simpl; auto|reflexivity]
          |exists (mixed_heap 1%nat); split; [simpl; auto|reflexivity]].
Defined.

(** Three coincident spheres, built as [SetPrimitives] builds. *)
Lemma Subdivide_terminates_witness :
  (1 <= 1024 < 2 ^ 32 /\ 1 <= 2 /\ [0; 1; 2]%nat <> []) /\
  exists root primitives',
    (forall fuel, (Z.to_nat 1024 <= fuel)%nat ->
       Subdivide coincident_heap fuel [0; 1; 2]%nat 0 (length [0; 1; 2]%nat) 0 1024 2
       = Some (root, primitives'))
    /\ BVH_new coincident_heap [0; 1; 2]%nat 1024 2 = Some (mkBVH (Some root), primitives')
    /\ at_level 1024 0 root
    /\ (depth root <= Z.to_nat 1024)%nat.
Proof.
  assert (H1 : 1 <= 1024 < 2 ^ 32) by (change (2 ^ 32) with 4294967296; lia).
  assert (H2 : 1 <= 2) by lia.
  assert (H3 : [0; 1; 2]%nat <> []) by discriminate.
  split; [auto|].
  apply (Subdivide_terminates coincident_heap [0; 1; 2]%nat 1024 2 H1 H2 H3).
Defined.

(** The empty scene, built as [SetPrimitives] builds. *)
Lemma BVH_new_empty_input_root_witness :
  0 <= 2 /\
  exists root,
    BVH_new row_heap [] 1024 2 = Some (mkBVH (Some root), [])
    /\ is_leaf root = false /\ is_internal root = false
    /\ well_formed_node root = false.
Proof.
  assert (H : 0 <= 2) by lia.
  split; [exact H|]. apply (BVH_new_empty_input_root row_heap 1024 2 H).
Defined.

(** The empty scene, built and compiled as [SetPrimitives] does. *)
Lemma Compile_empty_scene_null_dereference_witness :
  0 <= 2 /\
  exists bvh,
    BVH_new row_heap [] 1024 2 = Some (bvh, [])
    /\ Compile row_heap bvh [] = NullDereference.
Proof.
  assert (H : 0 <= 2) by lia.
  split; [exact H|]. apply (Compile_empty_scene_null_dereference row_heap 1024 2 H).
Defined.

(** The row compiled a second time, behind its own first compilation. *)
Lemma Compile_addresses_witness :
  (Compile row_heap row_bvh row_compiled = Done row_compiled_twice /\
   (length row_compiled mod 4 = 0)%nat /\
   Z.of_nat (length row_compiled_twice) < 2 ^ 34) /\
  exists root,
    Root row_bvh = Some root /\
    addresses_ok row_heap row_compiled_twice root (length row_compiled) None.
Proof.
  assert (H2 : (length row_compiled mod 4 = 0)%nat)
    by (rewrite row_compiled_length; reflexivity).
  assert (H3 : Z.of_nat (length row_compiled_twice) < 2 ^ 34)
    by (rewrite row_compiled_twice_length; reflexivity).
  split; [split; [exact row_is_compiled_twice|split; [exact H2|exact H3]]|].
  apply (Compile_addresses row_heap row_bvh row_compiled row_compiled_twice
           row_is_compiled_twice H2 H3).
Defined.

(** The row, built and compiled as [SetPrimitives] does. *)
Lemma Compile_flags_witness :
  (BVH_new row_heap [3; 1; 0; 2]%nat 1024 2 = Some (row_bvh, [0; 1; 2; 3]%nat) /\
   Compile row_heap row_bvh [] = Done row_compiled) /\
  exists root,
    Root row_bvh = Some root /\
    map rec_node (records row_heap root (length (@nil Slot)) false true) = nodes root /\
    Forall (flags_ok row_compiled) (records row_heap root (length (@nil Slot)) false true) /\
    exists rest,
      records row_heap root (length (@nil Slot)) false true
      = mkNodeRecord (length (@nil Slot)) root false true :: rest
      /\ Forall (fun r => rec_isRoot r = false) rest.
Proof.
  split; [split; [exact row_is_built|exact row_is_compiled]|].
  apply (Compile_flags row_heap [3; 1; 0; 2]%nat 1024 2 row_bvh [0; 1; 2; 3]%nat [] row_compiled
           row_is_built row_is_compiled).
Defined.

(** The row compiled a second time, behind its own first compilation. *)
Lemma Compile_appends_witness :
  Compile row_heap row_bvh row_compiled = Done row_compiled_twice /\
  exists root appended,
    Root row_bvh = Some root /\
    row_compiled_twice = row_compiled ++ appended /\
    take (length row_compiled) row_compiled_twice = row_compiled /\
    (forall i s, row_compiled !! i = Some s -> row_compiled_twice !! i = Some s) /\
    record_at row_compiled_twice (length row_compiled) root /\
    ((length row_compiled mod 4 = 0)%nat ->
     length row_compiled = (4 * (length row_compiled / 4))%nat /\
     record_at row_compiled_twice (4 * (length row_compiled / 4)) root).
Proof.
  split; [exact row_is_compiled_twice|].
  apply (Compile_appends row_heap row_bvh row_compiled row_compiled_twice
           row_is_compiled_twice).
Defined.

(** The constructor of the cone gives the cone of the row its derived
    members. *)
Example Cone_new_upright :
  Cone_new (vec 30 0 0) (vec 30 0 1) (float_of_Z 1) (float_of_Z 1) = upright_cone_at 30.
Proof. vm_compute. reflexivity. Qed.

Example plain_is_compiled : Compile plain_heap plain_bvh [] = Done plain_compiled.
Proof. vm_compute. reflexivity. Qed.

(** The scene of [InitBox]: 292 slots, as the program compiles it. *)
Example InitBox_is_compiled :
  exists tree primitives',
    SetPrimitives InitBox_heap (seq 0 9) = Some (tree, primitives', Done InitBox_compiled)
    /\ length InitBox_compiled = 292%nat.
Proof. eexists. eexists. split; vm_compute; reflexivity. Qed.

(** On the scene of [InitBox], whose cone lies in the leaf at quad 54,
    [Print] loses the records behind that leaf: the record of the last
    node begins at quad 66, and [Print] announces nodes at quads 64, 67
    and 70. *)
Example Print_InitBox_loses_track :
  exists tree primitives' root out,
    SetPrimitives InitBox_heap (seq 0 9) = Some (tree, primitives', Done InitBox_compiled)
    /\ Root tree = Some root
    /\ map (fun r => Z.of_nat (rec_start r) / 4) (records InitBox_heap root 0 false true)
       = [0; 3; 6; 9; 12; 15; 26; 31; 37; 44; 51; 54; 66]
    /\ Print InitBox_compiled = Some out
    /\ node_addresses out = [0; 3; 6; 9; 12; 15; 26; 31; 37; 44; 51; 54; 64; 67; 70].
Proof.
  eexists. eexists. eexists. eexists.
  split; [vm_compute; reflexivity|]. split; [reflexivity|].
  split; [vm_compute; reflexivity|]. split; vm_compute; reflexivity.
Qed.

(** The row without the cone, built and compiled as [SetPrimitives]
    does. *)
Lemma Print_follows_Compile_witness :
  ((forall root, Root plain_bvh = Some root -> every_node (decodable plain_heap) root) /\
   Compile plain_heap plain_bvh [] = Done plain_compiled) /\
  exists root,
    Root plain_bvh = Some root /\
    Print plain_compiled = Some (render plain_heap root 0 0 false true).
Proof.
  assert (H1 : forall root, Root plain_bvh = Some root ->
                            every_node (decodable plain_heap) root).
  { intros root Hroot. vm_compute in Hroot. injection Hroot as <-.
    unfold every_node, decodable. repeat constructor; vm_compute; discriminate. }
  split; [split; [exact H1|exact plain_is_compiled]|].
  apply (Print_follows_Compile plain_heap plain_bvh plain_compiled H1 plain_is_compiled).
Defined.

(** The row, built as [SetPrimitives] builds. *)
Lemma BVH_new_nonempty_scene_nodes_witness :
  (2 <= 2 /\ [3; 1; 0; 2]%nat <> []) /\
  exists root primitives',
    BVH_new row_heap [3; 1; 0; 2]%nat 1024 2 = Some (mkBVH (Some root), primitives')
    /\ every_node (fun n => (is_leaf n = true /\ is_internal n = false)
                            \/ (is_leaf n = false /\ is_internal n = true)) root
    /\ Forall (fun ps => ps <> []) (leaves root).
Proof.
  assert (H1 : 2 <= 2) by lia.
  assert (H2 : [3; 1; 0; 2]%nat <> []) by discriminate.
  split; [auto|].
  apply (BVH_new_nonempty_scene_nodes row_heap [3; 1; 0; 2]%nat 1024 2 H1 H2).
Defined.

(** Three coincident spheres, built as [SetPrimitives] builds. *)
Lemma BVH_new_tree_size_witness :
  (2 <= 2 /\ [0; 1; 2]%nat <> []) /\
  exists root primitives',
    BVH_new coincident_heap [0; 1; 2]%nat 1024 2 = Some (mkBVH (Some root), primitives')
    /\ (length (nodes root) + 1 = 2 * length (leaves root))%nat
    /\ (length (leaves root) <= length [0; 1; 2]%nat)%nat
    /\ (depth root <= length [0; 1; 2]%nat)%nat.
Proof.
  assert (H1 : 2 <= 2) by lia.
  assert (H2 : [0; 1; 2]%nat <> []) by discriminate.
  split; [auto|].
  apply (BVH_new_tree_size coincident_heap [0; 1; 2]%nat 1024 2 H1 H2).
Defined.

(** The sphere beyond the sentinel, whose box coordinates are numbers. *)
Lemma Subdivide_boxes_contain_witness :
  (forall h, In h [0%nat] -> box_defined (far_heap h)) /\
  exists root primitives',
    BVH_new far_heap [0%nat] 1024 2 = Some (mkBVH (Some root), primitives')
    /\ every_node (contains_below far_heap) root
    /\ forall h, In h [0%nat] -> primitive_inside (far_heap h) root.
Proof.
  assert (H : forall h, In h [0%nat] -> box_defined (far_heap h)).
  { intros h [<-|[]]. vm_compute. repeat split. }
  split; [exact H|]. apply (Subdivide_boxes_contain far_heap [0%nat] 1024 2 H).
Defined.

(** The row, built and compiled as [SetPrimitives] does. *)
Lemma Compile_size_witness :
  (BVH_new row_heap [3; 1; 0; 2]%nat 1024 2 = Some (row_bvh, [0; 1; 2; 3]%nat) /\
   Compile row_heap row_bvh [] = Done row_compiled) /\
  exists root,
    Root row_bvh = Some root /\
    length row_compiled
    = (length (@nil Slot)
       + 4 * (3 * length (nodes root)
              + list_sum (map (fun h => record_quads (GetType (row_heap h)))
                              [3; 1; 0; 2]%nat)))%nat.
Proof.
  split; [split; [exact row_is_built|exact row_is_compiled]|].
  apply (Compile_size row_heap [3; 1; 0; 2]%nat 1024 2 row_bvh [0; 1; 2; 3]%nat [] row_compiled
           row_is_built row_is_compiled).
Defined.

(** The scene of [InitBox]. *)
Lemma SetPrimitives_returns_witness :
  (seq 0 9 <> [] /\ 44 * Z.of_nat (length (seq 0 9)) <= 2 ^ 31) /\
  exists tree primitives' compiledTree,
    SetPrimitives InitBox_heap (seq 0 9) = Some (tree, primitives', Done compiledTree)
    /\ Permutation primitives' (seq 0 9)
    /\ (length compiledTree mod 4 = 0)%nat
    /\ (20 <= length compiledTree <= 44 * length (seq 0 9) - 12)%nat.
Proof.
  assert (H1 : seq 0 9 <> []) by discriminate.
  assert (H2 : 44 * Z.of_nat (length (seq 0 9)) <= 2 ^ 31) by (vm_compute; discriminate).
  split; [auto|]. apply (SetPrimitives_returns InitBox_heap (seq 0 9) H1 H2).
Defined.

(** The triangle of the row. *)
Lemma Triangle_box_spans_vertices_witness :
  (forall v, In v [vec 19 0 0; vec 21 0 0; vec 20 1 0] ->
     within_9e19 (Vec3f.x v) /\ within_9e19 (Vec3f.y v) /\ within_9e19 (Vec3f.z v)) /\
  let t := Triangle_new (vec 19 0 0) (vec 21 0 0) (vec 20 1 0) in
  spans Vec3f.x [vec 19 0 0; vec 21 0 0; vec 20 1 0] (Xmin t) (Xmax t) /\
  spans Vec3f.y [vec 19 0 0; vec 21 0 0; vec 20 1 0] (Ymin t) (Ymax t) /\
  spans Vec3f.z [vec 19 0 0; vec 21 0 0; vec 20 1 0] (Zmin t) (Zmax t).
Proof.
  assert (H : forall v, In v [vec 19 0 0; vec 21 0 0; vec 20 1 0] ->
                within_9e19 (Vec3f.x v) /\ within_9e19 (Vec3f.y v)
                /\ within_9e19 (Vec3f.z v)).
  { intros v [<-|[<-|[<-|[]]]]; vm_compute; repeat split. }
  split; [exact H|].
  apply (Triangle_box_spans_vertices (vec 19 0 0) (vec 21 0 0) (vec 20 1 0) H).
Defined.

(** The cone of [InitBox]. *)
Lemma Cone_box_contains_caps_witness :
  (box_defined (Sphere_new (Vec3f.mk f_0_5 f_m0_7 (float_of_Z 0)) f_0_2) /\
   box_defined (Sphere_new (Vec3f.mk f_0_5 f_m0_7 f_0_35) f_0_2)) /\
  let cone := Cone_new (Vec3f.mk f_0_5 f_m0_7 (float_of_Z 0))
                       (Vec3f.mk f_0_5 f_m0_7 f_0_35) f_0_2 f_0_2 in
  box_within (Sphere_new (Vec3f.mk f_0_5 f_m0_7 (float_of_Z 0)) f_0_2) cone /\
  box_within (Sphere_new (Vec3f.mk f_0_5 f_m0_7 f_0_35) f_0_2) cone.
Proof.
  assert (H1 : box_defined (Sphere_new (Vec3f.mk f_0_5 f_m0_7 (float_of_Z 0)) f_0_2))
    by (vm_compute; repeat split).
  assert (H2 : box_defined (Sphere_new (Vec3f.mk f_0_5 f_m0_7 f_0_35) f_0_2))
    by (vm_compute; repeat split).
  split; [auto|].
  apply (Cone_box_contains_caps (Vec3f.mk f_0_5 f_m0_7 (float_of_Z 0))
           (Vec3f.mk f_0_5 f_m0_7 f_0_35) f_0_2 f_0_2 H1 H2).
Defined.

(** A cone of no length at (30, 0, 0), with radii 1 and 2. *)
Lemma Cone_coincident_centers_witness :
  (is_number (F64.of_float (Vec3f.x (vec 30 0 0))) = true /\
   is_number (F64.of_float (Vec3f.y (vec 30 0 0))) = true /\
   is_number (F64.of_float (Vec3f.z (vec 30 0 0))) = true) /\
  exists WidthCoeff CosB,
    shape (Cone_new (vec 30 0 0) (vec 30 0 0) (float_of_Z 1) (float_of_Z 2))
    = Cone (vec 30 0 0) (vec 30 0 0) (float_of_Z 1) (float_of_Z 2)
           (Vec3f.mk S754_nan S754_nan S754_nan) (S754_zero false)
           WidthCoeff CosB S754_nan.
Proof.
  assert (H1 : is_number (F64.of_float (Vec3f.x (vec 30 0 0))) = true) by reflexivity.
  assert (H2 : is_number (F64.of_float (Vec3f.y (vec 30 0 0))) = true) by reflexivity.
  assert (H3 : is_number (F64.of_float (Vec3f.z (vec 30 0 0))) = true) by reflexivity.
  split; [auto|].
  apply (Cone_coincident_centers (vec 30 0 0) (float_of_Z 1) (float_of_Z 2) H1 H2 H3).
Defined.

(** A sphere of infinite radius has no center for the comparator: its
    box runs from minus to plus infinity, and their sum is a NaN.  Beside
    two unit spheres it is neither less nor greater than either, while
    one of them is less than the other. *)
Example center_less_with_NaN_center :
  let heap := heap_of [unit_sphere_at 0;
                       Sphere_new (vec 5 0 0) (S754_infinity false);
                       unit_sphere_at 10] in
  is_nan (center heap AxisX 1%nat) = true /\
  ~ strict_weak_order_on [0; 1; 2]%nat (center_less heap AxisX).
Proof.
  cbv zeta. split; [reflexivity|].
  intros (_ & _ & H).
  destruct (H 0%nat 1%nat 2%nat) as [E _]; simpl; auto; try reflexivity.
  vm_compute in E. discriminate.
Qed.

(** The row along the x axis. *)
Lemma center_less_strict_weak_order_witness :
  (forall h, In h [3; 1; 0; 2]%nat -> is_nan (center row_heap AxisX h) = false) /\
  strict_weak_order_on [3; 1; 0; 2]%nat (center_less row_heap AxisX).
Proof.
  assert (H : forall h, In h [3; 1; 0; 2]%nat -> is_nan (center row_heap AxisX h) = false).
  { intros h [<-|[<-|[<-|[<-|[]]]]]; reflexivity. }
  split; [exact H|].
  apply (center_less_strict_weak_order row_heap AxisX [3; 1; 0; 2]%nat H).
Defined.

(** The row of four spheres. *)
Lemma Compile_leaf_records_witness :
  Compile row_heap row_bvh [] = Done row_compiled /\
  exists root,
    Root row_bvh = Some root /\
    row_compiled !! (length (@nil Slot) + 11)%nat = Some (SlotU 0) /\
    Forall (leaf_record_ok row_heap row_compiled)
           (records row_heap root (length (@nil Slot)) false true).
Proof.
  split; [exact row_is_compiled|].
  apply (Compile_leaf_records row_heap row_bvh [] row_compiled row_is_compiled).
Defined.
